(** * nginx-flow: location matching, audit engine, directive cleaner and fix engine

    A shallow embedding of the TypeScript sources

    - [src/utils/nginxParser.ts]      ([tokenize], [Parser],
                                       [parseListenDirective],
                                       [parseLocationModifier],
                                       [parseUpstreamServer]),
    - [utils/locationMatcher]         ([matchLocation]),
    - [utils/configCleaner]           ([ConfigCleaner]),
    - [services/AutoFixService.ts]    ([AutoFixService]),
    - [services/auditService]         ([auditRules], [runAudit], [applyFix],
                                       [applyAllFixes]),

    together with the properties the specification states about them.

    Conventions of the embedding.
    - A JavaScript string is a [string]: a sequence of 8-bit code units
      (the Latin-1 range of UTF-16).  [\s] and [trim] therefore know the
      white space characters 9-13, 32 and 160, and the line terminators
      10 and 13; the white space of the source beyond that range (U+FEFF,
      U+2028, U+3000 and others) is not among the inputs.
    - A JavaScript number that the code only uses as an integer is a [Z];
      [parseInt] returns [NaN] or an integer.  The source's number is a
      double: it is that integer up to 2^53 in absolute value
      ([Js.exact]) and the nearest double beyond.
    - A pattern that the source builds from a key with [new RegExp] has
      the key as a literal: this is the source's pattern for a key without
      pattern syntax in it, as the keys are that the code passes.
    - [uuidv4 ()] is a supply of identifiers: the [n]-th call returns
      [uuid n], for a function [uuid] the development is parametric in; the
      counter is threaded through the code that draws identifiers.
    - [try]/[catch] is made explicit with the type [completion]. *)

From Stdlib Require Import Strings.String Strings.Ascii Lists.List ZArith Bool Arith Lia.
From Stdlib Require Import DecimalString.
Import ListNotations.
Local Open Scope string_scope.
Local Open Scope list_scope.
Local Open Scope nat_scope.

Set Implicit Arguments.

(* ================================================================== *)
(** * JavaScript strings *)
(* ================================================================== *)

Module Js.

Definition code (c : ascii) : nat := nat_of_ascii c.

(** [WhiteSpace] and [LineTerminator] of ECMAScript, in the 8-bit range. *)
Definition is_space (c : ascii) : bool :=
  let n := code c in
  ((9 <=? n) && (n <=? 13)) || (n =? 32) || (n =? 160).

Definition is_line_terminator (c : ascii) : bool :=
  let n := code c in (n =? 10) || (n =? 13).

Definition is_digit (c : ascii) : bool :=
  let n := code c in (48 <=? n) && (n <=? 57).

Definition LF : ascii := ascii_of_nat 10.
Definition CR : ascii := ascii_of_nat 13.
Definition DQUOTE : ascii := ascii_of_nat 34.
Definition SQUOTE : ascii := ascii_of_nat 39.

(** [s.startsWith(p)] *)
Definition startsWith (s p : string) : bool := String.prefix p s.

(** [s.includes(sub)] *)
Fixpoint includes (s sub : string) : bool :=
  String.prefix sub s ||
  match s with
  | EmptyString => false
  | String _ t => includes t sub
  end.

Fixpoint trimStart (s : string) : string :=
  match s with
  | String c t => if is_space c then trimStart t else s
  | EmptyString => EmptyString
  end.

(** [trimEnd]: the result is empty exactly when the rest is all white space. *)
Fixpoint trimEnd (s : string) : string :=
  match s with
  | EmptyString => EmptyString
  | String c t =>
      match trimEnd t with
      | EmptyString => if is_space c then EmptyString else String c EmptyString
      | t' => String c t'
      end
  end.

(** [s.trim()] *)
Definition trim (s : string) : string := trimEnd (trimStart s).

(** JavaScript truthiness of a string: [!s] is [isEmpty s]. *)
Definition isEmpty (s : string) : bool :=
  match s with EmptyString => true | _ => false end.

(** [s.split(sep)] for a one-character separator: the current piece is
    accumulated in [cur]. *)
Fixpoint split_go (sep : ascii) (cur : string) (s : string) : list string :=
  match s with
  | EmptyString => [cur]
  | String c t =>
      if Ascii.eqb c sep then cur :: split_go sep EmptyString t
      else split_go sep (cur ++ String c EmptyString)%string t
  end.

Definition split (sep : ascii) (s : string) : list string :=
  split_go sep EmptyString s.

(** [parts.join(sep)] *)
Fixpoint join (sep : string) (parts : list string) : string :=
  match parts with
  | [] => EmptyString
  | [p] => p
  | p :: rest => (p ++ sep ++ join sep rest)%string
  end.

(** [s.replace(from, to)] with a string pattern: the first occurrence only. *)
Fixpoint replaceFirst (from to s : string) : string :=
  if String.prefix from s
  then (to ++ substring (String.length from) (String.length s - String.length from) s)%string
  else match s with
       | EmptyString => EmptyString
       | String c t => String c (replaceFirst from to t)
       end.

(** Numbers: the result of [parseInt]. *)
Inductive number : Type :=
| NaN : number
| Int : Z -> number.

Definition digit_val (c : ascii) : Z := Z.of_nat (code c - 48).

(** The value of the longest prefix of decimal digits ([None] when there
    is no digit). *)
Fixpoint digits_prefix (acc : option Z) (s : string) : option Z :=
  match s with
  | String c t =>
      if is_digit c
      then digits_prefix (Some (10 * match acc with Some a => a | None => 0 end + digit_val c)%Z) t
      else acc
  | EmptyString => acc
  end.

(** [parseInt(s, 10)]: leading white space is skipped, one sign is read,
    then the longest run of digits; no digit gives [NaN].  The result is
    the integer read; the source holds it as a double, which is that
    integer when [exact] holds of it. *)
Definition parseInt (s : string) : number :=
  match trimStart s with
  | String "-" t =>
      match digits_prefix None t with Some z => Int (- z) | None => NaN end
  | String "+" t =>
      match digits_prefix None t with Some z => Int z | None => NaN end
  | t => match digits_prefix None t with Some z => Int z | None => NaN end
  end.

(** The numbers that a double holds as they are: [NaN], and the integers
    up to 2^53 in absolute value. *)
Definition exact (n : number) : bool :=
  match n with
  | NaN => true
  | Int z => (Z.abs z <=? 2 ^ 53)%Z
  end.

(** [String(n)] for an integer. *)
Definition String_of_Z (z : Z) : string := NilEmpty.string_of_int (Z.to_int z).

End Js.

(* ================================================================== *)
(** * Regular expressions

    The fragment of ECMAScript regular expressions the sources use: single
    characters, character classes, greedy repetition of a class, sequence,
    ordered alternative, and the assertions [^] and [$].  Matching is the
    backtracking matcher of the language definition, written with
    continuations: [m r k prev s] matches [r] at a position whose previous
    character is [prev] and whose remaining input is [s], then runs [k];
    alternatives are tried in priority order. *)
(* ================================================================== *)

Module Re.

Inductive re : Type :=
| Eps  : re
| Lit  : ascii -> re                 (* a pattern character *)
| Cls  : (ascii -> bool) -> re       (* a character class *)
| Star : (ascii -> bool) -> re       (* greedy [C*] of a class *)
| Seq  : re -> re -> re
| Alt  : re -> re -> re              (* [a|b], [a] first *)
| Bol  : re                          (* [^] *)
| Eol  : re.                         (* [$] *)

Record flags : Type := { ignoreCase : bool; multiline : bool }.

Definition Plus (p : ascii -> bool) : re := Seq (Cls p) (Star p).
Definition Opt (r : re) : re := Alt r Eps.

Fixpoint Str (s : string) : re :=
  match s with
  | EmptyString => Eps
  | String c t => Seq (Lit c) (Str t)
  end.

(** Character classes of the sources. *)
Definition space : ascii -> bool := Js.is_space.            (* \s *)
Definition notSemi (c : ascii) : bool := negb (Ascii.eqb c ";").   (* [^;] *)
Definition quote (c : ascii) : bool :=
  Ascii.eqb c Js.SQUOTE || Ascii.eqb c Js.DQUOTE.           (* a single or double quote *)
Definition isLF (c : ascii) : bool := Ascii.eqb c Js.LF.    (* \n *)
Definition isCR (c : ascii) : bool := Ascii.eqb c Js.CR.    (* \r *)

(** [Canonicalize] with the [i] flag: the upper-case mapping, on the code
    units that have an upper-case form in the 8-bit range. *)
Definition canonicalize (c : ascii) : ascii :=
  let n := Js.code c in
  if ((97 <=? n) && (n <=? 122)) || ((224 <=? n) && (n <=? 254) && negb (n =? 247))
  then ascii_of_nat (n - 32) else c.

Definition char_eq (f : flags) (a b : ascii) : bool :=
  if ignoreCase f then Ascii.eqb (canonicalize a) (canonicalize b)
  else Ascii.eqb a b.

Definition at_bol (f : flags) (prev : option ascii) : bool :=
  match prev with
  | None => true
  | Some c => multiline f && Js.is_line_terminator c
  end.

Definition at_eol (f : flags) (s : string) : bool :=
  match s with
  | EmptyString => true
  | String c _ => multiline f && Js.is_line_terminator c
  end.

Section Matcher.
Variable A : Type.
Variable f : flags.

Definition cont : Type := option ascii -> string -> option A.

Fixpoint star (p : ascii -> bool) (k : cont) (prev : option ascii) (s : string) : option A :=
  match s with
  | String c t =>
      if p c then
        match star p k (Some c) t with
        | Some r => Some r
        | None => k prev s
        end
      else k prev s
  | EmptyString => k prev s
  end.

Fixpoint m (r : re) (k : cont) (prev : option ascii) (s : string) : option A :=
  match r with
  | Eps => k prev s
  | Lit c =>
      match s with
      | String d t => if char_eq f c d then k (Some d) t else None
      | EmptyString => None
      end
  | Cls p =>
      match s with
      | String d t => if p d then k (Some d) t else None
      | EmptyString => None
      end
  | Star p => star p k prev s
  | Seq a b => m a (m b k) prev s
  | Alt a b =>
      match m a k prev s with
      | Some x => Some x
      | None => m b k prev s
      end
  | Bol => if at_bol f prev then k prev s else None
  | Eol => if at_eol f s then k prev s else None
  end.
End Matcher.

(** A match at the current position: the input that remains after it. *)
Definition exec (f : flags) (r : re) (prev : option ascii) (s : string) : option string :=
  m f r (fun _ rest => Some rest) prev s.

(** [r.test(s)] for a regular expression without the [g] flag: is there a
    match at some position of [s]? *)
Fixpoint test_from (f : flags) (r : re) (prev : option ascii) (s : string) : bool :=
  match exec f r prev s with
  | Some _ => true
  | None =>
      match s with
      | EmptyString => false
      | String c t => test_from f r (Some c) t
      end
  end.

Definition test (f : flags) (r : re) (s : string) : bool := test_from f r None s.

(** [s.replace(r, repl)] for a regular expression with the [g] flag and a
    replacement without [$] patterns.  [skip] counts the characters of the
    current match still to drop; after an empty match the search moves on
    by one character. *)
Fixpoint replace_go (f : flags) (r : re) (repl : string) (skip : nat)
    (prev : option ascii) (s : string) : string :=
  match s with
  | EmptyString =>
      match skip with
      | O => match exec f r prev s with Some _ => repl | None => EmptyString end
      | S _ => EmptyString
      end
  | String c t =>
      match skip with
      | S n => replace_go f r repl n (Some c) t
      | O =>
          match exec f r prev s with
          | Some rest =>
              match String.length s - String.length rest with
              | O => (repl ++ String c (replace_go f r repl 0 (Some c) t))%string
              | S n => (repl ++ replace_go f r repl n (Some c) t)%string
              end
          | None => String c (replace_go f r repl 0 (Some c) t)
          end
      end
  end.

Definition replace (f : flags) (r : re) (repl : string) (s : string) : string :=
  replace_go f r repl 0 None s.

Definition gm : flags := {| ignoreCase := false; multiline := true |}.
Definition gim : flags := {| ignoreCase := true; multiline := true |}.
Definition plain : flags := {| ignoreCase := false; multiline := false |}.
Definition fi : flags := {| ignoreCase := true; multiline := false |}.
Definition fm : flags := {| ignoreCase := false; multiline := true |}.

End Re.

(* ================================================================== *)
(** * The domain model ([types/nginx]) *)
(* ================================================================== *)

Record ErrorLog : Type := { el_path : string; el_level : string }.

Record GlobalConfig : Type := {
  user : string;
  workerProcesses : string;
  errorLog : ErrorLog;
  pid : string;
  g_customDirectives : string
}.

Record EventsConfig : Type := {
  workerConnections : Z;
  use : string;
  multiAccept : bool;
  e_customDirectives : string
}.

Record GzipConfig : Type := {
  gz_enabled : bool;
  gz_types : list string;
  gz_compLevel : Z;
  gz_minLength : Z
}.

(** [serverTokens] is [None] when the field is unset ([undefined]). *)
Record HttpConfig : Type := {
  sendfile : bool;
  tcpNopush : bool;
  tcpNodelay : bool;
  keepaliveTimeout : Z;
  typesHashMaxSize : Z;
  includeMimeTypes : bool;
  defaultType : string;
  logFormat : string * string;          (* name, format *)
  accessLog : string * string;          (* path, format *)
  gzip : GzipConfig;
  serverTokens : option bool;
  clientMaxBodySize : string;
  h_customDirectives : string
}.

Record UpstreamServer : Type := {
  us_id : string;
  us_address : string;
  us_port : Z;
  us_weight : Z;
  us_maxFails : Z;
  us_failTimeout : Z;
  us_backup : bool;
  us_down : bool
}.

Record UpstreamConfig : Type := {
  u_id : string;
  u_name : string;
  u_strategy : string;
  u_servers : list UpstreamServer;
  u_customDirectives : string
}.

Record SSLConfig : Type := {
  enabled : bool;
  certificate : string;
  certificateKey : string;
  protocols : list string;
  ciphers : string;
  forceRedirect : bool
}.

Record Listen : Type := {
  port : Z;
  defaultServer : bool;
  http2 : bool
}.

Record ServerConfig : Type := {
  s_id : string;
  s_name : string;
  listen : Listen;
  serverName : string;
  ssl : SSLConfig;
  root : string;
  index : list string;
  s_customDirectives : string
}.

Record ProxyHeader : Type := {
  ph_name : string;
  ph_value : string;
  ph_enabled : bool
}.

Record CorsConfig : Type := {
  cors_enabled : bool;
  allowOrigin : string;
  allowMethods : list string;
  allowHeaders : list string;
  allowCredentials : bool
}.

Record AuthBasic : Type := {
  ab_enabled : bool;
  realm : string;
  userFile : string
}.

Record AccessControl : Type := {
  allow : list string;
  deny : list string;
  authBasic : AuthBasic
}.

Record Rewrite : Type := {
  rw_pattern : string;
  rw_replacement : string;
  rw_flag : string
}.

(** The match modifier of a location: [''], ['='], ['~'], ['~*'], ['^~']. *)
Inductive Modifier : Type :=
| ModNone | ModExact | ModRegex | ModRegexI | ModPrefixPriority.

Definition Modifier_eqb (a b : Modifier) : bool :=
  match a, b with
  | ModNone, ModNone | ModExact, ModExact | ModRegex, ModRegex
  | ModRegexI, ModRegexI | ModPrefixPriority, ModPrefixPriority => true
  | _, _ => false
  end.

Record LocationConfig : Type := {
  l_id : string;
  serverId : string;
  modifier : Modifier;
  path : string;
  proxyPass : string;
  upstreamId : option string;
  headers : list ProxyHeader;
  cors : CorsConfig;
  websocket : bool;
  alias : string;
  tryFiles : string;
  returnCode : option Z;
  returnUrl : string;
  rewrite : option Rewrite;
  accessControl : AccessControl;
  l_customDirectives : string
}.

Record NginxConfig : Type := {
  global : GlobalConfig;
  events : EventsConfig;
  http : HttpConfig;
  upstreams : list UpstreamConfig;
  servers : list ServerConfig;
  locations : list LocationConfig;
  rawConfig : option string
}.

(** [Partial<NginxConfig>]: an object with some of the keys of a config. *)
Record PartialConfig : Type := {
  p_global : option GlobalConfig;
  p_events : option EventsConfig;
  p_http : option HttpConfig;
  p_upstreams : option (list UpstreamConfig);
  p_servers : option (list ServerConfig);
  p_locations : option (list LocationConfig);
  p_rawConfig : option (option string)
}.

(** The object [{}]. *)
Definition emptyPartial : PartialConfig :=
  {| p_global := None; p_events := None; p_http := None; p_upstreams := None;
     p_servers := None; p_locations := None; p_rawConfig := None |}.

Definition isSome {A : Type} (o : option A) : bool :=
  match o with Some _ => true | None => false end.

(** [Object.keys(fix).length] *)
Definition keysLength (p : PartialConfig) : nat :=
  (if isSome (p_global p) then 1 else 0) + (if isSome (p_events p) then 1 else 0) +
  (if isSome (p_http p) then 1 else 0) + (if isSome (p_upstreams p) then 1 else 0) +
  (if isSome (p_servers p) then 1 else 0) + (if isSome (p_locations p) then 1 else 0) +
  (if isSome (p_rawConfig p) then 1 else 0).

Definition orElse {A : Type} (o : option A) (d : A) : A :=
  match o with Some a => a | None => d end.

(** The spread [{ ...config, ...fix }]. *)
Definition merge (c : NginxConfig) (p : PartialConfig) : NginxConfig :=
  {| global := orElse (p_global p) (global c);
     events := orElse (p_events p) (events c);
     http := orElse (p_http p) (http c);
     upstreams := orElse (p_upstreams p) (upstreams c);
     servers := orElse (p_servers p) (servers c);
     locations := orElse (p_locations p) (locations c);
     rawConfig := orElse (p_rawConfig p) (rawConfig c) |}.

(** Field updates, for the spreads [{ ...x, field: v }] of the sources. *)
Definition set_g_custom (g : GlobalConfig) (t : string) : GlobalConfig :=
  {| user := user g; workerProcesses := workerProcesses g; errorLog := errorLog g;
     pid := pid g; g_customDirectives := t |}.
Definition set_user (g : GlobalConfig) (u : string) : GlobalConfig :=
  {| user := u; workerProcesses := workerProcesses g; errorLog := errorLog g;
     pid := pid g; g_customDirectives := g_customDirectives g |}.
Definition set_workerProcesses (g : GlobalConfig) (w : string) : GlobalConfig :=
  {| user := user g; workerProcesses := w; errorLog := errorLog g;
     pid := pid g; g_customDirectives := g_customDirectives g |}.

Definition set_h_custom (h : HttpConfig) (t : string) : HttpConfig :=
  {| sendfile := sendfile h; tcpNopush := tcpNopush h; tcpNodelay := tcpNodelay h;
     keepaliveTimeout := keepaliveTimeout h; typesHashMaxSize := typesHashMaxSize h;
     includeMimeTypes := includeMimeTypes h; defaultType := defaultType h;
     logFormat := logFormat h; accessLog := accessLog h; gzip := gzip h;
     serverTokens := serverTokens h; clientMaxBodySize := clientMaxBodySize h;
     h_customDirectives := t |}.
Definition set_serverTokens (h : HttpConfig) (b : option bool) : HttpConfig :=
  {| sendfile := sendfile h; tcpNopush := tcpNopush h; tcpNodelay := tcpNodelay h;
     keepaliveTimeout := keepaliveTimeout h; typesHashMaxSize := typesHashMaxSize h;
     includeMimeTypes := includeMimeTypes h; defaultType := defaultType h;
     logFormat := logFormat h; accessLog := accessLog h; gzip := gzip h;
     serverTokens := b; clientMaxBodySize := clientMaxBodySize h;
     h_customDirectives := h_customDirectives h |}.
Definition set_gzip (h : HttpConfig) (g : GzipConfig) : HttpConfig :=
  {| sendfile := sendfile h; tcpNopush := tcpNopush h; tcpNodelay := tcpNodelay h;
     keepaliveTimeout := keepaliveTimeout h; typesHashMaxSize := typesHashMaxSize h;
     includeMimeTypes := includeMimeTypes h; defaultType := defaultType h;
     logFormat := logFormat h; accessLog := accessLog h; gzip := g;
     serverTokens := serverTokens h; clientMaxBodySize := clientMaxBodySize h;
     h_customDirectives := h_customDirectives h |}.
Definition set_sendfile (h : HttpConfig) (b : bool) : HttpConfig :=
  {| sendfile := b; tcpNopush := tcpNopush h; tcpNodelay := tcpNodelay h;
     keepaliveTimeout := keepaliveTimeout h; typesHashMaxSize := typesHashMaxSize h;
     includeMimeTypes := includeMimeTypes h; defaultType := defaultType h;
     logFormat := logFormat h; accessLog := accessLog h; gzip := gzip h;
     serverTokens := serverTokens h; clientMaxBodySize := clientMaxBodySize h;
     h_customDirectives := h_customDirectives h |}.
Definition set_tcpNodelay (h : HttpConfig) (b : bool) : HttpConfig :=
  {| sendfile := sendfile h; tcpNopush := tcpNopush h; tcpNodelay := b;
     keepaliveTimeout := keepaliveTimeout h; typesHashMaxSize := typesHashMaxSize h;
     includeMimeTypes := includeMimeTypes h; defaultType := defaultType h;
     logFormat := logFormat h; accessLog := accessLog h; gzip := gzip h;
     serverTokens := serverTokens h; clientMaxBodySize := clientMaxBodySize h;
     h_customDirectives := h_customDirectives h |}.
Definition set_keepaliveTimeout (h : HttpConfig) (z : Z) : HttpConfig :=
  {| sendfile := sendfile h; tcpNopush := tcpNopush h; tcpNodelay := tcpNodelay h;
     keepaliveTimeout := z; typesHashMaxSize := typesHashMaxSize h;
     includeMimeTypes := includeMimeTypes h; defaultType := defaultType h;
     logFormat := logFormat h; accessLog := accessLog h; gzip := gzip h;
     serverTokens := serverTokens h; clientMaxBodySize := clientMaxBodySize h;
     h_customDirectives := h_customDirectives h |}.

Definition set_s_custom (s : ServerConfig) (t : string) : ServerConfig :=
  {| s_id := s_id s; s_name := s_name s; listen := listen s; serverName := serverName s;
     ssl := ssl s; root := root s; index := index s; s_customDirectives := t |}.
Definition set_ssl (s : ServerConfig) (x : SSLConfig) : ServerConfig :=
  {| s_id := s_id s; s_name := s_name s; listen := listen s; serverName := serverName s;
     ssl := x; root := root s; index := index s;
     s_customDirectives := s_customDirectives s |}.

Definition set_l_custom (l : LocationConfig) (t : string) : LocationConfig :=
  {| l_id := l_id l; serverId := serverId l; modifier := modifier l; path := path l;
     proxyPass := proxyPass l; upstreamId := upstreamId l; headers := headers l;
     cors := cors l; websocket := websocket l; alias := alias l; tryFiles := tryFiles l;
     returnCode := returnCode l; returnUrl := returnUrl l; rewrite := rewrite l;
     accessControl := accessControl l; l_customDirectives := t |}.

Definition set_global (c : NginxConfig) (g : GlobalConfig) : NginxConfig :=
  {| global := g; events := events c; http := http c; upstreams := upstreams c;
     servers := servers c; locations := locations c; rawConfig := rawConfig c |}.
Definition set_http (c : NginxConfig) (h : HttpConfig) : NginxConfig :=
  {| global := global c; events := events c; http := h; upstreams := upstreams c;
     servers := servers c; locations := locations c; rawConfig := rawConfig c |}.
Definition set_servers (c : NginxConfig) (l : list ServerConfig) : NginxConfig :=
  {| global := global c; events := events c; http := http c; upstreams := upstreams c;
     servers := l; locations := locations c; rawConfig := rawConfig c |}.
Definition set_locations (c : NginxConfig) (l : list LocationConfig) : NginxConfig :=
  {| global := global c; events := events c; http := http c; upstreams := upstreams c;
     servers := servers c; locations := l; rawConfig := rawConfig c |}.

(** The outcome of code that may throw. *)
Inductive completion (A : Type) : Type :=
| Normal : A -> completion A
| Throw : string -> completion A.
Arguments Normal {A} _.
Arguments Throw {A} _.

(* ================================================================== *)
(** * The parser's [listen] directive ([utils/nginxParser.ts]) *)
(* ================================================================== *)

Module Parser.






End Parser.

(* ================================================================== *)
(** * The location matcher ([utils/locationMatcher]) *)
(* ================================================================== *)

Module Matcher.

Inductive MatchPriority : Type :=
| PExact | PPrefixPriority | PRegex | PPrefix | PNone.

(** The result of a match.  The two display strings of the source
    ([priorityLabel], [matchReason]) are functions of [priority] and of the
    matched location and are left out. *)
Record MatchResult : Type := {
  matchedLocation : option LocationConfig;
  priority : MatchPriority
}.

Section WithRegExp.
(** The host's regular expression engine: [new RegExp(source, flags)]
    throws on a pattern that does not compile. *)
Variable regexp : Type.
Variable RegExp_new : string -> string -> completion regexp.
Variable RegExp_test : regexp -> string -> bool.

(** Step 1: the loop that returns at the first exact match. *)
Fixpoint exactLoop (requestPath : string) (locs : list LocationConfig)
  : option LocationConfig :=
  match locs with
  | [] => None
  | loc :: rest =>
      if Modifier_eqb (modifier loc) ModExact && String.eqb (path loc) requestPath
      then Some loc
      else exactLoop requestPath rest
  end.

(** Step 2: one turn of the loop over the prefix locations; the state is
    [(bestPrefixNode, bestPrefixLength)]. *)
Definition prefixStep (requestPath : string)
    (st : option LocationConfig * nat) (loc : LocationConfig)
  : option LocationConfig * nat :=
  if Modifier_eqb (modifier loc) ModNone || Modifier_eqb (modifier loc) ModPrefixPriority
  then
    if Js.startsWith requestPath (path loc)
    then
      if snd st <? String.length (path loc)
      then (Some loc, String.length (path loc))
      else st
    else st
  else st.

Definition bestPrefix (requestPath : string) (locs : list LocationConfig)
  : option LocationConfig * nat :=
  fold_left (prefixStep requestPath) locs (None, 0).

(** Step 4: the loop over the regex locations.  The second component is
    what [console.warn] printed, oldest first. *)
Fixpoint regexLoop (requestPath : string) (locs : list LocationConfig)
  : option LocationConfig * list string :=
  match locs with
  | [] => (None, [])
  | loc :: rest =>
      if Modifier_eqb (modifier loc) ModRegex || Modifier_eqb (modifier loc) ModRegexI
      then
        let flags := if Modifier_eqb (modifier loc) ModRegexI then "i" else "" in
        (* try { ... } catch (e) { console.warn(...); continue; } *)
        match RegExp_new (path loc) flags with
        | Normal regex =>
            if RegExp_test regex requestPath
            then (Some loc, [])
            else regexLoop requestPath rest
        | Throw e =>
            let (r, log) := regexLoop requestPath rest in
            (r, ("Invalid regex pattern: " ++ path loc)%string :: log)
        end
      else regexLoop requestPath rest
  end.

(** [matchLocation(requestPath, locations)]: the result and the console
    output.  Nothing outside the [try] block can throw. *)
Definition matchLocation (requestPath : string) (locs : list LocationConfig)
  : completion (MatchResult * list string) :=
  match exactLoop requestPath locs with
  | Some loc => Normal ({| matchedLocation := Some loc; priority := PExact |}, [])
  | None =>
      let (bestPrefixNode, bestPrefixLength) := bestPrefix requestPath locs in
      match bestPrefixNode with
      | Some b =>
          if Modifier_eqb (modifier b) ModPrefixPriority
          then Normal ({| matchedLocation := Some b; priority := PPrefixPriority |}, [])
          else
            match regexLoop requestPath locs with
            | (Some loc, log) =>
                Normal ({| matchedLocation := Some loc; priority := PRegex |}, log)
            | (None, log) =>
                Normal ({| matchedLocation := Some b; priority := PPrefix |}, log)
            end
      | None =>
          match regexLoop requestPath locs with
          | (Some loc, log) =>
              Normal ({| matchedLocation := Some loc; priority := PRegex |}, log)
          | (None, log) =>
              Normal ({| matchedLocation := None; priority := PNone |}, log)
          end
      end
  end.
End WithRegExp.


End Matcher.

(* ================================================================== *)
(** * The directive cleaner ([utils/configCleaner]) *)
(* ================================================================== *)

Module ConfigCleaner.

(** The tail every removal pattern shares: [\s+[^;]+;?\s*$]. *)
Definition re_valueTail : Re.re :=
  Re.Seq (Re.Plus Re.space)
    (Re.Seq (Re.Plus Re.notSemi)
       (Re.Seq (Re.Opt (Re.Lit ";"))
          (Re.Seq (Re.Star Re.space) Re.Eol))).

(** [^\s*KEY\s+[^;]+;?\s*$], the shape of every entry of
    [DIRECTIVE_PATTERNS] and of the generic pattern.  [escapeRegex] makes
    the key match literally, which is what [Re.Str] does. *)
Definition re_directive (key : string) : Re.re :=
  Re.Seq Re.Bol (Re.Seq (Re.Star Re.space) (Re.Seq (Re.Str key) re_valueTail)).

(** The keys of the table [DIRECTIVE_PATTERNS]; their patterns carry the
    flags [gm]. *)
Definition DIRECTIVE_KEYS : list string :=
  [ "user"; "worker_processes"; "error_log"; "pid";
    "autoindex"; "server_tokens";
    "ssl_protocols"; "ssl_ciphers"; "ssl_prefer_server_ciphers";
    "ssl_certificate"; "ssl_certificate_key";
    "sendfile"; "tcp_nopush"; "tcp_nodelay"; "keepalive_timeout";
    "client_max_body_size";
    "gzip"; "gzip_comp_level"; "gzip_min_length"; "gzip_types";
    "root"; "index"; "try_files"; "alias";
    "proxy_pass"; "proxy_http_version";
    "return"; "rewrite" ].

(** [DIRECTIVE_PATTERNS[directiveName]], for the table's own keys. *)
Definition DIRECTIVE_PATTERNS (directiveName : string) : option Re.re :=
  if existsb (String.eqb directiveName) DIRECTIVE_KEYS
  then Some (re_directive directiveName) else None.

(** The table is an object literal, so the lookup also finds the
    properties of [Object.prototype].  Their values are functions, and the
    prototype object itself for [__proto__]: all truthy, none a pattern.
    [String.prototype.replace] turns such a value into its text and replaces
    the first occurrence of that text.  The text of a built-in function is
    left to the engine; this is the text V8 gives. *)
Definition nativeFunction (name : string) : string :=
  ("function " ++ name ++ "() { [native code] }")%string.

Definition INHERITED : list (string * string) :=
  [ ("constructor", nativeFunction "Object");
    ("__defineGetter__", nativeFunction "__defineGetter__");
    ("__defineSetter__", nativeFunction "__defineSetter__");
    ("hasOwnProperty", nativeFunction "hasOwnProperty");
    ("__lookupGetter__", nativeFunction "__lookupGetter__");
    ("__lookupSetter__", nativeFunction "__lookupSetter__");
    ("isPrototypeOf", nativeFunction "isPrototypeOf");
    ("propertyIsEnumerable", nativeFunction "propertyIsEnumerable");
    ("toString", nativeFunction "toString");
    ("valueOf", nativeFunction "valueOf");
    ("__proto__", "[object Object]");
    ("toLocaleString", nativeFunction "toLocaleString") ].

Fixpoint assoc (key : string) (l : list (string * string)) : option string :=
  match l with
  | [] => None
  | (k, v) :: rest => if String.eqb key k then Some v else assoc key rest
  end.

Definition inherited (directiveName : string) : option string :=
  assoc directiveName INHERITED.

(** [createAddHeaderPattern]: [^\s*add_header\s+Q?NAME Q?\s+[^;]+;?\s*$]
    where [Q] is a quote character; flags [gim]. *)
Definition createAddHeaderPattern (headerName : string) : Re.re :=
  Re.Seq Re.Bol (Re.Seq (Re.Star Re.space) (Re.Seq (Re.Str "add_header")
    (Re.Seq (Re.Plus Re.space) (Re.Seq (Re.Opt (Re.Cls Re.quote))
       (Re.Seq (Re.Str headerName) (Re.Seq (Re.Opt (Re.Cls Re.quote)) re_valueTail)))))).

(** [createProxySetHeaderPattern]: [^\s*proxy_set_header\s+NAME\s+[^;]+;?\s*$];
    flags [gim]. *)
Definition createProxySetHeaderPattern (headerName : string) : Re.re :=
  Re.Seq Re.Bol (Re.Seq (Re.Star Re.space) (Re.Seq (Re.Str "proxy_set_header")
    (Re.Seq (Re.Plus Re.space) (Re.Seq (Re.Str headerName) re_valueTail)))).

Definition nonBlank (line : string) : bool := negb (Js.isEmpty (Js.trim line)).

(** The [filter] callback of [cleanAndFormat], with [prev] the element of
    the array before the current one ([None] at index 0). *)
Fixpoint filterLines (prev : option string) (lines : list string) : list string :=
  match lines with
  | [] => []
  | line :: rest =>
      let keep :=
        if nonBlank line then true
        else match prev with
             | None => false
             | Some p => nonBlank p
             end in
      (if keep then [line] else []) ++ filterLines (Some line) rest
  end.

Definition cleanAndFormat (text : string) : string :=
  Js.trim (Js.join (String Js.LF EmptyString) (filterLines None (Js.split Js.LF text))).

Definition removeDirective (text : string) (directiveName : string) : string :=
  if Js.isEmpty (Js.trim text) then EmptyString
  else if Js.startsWith directiveName "add_header " then
    let headerName := Js.trim (Js.replaceFirst "add_header " EmptyString directiveName) in
    cleanAndFormat (Re.replace Re.gim (createAddHeaderPattern headerName) EmptyString text)
  else if Js.startsWith directiveName "proxy_set_header " then
    let headerName := Js.trim (Js.replaceFirst "proxy_set_header " EmptyString directiveName) in
    cleanAndFormat (Re.replace Re.gim (createProxySetHeaderPattern headerName) EmptyString text)
  else
    match DIRECTIVE_PATTERNS directiveName with
    | Some pattern => cleanAndFormat (Re.replace Re.gm pattern EmptyString text)
    | None =>
        match inherited directiveName with
        | Some searchString =>
            cleanAndFormat (Js.replaceFirst searchString EmptyString text)
        | None =>
            cleanAndFormat
              (Re.replace Re.gim (re_directive directiveName) EmptyString text)
        end
    end.

Definition removeDirectives (text : string) (directiveNames : list string) : string :=
  fold_left removeDirective directiveNames text.

(** [^\s*return\s+(301|302|307|308)\s+], flag [m]. *)
Definition re_redirect : Re.re :=
  Re.Seq Re.Bol (Re.Seq (Re.Star Re.space) (Re.Seq (Re.Str "return")
    (Re.Seq (Re.Plus Re.space)
       (Re.Seq (Re.Alt (Re.Str "301") (Re.Alt (Re.Str "302")
                  (Re.Alt (Re.Str "307") (Re.Str "308"))))
          (Re.Plus Re.space))))).

Definition isRedirectServer (server : ServerConfig) : bool :=
  Re.test Re.fm re_redirect (s_customDirectives server).

Definition smartAddDirective (existingText newDirective directiveName : string) : string :=
  let cleaned := removeDirective existingText directiveName in
  if negb (Js.isEmpty (Js.trim cleaned))
  then (cleaned ++ String Js.LF EmptyString ++ newDirective)%string
  else newDirective.

Definition smartAddHeader (existingText headerName headerValue : string) (always : bool)
  : string :=
  let alwaysSuffix := if always then " always" else "" in
  let newDirective :=
    ("add_header " ++ headerName ++ " " ++ String Js.DQUOTE EmptyString ++ headerValue
       ++ String Js.DQUOTE EmptyString ++ alwaysSuffix ++ ";")%string in
  smartAddDirective existingText newDirective ("add_header " ++ headerName)%string.

End ConfigCleaner.

(* ================================================================== *)
(** * The destructive repair service ([services/AutoFixService.ts]) *)
(* ================================================================== *)

Module AutoFixService.

Inductive CleanKey : Type := KUser | KServerTokens | KSslProtocols | KAutoindex.

Definition CleanKey_eqb (a b : CleanKey) : bool :=
  match a, b with
  | KUser, KUser | KServerTokens, KServerTokens
  | KSslProtocols, KSslProtocols | KAutoindex, KAutoindex => true
  | _, _ => false
  end.

Definition keyText (k : CleanKey) : string :=
  match k with
  | KUser => "user"
  | KServerTokens => "server_tokens"
  | KSslProtocols => "ssl_protocols"
  | KAutoindex => "autoindex"
  end.

Definition getPortAsString (server : ServerConfig) : string :=
  Js.String_of_Z (port (listen server)).

(** [^\s*KEY\s+[^;]+;?(\r?\n)?], flags [gm].  The key stands for itself:
    the source puts it into the pattern as it is, so this is the source's
    pattern for a key without pattern syntax, as the four keys of
    [CleanKey] are. *)
Definition re_clean (key : string) : Re.re :=
  Re.Seq Re.Bol (Re.Seq (Re.Star Re.space) (Re.Seq (Re.Str key)
    (Re.Seq (Re.Plus Re.space) (Re.Seq (Re.Plus Re.notSemi)
       (Re.Seq (Re.Opt (Re.Lit ";"))
          (Re.Opt (Re.Seq (Re.Opt (Re.Cls Re.isCR)) (Re.Cls Re.isLF)))))))).

(** [\n{3,}], flag [g]. *)
Definition re_blankRun : Re.re :=
  Re.Seq (Re.Cls Re.isLF) (Re.Seq (Re.Cls Re.isLF) (Re.Plus Re.isLF)).

(** [cleanRegex(text, key)], for a key without pattern syntax; a key with
    pattern syntax changes the pattern and can make [new RegExp] throw in
    the source. *)
Definition cleanRegex (text : string) (key : string) : string :=
  if Js.isEmpty text || Js.isEmpty (Js.trim text) then EmptyString
  else
    Js.trim
      (Re.replace Re.plain re_blankRun (String Js.LF (String Js.LF EmptyString))
         (Re.replace Re.gm (re_clean key) EmptyString text)).

Definition includesKey (targets : list CleanKey) (k : CleanKey) : bool :=
  existsb (CleanKey_eqb k) targets.

Definition cleanDirectives (configText : string) (targets : list CleanKey) : string :=
  let t0 := configText in
  let t1 := if includesKey targets KUser then cleanRegex t0 (keyText KUser) else t0 in
  let t2 := if includesKey targets KServerTokens
            then cleanRegex t1 (keyText KServerTokens) else t1 in
  let t3 := if includesKey targets KSslProtocols
            then cleanRegex t2 (keyText KSslProtocols) else t2 in
  if includesKey targets KAutoindex then cleanRegex t3 (keyText KAutoindex) else t3.

Definition REDIRECT_DIRECTIVE : string := "return 301 https://$host$request_uri;".

Definition convertToPureRedirectHttpServer (server : ServerConfig) (name : string)
  : ServerConfig :=
  {| s_id := s_id server;
     s_name := (name ++ " (HTTP Redirect)")%string;
     listen := {| port := 80; http2 := false; defaultServer := false |};
     serverName := name;
     ssl := {| enabled := false; forceRedirect := false; certificate := EmptyString;
               certificateKey := EmptyString; protocols := []; ciphers := EmptyString |};
     root := EmptyString;
     index := [];
     s_customDirectives := REDIRECT_DIRECTIVE |}.

(** [config.servers.find(...)] of [findHttpNode]. *)
Definition findHttpNode (config : NginxConfig) (name : string) (excludeServerId : string)
  : option ServerConfig :=
  find (fun s => negb (String.eqb (s_id s) excludeServerId)
                 && String.eqb (getPortAsString s) "80"
                 && String.eqb (serverName s) name)
       (servers config).

Definition fixRootUser (config : NginxConfig) : NginxConfig :=
  let cleaned := cleanDirectives (g_customDirectives (global config)) [KUser] in
  set_global config (set_user (set_g_custom (global config) cleaned) "nginx").

Definition fixServerTokens (config : NginxConfig) : NginxConfig :=
  {| global := set_g_custom (global config)
                 (cleanDirectives (g_customDirectives (global config)) [KServerTokens]);
     events := events config;
     http := set_h_custom (set_serverTokens (http config) (Some false))
               (cleanDirectives (h_customDirectives (http config)) [KServerTokens]);
     upstreams := upstreams config;
     servers := map (fun s => set_s_custom s
                         (cleanDirectives (s_customDirectives s) [KServerTokens]))
                    (servers config);
     locations := locations config;
     rawConfig := rawConfig config |}.

Definition SAFE_PROTOCOLS : list string := ["TLSv1.2"; "TLSv1.3"].

Definition fixSslProtocols (config : NginxConfig) : NginxConfig :=
  set_servers config
    (map (fun s =>
            if negb (enabled (ssl s)) then s
            else
              set_s_custom
                (set_ssl s {| enabled := enabled (ssl s); certificate := certificate (ssl s);
                              certificateKey := certificateKey (ssl s);
                              protocols := SAFE_PROTOCOLS;
                              ciphers := ciphers (ssl s);
                              forceRedirect := forceRedirect (ssl s) |})
                (cleanDirectives (s_customDirectives s) [KSslProtocols]))
         (servers config)).

Definition fixAutoindex (config : NginxConfig) : NginxConfig :=
  set_locations
    (set_servers config
       (map (fun s => set_s_custom s (cleanDirectives (s_customDirectives s) [KAutoindex]))
            (servers config)))
    (map (fun l => set_l_custom l (cleanDirectives (l_customDirectives l) [KAutoindex]))
         (locations config)).

(** Step 4 of [applyForceHttps]: the spread that turns the redirect flag of
    the HTTPS server off. *)
Definition keepHttps (s : ServerConfig) : ServerConfig :=
  set_ssl s {| enabled := true; certificate := certificate (ssl s);
               certificateKey := certificateKey (ssl s); protocols := protocols (ssl s);
               ciphers := ciphers (ssl s); forceRedirect := false |}.

Section WithUuid.
(** [uuid n] is what the [n]-th call of [uuidv4] returns. *)
Variable uuid : nat -> string.

(** [applyForceHttps(config, httpsServerId)] with the identifier counter;
    the console output is left out. *)
Definition applyForceHttps (config : NginxConfig) (httpsServerId : string) (n : nat)
  : NginxConfig * nat :=
  match find (fun s => String.eqb (s_id s) httpsServerId) (servers config) with
  | None => (config, n)
  | Some httpsServer =>
      let name := serverName httpsServer in
      let '(nextServers, nextLocations, n') :=
        match findHttpNode config name httpsServerId with
        | Some existingHttp =>
            let locs1 :=
              filter (fun l => negb (String.eqb (serverId l) (s_id existingHttp)))
                     (locations config) in
            let servers1 :=
              map (fun s => if String.eqb (s_id s) (s_id existingHttp)
                            then convertToPureRedirectHttpServer s name else s)
                  (servers config) in
            let redirectId := s_id existingHttp in
            let extraHttpServers :=
              filter (fun s => negb (String.eqb (s_id s) redirectId)
                               && String.eqb (getPortAsString s) "80"
                               && String.eqb (serverName s) name)
                     servers1 in
            if 0 <? List.length extraHttpServers
            then
              let extraIds := map s_id extraHttpServers in
              (filter (fun s => negb (existsb (String.eqb (s_id s)) extraIds)) servers1,
               filter (fun l => negb (existsb (String.eqb (serverId l)) extraIds)) locs1,
               n)
            else (servers1, locs1, n)
        | None =>
            let redirectServer :=
              convertToPureRedirectHttpServer
                {| s_id := uuid n;
                   s_name := (name ++ " (HTTP Redirect)")%string;
                   listen := {| port := 80; defaultServer := false; http2 := false |};
                   serverName := name;
                   ssl := {| enabled := false; forceRedirect := false; protocols := [];
                             ciphers := EmptyString; certificate := EmptyString;
                             certificateKey := EmptyString |};
                   root := EmptyString;
                   index := [];
                   s_customDirectives := EmptyString |}
                name in
            (servers config ++ [redirectServer], locations config, S n)
        end in
      let nextServers' :=
        map (fun s => if String.eqb (s_id s) httpsServerId then keepHttps s else s)
            nextServers in
      (set_locations (set_servers config nextServers') nextLocations, n')
  end.

(** One turn of the loop [for (const s of current.servers)]: [s] is an
    element of the array the loop started on. *)
Definition forceStep (st : NginxConfig * nat * list string) (s : ServerConfig)
  : NginxConfig * nat * list string :=
  let '(current, n, warnings) := st in
  if enabled (ssl s) && forceRedirect (ssl s)
  then
    let (current', n') := applyForceHttps current (s_id s) n in
    (current', n', warnings ++ [serverName s])
  else st.

(** [AutoFixService.applyAllFixes]; a warning is recorded by the server
    name it mentions. *)
Definition applyAllFixes (config : NginxConfig) (n : nat)
  : NginxConfig * nat * list string :=
  let current := fixSslProtocols (fixAutoindex (fixServerTokens (fixRootUser config))) in
  fold_left forceStep (servers current) (current, n, []).
End WithUuid.

End AutoFixService.

(* ================================================================== *)
(** * The audit engine ([services/auditService]) *)
(* ================================================================== *)

Module Audit.

Inductive AuditSeverity : Type := critical | warning | info.
Inductive AuditCategory : Type := security | performance | config.
Inductive NodeType : Type :=
| NGlobal | NHttp | NEvents | NServer | NLocation | NUpstream.

Definition AuditSeverity_eqb (a b : AuditSeverity) : bool :=
  match a, b with
  | critical, critical | warning, warning | info, info => true
  | _, _ => false
  end.

(** An issue.  The display strings of the source (titles, descriptions and
    fix labels, in two languages) play no part in the engine and are left
    out. *)
Record AuditIssue : Type := {
  i_id : string;
  ruleId : string;
  severity : AuditSeverity;
  category : AuditCategory;
  affectedNodeId : option string;
  affectedNodeType : option NodeType;
  canAutoFix : bool
}.

(** Modelled from the spec: [isRedirectServer] of [utils/configGenerator],
    which is not among the sources.  A server is a redirect server when its
    passthrough text matches the redirect-statement pattern
    [return 30{1,2,7,8} ...]; the private [ConfigCleaner.isRedirectServer]
    tests the same pattern. *)
Definition isRedirectServer (server : ServerConfig) : bool :=
  Re.test Re.fm ConfigCleaner.re_redirect (s_customDirectives server).

Definition serverNeedsSecurityHeaders (server : ServerConfig) : bool :=
  negb (isRedirectServer server).

(** [add_header\s+Q?NAME Q?\s+] where [Q] is a quote character; flag [i]. *)
Definition re_hasAddHeader (headerName : string) : Re.re :=
  Re.Seq (Re.Str "add_header") (Re.Seq (Re.Plus Re.space)
    (Re.Seq (Re.Opt (Re.Cls Re.quote)) (Re.Seq (Re.Str headerName)
       (Re.Seq (Re.Opt (Re.Cls Re.quote)) (Re.Plus Re.space))))).

Definition hasAddHeader (customDirectives headerName : string) : bool :=
  Re.test Re.fi (re_hasAddHeader headerName) customDirectives.

Section WithUuid.
Variable uuid : nat -> string.

(** A rule: [check] and [fix] draw identifiers from the counter. *)
Record AuditRule : Type := {
  r_id : string;
  r_severity : AuditSeverity;
  r_category : AuditCategory;
  check : NginxConfig -> nat -> list AuditIssue * nat;
  fix_ : option (NginxConfig -> string -> nat -> PartialConfig * nat)
}.

Definition mkIssue (rule : string) (sev : AuditSeverity) (cat : AuditCategory)
    (node : option string) (ty : NodeType) (auto : bool) (n : nat) : AuditIssue :=
  {| i_id := uuid n; ruleId := rule; severity := sev; category := cat;
     affectedNodeId := node; affectedNodeType := Some ty; canAutoFix := auto |}.

(** [xs.forEach(x => { if (...) issues.push({ id: uuidv4(), ... }) })]:
    [flagged x] is the pushed issue, still waiting for its identifier. *)
Fixpoint forEachPush {A : Type} (flagged : A -> option (nat -> AuditIssue))
    (xs : list A) (n : nat) : list AuditIssue * nat :=
  match xs with
  | [] => ([], n)
  | x :: rest =>
      match flagged x with
      | Some mk =>
          let (issues, n') := forEachPush flagged rest (S n) in
          (mk n :: issues, n')
      | None => forEachPush flagged rest n
      end
  end.

(** A check of a global setting: one issue or none. *)
Definition checkOne (flag : bool) (mk : nat -> AuditIssue) (n : nat)
  : list AuditIssue * nat :=
  if flag then ([mk n], S n) else ([], n).

(* ---------------- Rule 1: server tokens ---------------- *)
Definition rule_server_tokens : AuditRule :=
  {| r_id := "security-server-tokens"; r_severity := critical; r_category := security;
     check := fun config =>
       checkOne (negb match serverTokens (http config) with
                      | Some false => true | _ => false end)
                (mkIssue "security-server-tokens" critical security None NHttp true);
     fix_ := Some (fun config _ n =>
       ({| p_global := None; p_events := None;
           p_http := Some (set_h_custom (set_serverTokens (http config) (Some false))
                      (ConfigCleaner.removeDirective (h_customDirectives (http config))
                         "server_tokens"));
           p_upstreams := None; p_servers := None; p_locations := None;
           p_rawConfig := None |}, n)) |}.

(* ---------------- Rule 2: hidden files ---------------- *)
Definition HIDDEN_COMMENT : string :=
  "# 拦截所有隐藏文件访问（.git, .env 等）".

Definition newHiddenLocation (id : string) (affected : string) : LocationConfig :=
  {| l_id := id; serverId := affected; modifier := ModRegex; path := "/\.";
     proxyPass := EmptyString; upstreamId := None; headers := [];
     cors := {| cors_enabled := false; allowOrigin := EmptyString; allowMethods := [];
                allowHeaders := []; allowCredentials := false |};
     websocket := false; alias := EmptyString; tryFiles := EmptyString;
     returnCode := Some 403%Z; returnUrl := EmptyString; rewrite := None;
     accessControl := {| allow := []; deny := [];
                         authBasic := {| ab_enabled := false; realm := EmptyString;
                                         userFile := EmptyString |} |};
     l_customDirectives := HIDDEN_COMMENT |}.

Definition rule_hidden_files : AuditRule :=
  {| r_id := "security-hidden-files"; r_severity := critical; r_category := security;
     check := fun config =>
       forEachPush (fun server =>
         if isRedirectServer server then None
         else
           let serverLocations :=
             filter (fun l => String.eqb (serverId l) (s_id server)) (locations config) in
           let hasHiddenFileRule :=
             existsb (fun l => Js.includes (path l) "\." || Js.includes (path l) "/\."
                               || String.eqb (path l) "~ /\.") serverLocations in
           if negb hasHiddenFileRule && (0 <? List.length serverLocations)
           then Some (mkIssue "security-hidden-files" critical security
                        (Some (s_id server)) NServer true)
           else None) (servers config);
     fix_ := Some (fun config affected n =>
       if Js.isEmpty affected then (emptyPartial, n)
       else
         match find (fun l => String.eqb (serverId l) affected
                              && (Js.includes (path l) "\." || String.eqb (path l) "~ /\."))
                    (locations config) with
         | Some _ => (emptyPartial, n)
         | None =>
             ({| p_global := None; p_events := None; p_http := None; p_upstreams := None;
                 p_servers := None;
                 p_locations := Some (locations config ++ [newHiddenLocation (uuid n) affected]);
                 p_rawConfig := None |}, S n)
         end) |}.

(* ---------------- Rules 3-5: security headers ---------------- *)
(** The [fix] the three header rules share, up to the header. *)
Definition headerFix (headerName headerValue : string)
    (config : NginxConfig) (affected : string) (n : nat) : PartialConfig * nat :=
  if Js.isEmpty affected then (emptyPartial, n)
  else
    match find (fun s => String.eqb (s_id s) affected) (servers config) with
    | Some server =>
        if negb (serverNeedsSecurityHeaders server) then (emptyPartial, n)
        else
          ({| p_global := None; p_events := None; p_http := None; p_upstreams := None;
              p_servers := Some (map (fun s =>
                 if String.eqb (s_id s) affected
                 then set_s_custom s
                        (ConfigCleaner.smartAddHeader (s_customDirectives s)
                           headerName headerValue true)
                 else s) (servers config));
              p_locations := None; p_rawConfig := None |}, n)
    | None =>
        ({| p_global := None; p_events := None; p_http := None; p_upstreams := None;
            p_servers := Some (map (fun s =>
               if String.eqb (s_id s) affected
               then set_s_custom s
                      (ConfigCleaner.smartAddHeader (s_customDirectives s)
                         headerName headerValue true)
               else s) (servers config));
            p_locations := None; p_rawConfig := None |}, n)
    end.

Definition rule_x_frame_options : AuditRule :=
  {| r_id := "security-x-frame-options"; r_severity := warning; r_category := security;
     check := fun config =>
       forEachPush (fun server =>
         if negb (serverNeedsSecurityHeaders server) then None
         else if negb (hasAddHeader (s_customDirectives server) "X-Frame-Options")
         then Some (mkIssue "security-x-frame-options" warning security
                      (Some (s_id server)) NServer true)
         else None) (servers config);
     fix_ := Some (headerFix "X-Frame-Options" "SAMEORIGIN") |}.

Definition rule_x_content_type : AuditRule :=
  {| r_id := "security-x-content-type"; r_severity := warning; r_category := security;
     check := fun config =>
       forEachPush (fun server =>
         if negb (serverNeedsSecurityHeaders server) then None
         else if negb (hasAddHeader (s_customDirectives server) "X-Content-Type-Options")
         then Some (mkIssue "security-x-content-type" warning security
                      (Some (s_id server)) NServer true)
         else None) (servers config);
     fix_ := Some (headerFix "X-Content-Type-Options" "nosniff") |}.

Definition rule_hsts : AuditRule :=
  {| r_id := "security-hsts"; r_severity := critical; r_category := security;
     check := fun config =>
       forEachPush (fun server =>
         if negb (serverNeedsSecurityHeaders server) then None
         else if enabled (ssl server) && Z.eqb (port (listen server)) 443
         then
           if negb (hasAddHeader (s_customDirectives server) "Strict-Transport-Security")
           then Some (mkIssue "security-hsts" critical security
                        (Some (s_id server)) NServer true)
           else None
         else None) (servers config);
     fix_ := Some (headerFix "Strict-Transport-Security"
                    "max-age=31536000; includeSubDomains") |}.

(* ---------------- Rules 6-10: performance ---------------- *)
Definition httpFix (h : HttpConfig) : PartialConfig :=
  {| p_global := None; p_events := None; p_http := Some h; p_upstreams := None;
     p_servers := None; p_locations := None; p_rawConfig := None |}.

Definition GZIP_DEFAULT_TYPES : list string :=
  [ "text/plain"; "text/css"; "application/json"; "application/javascript";
    "text/xml"; "application/xml"; "image/svg+xml" ].

Definition rule_gzip : AuditRule :=
  {| r_id := "perf-gzip"; r_severity := warning; r_category := performance;
     check := fun config =>
       checkOne (negb (gz_enabled (gzip (http config))))
                (mkIssue "perf-gzip" warning performance None NHttp true);
     fix_ := Some (fun config _ n =>
       let g := gzip (http config) in
       (httpFix
          (set_h_custom
             (set_gzip (http config)
                {| gz_enabled := true;
                   gz_types := if 0 <? List.length (gz_types g) then gz_types g
                               else GZIP_DEFAULT_TYPES;
                   gz_compLevel := if Z.eqb (gz_compLevel g) 0 then 6%Z else gz_compLevel g;
                   gz_minLength := gz_minLength g |})
             (ConfigCleaner.removeDirectives (h_customDirectives (http config))
                ["gzip"; "gzip_comp_level"; "gzip_types"; "gzip_min_length"])), n)) |}.

Definition rule_sendfile : AuditRule :=
  {| r_id := "perf-sendfile"; r_severity := info; r_category := performance;
     check := fun config =>
       checkOne (negb (sendfile (http config)))
                (mkIssue "perf-sendfile" info performance None NHttp true);
     fix_ := Some (fun config _ n =>
       (httpFix (set_h_custom (set_sendfile (http config) true)
                   (ConfigCleaner.removeDirective (h_customDirectives (http config))
                      "sendfile")), n)) |}.

Definition rule_tcp_nodelay : AuditRule :=
  {| r_id := "perf-tcp-nodelay"; r_severity := info; r_category := performance;
     check := fun config =>
       checkOne (negb (tcpNodelay (http config)))
                (mkIssue "perf-tcp-nodelay" info performance None NHttp true);
     fix_ := Some (fun config _ n =>
       (httpFix (set_h_custom (set_tcpNodelay (http config) true)
                   (ConfigCleaner.removeDirective (h_customDirectives (http config))
                      "tcp_nodelay")), n)) |}.

Definition rule_worker_processes : AuditRule :=
  {| r_id := "perf-worker-processes"; r_severity := info; r_category := performance;
     check := fun config =>
       checkOne (negb (String.eqb (workerProcesses (global config)) "auto"))
                (mkIssue "perf-worker-processes" info performance None NGlobal true);
     fix_ := Some (fun config _ n =>
       ({| p_global := Some (set_g_custom (set_workerProcesses (global config) "auto")
                      (ConfigCleaner.removeDirective (g_customDirectives (global config))
                         "worker_processes"));
           p_events := None; p_http := None; p_upstreams := None; p_servers := None;
           p_locations := None; p_rawConfig := None |}, n)) |}.

Definition rule_keepalive : AuditRule :=
  {| r_id := "perf-keepalive"; r_severity := info; r_category := performance;
     check := fun config =>
       checkOne (Z.ltb (keepaliveTimeout (http config)) 60)
                (mkIssue "perf-keepalive" info performance None NHttp true);
     fix_ := Some (fun config _ n =>
       (httpFix (set_h_custom (set_keepaliveTimeout (http config) 65)
                   (ConfigCleaner.removeDirective (h_customDirectives (http config))
                      "keepalive_timeout")), n)) |}.

(* ---------------- Rules 11-12: configuration logic ---------------- *)
Definition rule_empty_upstream : AuditRule :=
  {| r_id := "config-empty-upstream"; r_severity := critical; r_category := config;
     check := fun cfg =>
       forEachPush (fun upstream =>
         if List.length (u_servers upstream) =? 0
         then Some (mkIssue "config-empty-upstream" critical config
                      (Some (u_id upstream)) NUpstream false)
         else None) (upstreams cfg);
     fix_ := None |}.

Definition rule_missing_server_name : AuditRule :=
  {| r_id := "config-missing-server-name"; r_severity := warning; r_category := config;
     check := fun cfg =>
       forEachPush (fun server =>
         if Js.isEmpty (serverName server) || String.eqb (serverName server) ""
            || String.eqb (serverName server) "_"
         then Some (mkIssue "config-missing-server-name" warning config
                      (Some (s_id server)) NServer false)
         else None) (servers cfg);
     fix_ := None |}.

Definition auditRules : list AuditRule :=
  [ rule_server_tokens; rule_hidden_files; rule_x_frame_options; rule_x_content_type;
    rule_hsts; rule_gzip; rule_sendfile; rule_tcp_nodelay; rule_worker_processes;
    rule_keepalive; rule_empty_upstream; rule_missing_server_name ].

(* ---------------- The audit runner ---------------- *)
Record AuditResult : Type := {
  score : Z;
  grade : string;
  issues : list AuditIssue;
  passedRules : nat;
  totalRules : nat
}.

(** The loop [auditRules.forEach(rule => ...)] of [runAudit]: the state is
    [(issues, passedRules)] and the identifier counter. *)
Fixpoint runRules (rules : list AuditRule) (cfg : NginxConfig)
    (acc : list AuditIssue) (passed : nat) (n : nat)
  : list AuditIssue * nat * nat :=
  match rules with
  | [] => (acc, passed, n)
  | rule :: rest =>
      let (ruleIssues, n') := check rule cfg n in
      if List.length ruleIssues =? 0
      then runRules rest cfg acc (S passed) n'
      else runRules rest cfg (acc ++ ruleIssues) passed n'
  end.

Definition severityOrder (s : AuditSeverity) : Z :=
  match s with critical => 0 | warning => 1 | info => 2 end.

(** [issues.sort((a, b) => severityOrder[a.severity] - severityOrder[b.severity])].
    [Array.prototype.sort] is a stable sort; it is modelled by insertion
    from the right, which places an element before the first element that
    the comparator does not put before it. *)
Fixpoint sortInsert (cmp : AuditIssue -> AuditIssue -> Z) (x : AuditIssue)
    (l : list AuditIssue) : list AuditIssue :=
  match l with
  | [] => [x]
  | y :: t => if (cmp x y <=? 0)%Z then x :: y :: t else y :: sortInsert cmp x t
  end.

Definition sort (cmp : AuditIssue -> AuditIssue -> Z) (l : list AuditIssue)
  : list AuditIssue :=
  fold_right (sortInsert cmp) [] l.

Definition bySeverity (a b : AuditIssue) : Z :=
  (severityOrder (severity a) - severityOrder (severity b))%Z.

Definition countSeverity (s : AuditSeverity) (l : list AuditIssue) : Z :=
  Z.of_nat (List.length (filter (fun i => AuditSeverity_eqb (severity i) s) l)).

Definition gradeOf (sc : Z) : string :=
  if (90 <=? sc)%Z then "A"
  else if (75 <=? sc)%Z then "B"
  else if (60 <=? sc)%Z then "C"
  else if (40 <=? sc)%Z then "D"
  else "F".

Definition runAudit (cfg : NginxConfig) (n : nat) : AuditResult * nat :=
  let '(collected, passed, n') := runRules auditRules cfg [] 0 n in
  let sorted := sort bySeverity collected in
  let criticalCount := countSeverity critical sorted in
  let warningCount := countSeverity warning sorted in
  let infoCount := countSeverity info sorted in
  let sc := Z.max 0 (100 - criticalCount * 20 - warningCount * 10 - infoCount * 3)%Z in
  ({| score := sc; grade := gradeOf sc; issues := sorted; passedRules := passed;
      totalRules := List.length auditRules |}, n').

Definition findRule (id : string) : option AuditRule :=
  find (fun r => String.eqb (r_id r) id) auditRules.

(** [applyFix(config, ruleId, affectedNodeId)]: [None] is [null]; an
    absent or [null] node identifier becomes the empty string. *)
Definition applyFix (cfg : NginxConfig) (rule : string) (affected : option string)
    (n : nat) : option PartialConfig * nat :=
  match findRule rule with
  | None => (None, n)
  | Some r =>
      match fix_ r with
      | None => (None, n)
      | Some f =>
          let (p, n') := f cfg (orElse affected EmptyString) n in
          (Some p, n')
      end
  end.

(* ---------------- The fix engine ---------------- *)
(** The state of the loops of [applyAllFixes]. *)
Record FixState : Type := {
  currentConfig : NginxConfig;
  hasChanges : bool;
  iterations : nat;
  counter : nat
}.

(** One turn of [for (const issue of currentIssues.issues)]. *)
Definition fixIssue (st : FixState) (issue : AuditIssue) : FixState :=
  if negb (canAutoFix issue) then st
  else
    match findRule (ruleId issue) with
    | None => st
    | Some rule =>
        match fix_ rule with
        | None => st
        | Some f =>
            let (p, n') := f (currentConfig st)
                             (orElse (affectedNodeId issue) EmptyString) (counter st) in
            if 0 <? keysLength p
            then {| currentConfig := merge (currentConfig st) p; hasChanges := true;
                    iterations := iterations st; counter := n' |}
            else {| currentConfig := currentConfig st; hasChanges := hasChanges st;
                    iterations := iterations st; counter := n' |}
        end
    end.

Definition maxIterations : nat := 10.

(** [while (hasChanges && iterations < maxIterations)], with [budget] the
    number of iterations the cap still allows. *)
Fixpoint fixLoop (budget : nat) (st : FixState) : FixState :=
  match budget with
  | O => st
  | S budget' =>
      if hasChanges st
      then
        let (audit, n') := runAudit (currentConfig st) (counter st) in
        let st0 := {| currentConfig := currentConfig st; hasChanges := false;
                      iterations := S (iterations st); counter := n' |} in
        fixLoop budget' (fold_left fixIssue (issues audit) st0)
      else st
  end.

(** [applyAllFixes(config)]: the final loop state; the returned config is
    [currentConfig]. *)
Definition applyAllFixesState (cfg : NginxConfig) (n : nat) : FixState :=
  let '(cleaned, n', _) := AutoFixService.applyAllFixes uuid cfg n in
  fixLoop maxIterations
    {| currentConfig := cleaned; hasChanges := true; iterations := 0; counter := n' |}.

Definition applyAllFixes (cfg : NginxConfig) (n : nat) : NginxConfig :=
  currentConfig (applyAllFixesState cfg n).
End WithUuid.

End Audit.

(* ================================================================== *)
(** * Specification-level definitions and sample data *)
(* ================================================================== *)

Module Spec.

(** The specification's reading of [runAudit]: every rule's [check] is
    executed, in rule order, and the issues are concatenated. *)
Fixpoint concatChecks (uuid : nat -> string) (rules : list (Audit.AuditRule))
    (cfg : NginxConfig) (n : nat) : list Audit.AuditIssue :=
  match rules with
  | [] => []
  | rule :: rest =>
      let (found, n') := Audit.check rule cfg n in
      found ++ concatChecks uuid rest cfg n'
  end.

Definition ofSeverity (s : Audit.AuditSeverity) (l : list Audit.AuditIssue)
  : list Audit.AuditIssue :=
  filter (fun i => Audit.AuditSeverity_eqb (Audit.severity i) s) l.

Section WithRegExp.
Variable regexp : Type.
Variable RegExp_new : string -> string -> completion regexp.
Variable RegExp_test : regexp -> string -> bool.

(** The specification's test of one location against a request path. *)
Definition locationMatches (requestPath : string) (loc : LocationConfig) : bool :=
  match modifier loc with
  | ModExact => String.eqb (path loc) requestPath
  | ModNone | ModPrefixPriority => Js.startsWith requestPath (path loc)
  | ModRegex =>
      match RegExp_new (path loc) "" with
      | Normal r => RegExp_test r requestPath
      | Throw _ => false
      end
  | ModRegexI =>
      match RegExp_new (path loc) "i" with
      | Normal r => RegExp_test r requestPath
      | Throw _ => false
      end
  end.


Definition isRegexLocation (loc : LocationConfig) : bool :=
  Modifier_eqb (modifier loc) ModRegex || Modifier_eqb (modifier loc) ModRegexI.

Definition isPrefixLocation (loc : LocationConfig) : bool :=
  Modifier_eqb (modifier loc) ModNone || Modifier_eqb (modifier loc) ModPrefixPriority.

(** Tier 1: the first exact location for the path. *)
Definition firstExact (requestPath : string) (locs : list LocationConfig)
  : option LocationConfig :=
  find (fun loc => Modifier_eqb (modifier loc) ModExact
                   && String.eqb (path loc) requestPath) locs.

(** Tier 4: the first regex location whose pattern compiles and tests
    true. *)
Definition firstRegex (requestPath : string) (locs : list LocationConfig)
  : option LocationConfig :=
  find (fun loc => isRegexLocation loc && locationMatches requestPath loc) locs.

(** The prefix candidates: prefix locations whose path starts the
    request path. *)
Definition prefixCandidates (requestPath : string) (locs : list LocationConfig)
  : list LocationConfig :=
  filter (fun loc => isPrefixLocation loc && Js.startsWith requestPath (path loc)) locs.

(** Tier 2: the candidate with the longest path, the first of them when
    several have that length. *)
Fixpoint longestFirst (cands : list LocationConfig) : option LocationConfig :=
  match cands with
  | [] => None
  | c :: rest =>
      match longestFirst rest with
      | Some b => if String.length (path c) <? String.length (path b)
                  then Some b else Some c
      | None => Some c
      end
  end.
End WithRegExp.

(** The order of the five tiers, given the exact match, the best prefix
    candidate and the first regex match. *)
Definition tiers (exact best regex : option LocationConfig) : Matcher.MatchResult :=
  match exact with
  | Some loc => {| Matcher.matchedLocation := Some loc; Matcher.priority := Matcher.PExact |}
  | None =>
      match best with
      | Some b =>
          if Modifier_eqb (modifier b) ModPrefixPriority
          then {| Matcher.matchedLocation := Some b;
                  Matcher.priority := Matcher.PPrefixPriority |}
          else
            match regex with
            | Some loc => {| Matcher.matchedLocation := Some loc;
                             Matcher.priority := Matcher.PRegex |}
            | None => {| Matcher.matchedLocation := Some b;
                         Matcher.priority := Matcher.PPrefix |}
            end
      | None =>
          match regex with
          | Some loc => {| Matcher.matchedLocation := Some loc;
                           Matcher.priority := Matcher.PRegex |}
          | None => {| Matcher.matchedLocation := None; Matcher.priority := Matcher.PNone |}
          end
      end
  end.









(** The rules whose fix targets a node, the header rules among them, and
    the rules whose fix rewrites a global block. *)
Definition nodeRules : list string :=
  [ "security-hidden-files"; "security-x-frame-options"; "security-x-content-type";
    "security-hsts" ].
Definition headerRules : list string :=
  [ "security-x-frame-options"; "security-x-content-type"; "security-hsts" ].
Definition globalRules : list string :=
  [ "security-server-tokens"; "perf-gzip"; "perf-sendfile"; "perf-tcp-nodelay";
    "perf-worker-processes"; "perf-keepalive" ].

(** The two structured values that the fix engine overwrites on every
    call. *)
Definition hardened (cfg : NginxConfig) : Prop :=
  user (global cfg) = "nginx" /\ serverTokens (http cfg) = Some false.

End Spec.

(* ================================================================== *)
(** * The shape of a directive match

    The removal pattern [^\s*KEY\s+[^;]+;?\s*$], read as a recogniser: one
    function for each state of the pattern, telling whether the rest of the
    pattern can be matched from the given input.  The real matcher is
    related to these functions in [ShapeFacts]. *)
(* ================================================================== *)

Module Shape.

Definition lastChar (prev : option ascii) (s : string) : option ascii :=
  fold_left (fun _ c => Some c) (list_ascii_of_string s) prev.

Definition isLT (c : ascii) : bool := Js.is_line_terminator c.

(** A directive word: not empty, no white space, no semicolon. *)
Definition wordChar (c : ascii) : bool := negb (Js.is_space c) && negb (Ascii.eqb c ";").

Fixpoint allChars (p : ascii -> bool) (s : string) : bool :=
  match s with
  | EmptyString => true
  | String c t => p c && allChars p t
  end.

Definition isWord (key : string) : bool := negb (Js.isEmpty key) && allChars wordChar key.

(** [C*] followed by a state [g], and [C+] followed by [g]. *)
Fixpoint starB (p : ascii -> bool) (g : string -> bool) (u : string) : bool :=
  g u ||
  match u with
  | String c t => p c && starB p g t
  | EmptyString => false
  end.

Definition plusB (p : ascii -> bool) (g : string -> bool) (u : string) : bool :=
  match u with
  | String c t => p c && starB p g t
  | EmptyString => false
  end.

Definition lineSpace (c : ascii) : bool := Js.is_space c && negb (isLT c).
Definition notLT (c : ascii) : bool := negb (isLT c).

Section Pattern.
Variable f : Re.flags.
Variable key : string.

(** [\s*$] *)
Definition spacesThenEol : string -> bool := starB Js.is_space (Re.at_eol f).

(** [;?\s*$] *)
Definition tailOK (u : string) : bool :=
  match u with
  | String c t => (Ascii.eqb c ";" && spacesThenEol t) || spacesThenEol u
  | EmptyString => spacesThenEol u
  end.

(** [[^;]+;?\s*$], and the same after the first character of [[^;]+]. *)
Definition nStar : string -> bool := starB Re.notSemi tailOK.
Definition nPlus : string -> bool := plusB Re.notSemi tailOK.

(** [\s+[^;]+;?\s*$], and the same after the first character of [\s+]. *)
Definition sStar : string -> bool := starB Js.is_space nPlus.
Definition sPlus : string -> bool := plusB Js.is_space nPlus.

(** The rest [k] of the key, then the value. *)
Fixpoint keyAt (k : string) (u : string) : bool :=
  match k with
  | EmptyString => sPlus u
  | String a k' =>
      match u with
      | String c t => Re.char_eq f a c && keyAt k' t
      | EmptyString => false
      end
  end.

(** [\s*KEY...]: white space, then the key. *)
Definition wStar : string -> bool := starB Js.is_space (keyAt key).

(** The same, with no line terminator among the leading white space: the
    match starts on the line of its key. *)
Definition wStarC : string -> bool := starB lineSpace (keyAt key).

(** A match of the pattern starts at a position whose previous character
    is [prev] and whose remaining input is [u]. *)
Definition matchB (prev : option ascii) (u : string) : bool :=
  Re.at_bol f prev && wStar u.

Definition canonB (prev : option ascii) (u : string) : bool :=
  Re.at_bol f prev && wStarC u.

(** No match starts inside [s], when [s] stands after a character [prev]
    and in front of [rest]. *)
Fixpoint cleanPrefix (prev : option ascii) (s rest : string) : Prop :=
  match s with
  | EmptyString => True
  | String c t => canonB prev (s ++ rest) = false /\ cleanPrefix (Some c) t rest
  end.

(** No match of the real matcher starts anywhere in [s]. *)
Fixpoint noMatch (prev : option ascii) (s : string) : Prop :=
  Re.exec f (ConfigCleaner.re_directive key) prev s = None /\
  match s with
  | EmptyString => True
  | String c t => noMatch (Some c) t
  end.
End Pattern.

(** [weaker u v]: every state of the pattern that accepts [u] accepts [v]. *)
Definition weaker (f : Re.flags) (key : string) (u v : string) : Prop :=
  (spacesThenEol f u = true -> spacesThenEol f v = true)
  /\ (tailOK f u = true -> tailOK f v = true)
  /\ (nStar f u = true -> nStar f v = true)
  /\ (nPlus f u = true -> nPlus f v = true)
  /\ (sStar f u = true -> sStar f v = true)
  /\ (forall k, allChars wordChar k = true -> keyAt f k u = true -> keyAt f k v = true)
  /\ (wStarC f key u = true -> wStarC f key v = true).

(** The text with the matches of the key's pattern removed, from a position
    on. *)
Definition removed (f : Re.flags) (key : string) (prev : option ascii) (s : string)
  : string :=
  Re.replace_go f (ConfigCleaner.re_directive key) EmptyString 0 prev s.

(** The least number of characters a match of [r] takes. *)
Fixpoint minLen (r : Re.re) : nat :=
  match r with
  | Re.Eps | Re.Star _ | Re.Bol | Re.Eol => 0
  | Re.Lit _ | Re.Cls _ => 1
  | Re.Seq a b => minLen a + minLen b
  | Re.Alt a b => Nat.min (minLen a) (minLen b)
  end.

(** A successful match of [r] takes a prefix of the input, of at least
    [minLen r] characters, and hands the rest to its continuation. *)
Definition consumes (A : Type) (f : Re.flags) (r : Re.re) : Prop :=
  forall (k : Re.cont A) prev s x,
    Re.m f r k prev s = Some x ->
    exists pre rest,
      s = (pre ++ rest)%string /\ minLen r <= String.length pre
      /\ k (lastChar prev pre) rest = Some x.

(** Lines and white space. *)
Definition allSpace : string -> bool := allChars Js.is_space.
Definition noLF (l : string) : bool := allChars (fun c => negb (Ascii.eqb c Js.LF)) l.
Definition nl : string := String Js.LF EmptyString.

(** The lines after the first one, each with the line feed in front. *)
Fixpoint tailText (ls : list string) : string :=
  match ls with
  | [] => EmptyString
  | l :: rest => (nl ++ l ++ tailText rest)%string
  end.

Definition joinL (ls : list string) : string := Js.join nl ls.

(** Was the line before the current one a line with text? *)
Definition pnb (prev : option string) : bool :=
  match prev with Some p => ConfigCleaner.nonBlank p | None => false end.

(** Trimming the end of a text, line by line. *)
Fixpoint trimEndLines (ls : list string) : list string :=
  match ls with
  | [] => []
  | l :: rest =>
      match trimEndLines rest with
      | [] => if allSpace l then [] else [Js.trimEnd l]
      | kept => l :: kept
      end
  end.

End Shape.

(* ================================================================== *)
(** * Sample data *)
(* ================================================================== *)

Module Sample.

Definition nl : string := String Js.LF EmptyString.

(** An identifier supply. *)
Definition uuid (n : nat) : string := ("uuid-" ++ Js.String_of_Z (Z.of_nat n))%string.

(** A regular expression engine that knows the pattern of the
    specification's example, [\.(png|jpg)$], and rejects every other
    source as a syntax error. *)
Definition re_image : Re.re :=
  Re.Seq (Re.Lit ".")
    (Re.Seq (Re.Alt (Re.Str "png") (Re.Str "jpg")) Re.Eol).

Definition RegExp_new (source flags : string) : completion (Re.flags * Re.re) :=
  if String.eqb source "\.(png|jpg)$"
  then Normal ({| Re.ignoreCase := String.eqb flags "i"; Re.multiline := false |}, re_image)
  else Throw "SyntaxError: Invalid regular expression".

Definition RegExp_test (r : Re.flags * Re.re) (s : string) : bool :=
  Re.test (fst r) (snd r) s.

Definition loc (id : string) (m : Modifier) (p : string) : LocationConfig :=
  {| l_id := id; serverId := "s1"; modifier := m; path := p;
     proxyPass := EmptyString; upstreamId := None; headers := [];
     cors := {| cors_enabled := false; allowOrigin := "*"; allowMethods := [];
                allowHeaders := []; allowCredentials := false |};
     websocket := false; alias := EmptyString; tryFiles := EmptyString;
     returnCode := None; returnUrl := EmptyString; rewrite := None;
     accessControl := {| allow := []; deny := [];
                         authBasic := {| ab_enabled := false; realm := "Restricted";
                                         userFile := "/etc/nginx/.htpasswd" |} |};
     l_customDirectives := EmptyString |}.

(** The locations of the specification's matching examples. *)
Definition specLocations : list LocationConfig :=
  [ loc "l1" ModExact "/health"; loc "l2" ModPrefixPriority "/static/";
    loc "l3" ModRegexI "\.(png|jpg)$"; loc "l4" ModNone "/" ].


(** A prefix location with the empty path; the parser builds it from
    [location "" { }]. *)
Definition emptyPathLocation : LocationConfig := loc "l5" ModNone "".

Definition globalWith (u custom : string) : GlobalConfig :=
  {| user := u; workerProcesses := "auto";
     errorLog := {| el_path := "/var/log/nginx/error.log"; el_level := "warn" |};
     pid := "/run/nginx.pid"; g_customDirectives := custom |}.

Definition eventsDefault : EventsConfig :=
  {| workerConnections := 1024; use := "epoll"; multiAccept := true;
     e_customDirectives := EmptyString |}.

(** [server_tokens] unset and gzip disabled. *)
Definition httpUnfixed : HttpConfig :=
  {| sendfile := true; tcpNopush := true; tcpNodelay := true; keepaliveTimeout := 65;
     typesHashMaxSize := 2048; includeMimeTypes := true;
     defaultType := "application/octet-stream";
     logFormat := ("main", "$remote_addr - $remote_user");
     accessLog := ("/var/log/nginx/access.log", "main");
     gzip := {| gz_enabled := false; gz_types := []; gz_compLevel := 6;
                gz_minLength := 1024 |};
     serverTokens := None; clientMaxBodySize := "10m";
     h_customDirectives := EmptyString |}.

Definition sslWith (on : bool) : SSLConfig :=
  {| enabled := on; certificate := "/etc/nginx/ssl/cert.pem";
     certificateKey := "/etc/nginx/ssl/key.pem"; protocols := ["TLSv1"; "TLSv1.1"];
     ciphers := "HIGH:!aNULL"; forceRedirect := true |}.

Definition server (id : string) (p : Z) (tls : bool) : ServerConfig :=
  {| s_id := id; s_name := "New Server";
     listen := {| port := p; defaultServer := false; http2 := false |};
     serverName := "example.com"; ssl := sslWith tls;
     root := "/var/www/html"; index := ["index.html"; "index.htm"];
     s_customDirectives := EmptyString |}.

Definition configWith (g : GlobalConfig) (ss : list ServerConfig)
    (ls : list LocationConfig) : NginxConfig :=
  {| global := g; events := eventsDefault; http := httpUnfixed; upstreams := [];
     servers := ss; locations := ls; rawConfig := None |}.

(** The scenario of the specification's convergence property: one TLS
    server with [forceRedirect], no server on port 80. *)
Definition cleanScenario : NginxConfig :=
  configWith (globalWith "nginx" EmptyString) [server "s1" 443 true] [].

(** The same scenario, with two [user] directives on one line of the
    global passthrough text. *)
Definition twoUsersScenario : NginxConfig :=
  configWith (globalWith "root" "user root; user www-data;") [server "s1" 443 true] [].

(** A TLS server that still listens on port 80 (a default server whose TLS
    switch was turned on) next to a plain port-80 server of the same
    name. *)
Definition tlsOnPort80 : NginxConfig :=
  configWith (globalWith "nginx" EmptyString)
    [server "S" 80 true; server "T" 80 false]
    [loc "a" ModNone "/"].

(** Two TLS servers of one name with [forceRedirect], one of them on
    port 80. *)
Definition twoTlsServers : NginxConfig :=
  configWith (globalWith "nginx" EmptyString)
    [server "S1" 443 true; server "S2" 80 true] [].

(** The hijack scenario of the specification: a port-80 server with two
    locations and a TLS server of the same name. *)
Definition hijackScenario : NginxConfig :=
  {| global := globalWith "nginx" EmptyString; events := eventsDefault;
     http := httpUnfixed; upstreams := [];
     servers := [server "T" 80 false; server "S" 443 true];
     locations := [ {| l_id := "a"; serverId := "T"; modifier := ModNone; path := "/";
                       proxyPass := EmptyString; upstreamId := None; headers := [];
                       cors := cors (loc "a" ModNone "/"); websocket := false;
                       alias := EmptyString; tryFiles := EmptyString; returnCode := None;
                       returnUrl := EmptyString; rewrite := None;
                       accessControl := accessControl (loc "a" ModNone "/");
                       l_customDirectives := EmptyString |};
                    {| l_id := "b"; serverId := "T"; modifier := ModNone; path := "/api";
                       proxyPass := EmptyString; upstreamId := None; headers := [];
                       cors := cors (loc "a" ModNone "/"); websocket := false;
                       alias := EmptyString; tryFiles := EmptyString; returnCode := None;
                       returnUrl := EmptyString; rewrite := None;
                       accessControl := accessControl (loc "a" ModNone "/");
                       l_customDirectives := EmptyString |} ];
     rawConfig := None |}.

(** A text with a dangling [add_header] line, then the header
    [X-Frame-Options], then a line that starts with the name of the header;
    and the key that the fix of the X-Frame-Options rule passes to the
    cleaner. *)
Definition danglingHeaderText : string :=
  ("add_header" ++ nl ++ "add_header X-Frame-Options DENY;" ++ nl
     ++ "X-Frame-Options z;")%string.
Definition headerKey : string := "add_header X-Frame-Options".

(** A passthrough text with two protocol lines around another directive. *)
Definition protocolsText : string :=
  ("ssl_protocols TLSv1 TLSv1.1;" ++ nl ++ "  keepalive_timeout 65;" ++ nl
   ++ nl ++ nl ++ "ssl_protocols SSLv3;" ++ nl)%string.

(** What the scenarios look at in a server. *)
Definition summary (s : ServerConfig)
  : string * Z * bool * bool * list string * string :=
  (s_id s, port (listen s), enabled (ssl s), forceRedirect (ssl s), protocols (ssl s),
   s_customDirectives s).

End Sample.

(* ================================================================== *)
(** * Acceptance of a pattern

    What the matcher [Re.m] accepts, as a boolean function of the input:
    [accepts f r g prev u] holds when [r] matches a prefix of [u] and [g]
    accepts what follows. *)
(* ================================================================== *)

Module Accept.

Fixpoint starG (p : ascii -> bool) (g : option ascii -> string -> bool)
    (prev : option ascii) (u : string) : bool :=
  g prev u ||
  match u with
  | String c t => p c && starG p g (Some c) t
  | EmptyString => false
  end.

Fixpoint accepts (f : Re.flags) (r : Re.re) (g : option ascii -> string -> bool)
    (prev : option ascii) (u : string) : bool :=
  match r with
  | Re.Eps => g prev u
  | Re.Lit c =>
      match u with
      | String d t => Re.char_eq f c d && g (Some d) t
      | EmptyString => false
      end
  | Re.Cls p =>
      match u with
      | String d t => p d && g (Some d) t
      | EmptyString => false
      end
  | Re.Star p => starG p g prev u
  | Re.Seq a b => accepts f a (accepts f b g) prev u
  | Re.Alt a b => accepts f a g prev u || accepts f b g prev u
  | Re.Bol => Re.at_bol f prev && g prev u
  | Re.Eol => Re.at_eol f u && g prev u
  end.

Definition anything (_ : option ascii) (_ : string) : bool := true.

(** A match of [r] starts at the position with [prev] before and [u]
    after it. *)
Definition matchesAt (f : Re.flags) (r : Re.re) (prev : option ascii) (u : string) : bool :=
  accepts f r anything prev u.

End Accept.

(* ================================================================== *)
(** * The rest of the directive cleaner ([utils/configCleaner]) *)
(* ================================================================== *)

Module CleanerRules.
Import ConfigCleaner.

(** [^\s*KEY\s+VALUE\s*;?\s*$]: the shape of the tests for one directive
    with one value. *)
Definition re_setting (key value : string) : Re.re :=
  Re.Seq Re.Bol (Re.Seq (Re.Star Re.space) (Re.Seq (Re.Str key)
    (Re.Seq (Re.Plus Re.space) (Re.Seq (Re.Str value)
       (Re.Seq (Re.Star Re.space) (Re.Seq (Re.Opt (Re.Lit ";"))
          (Re.Seq (Re.Star Re.space) Re.Eol))))))).

(** The warnings of the cleaner; their texts are fixed messages, those of
    the server rules with the server name filled in. *)
Inductive Warning : Type :=
| RootUserRemoved : Warning
| AutoindexRemoved : string -> Warning.

Record RootFix : Type := { newDirectives : string; warning : option Warning }.

(** [ConfigCleaner.fixRootUser]; the empty warning is [None]. *)
Definition fixRootUser (globalCustomDirectives : string) : RootFix :=
  let hasRootUser := Re.test Re.gm (re_setting "user" "root") globalCustomDirectives in
  if negb hasRootUser
  then {| newDirectives := globalCustomDirectives; warning := None |}
  else {| newDirectives := removeDirective globalCustomDirectives "user";
          warning := Some RootUserRemoved |}.

(** [ConfigCleaner.forceUpgradeSSLProtocols] *)
Definition forceUpgradeSSLProtocols : list string := ["TLSv1.2"; "TLSv1.3"].

(** [ConfigCleaner.cleanHiddenFileProtection] *)
Definition cleanHiddenFileProtection (customDirectives : string) : string :=
  let hasDenyAll := Re.test Re.fm (re_setting "deny" "all") customDirectives in
  let hasReturn403 := Re.test Re.fm (re_setting "return" "403") customDirectives in
  if hasDenyAll && hasReturn403
  then removeDirective customDirectives "deny"
  else customDirectives.

End CleanerRules.

(* ================================================================== *)
(** * Notions the statements use *)
(* ================================================================== *)

Module Notions.

(** The flags of the pattern that [removeDirective] builds for a key that
    is a word: the table's patterns carry [gm], the generic one [gim]. *)
Definition flagsOf (directiveName : string) : Re.flags :=
  if existsb (String.eqb directiveName) ConfigCleaner.DIRECTIVE_KEYS
  then Re.gm else Re.gim.

(** A name of letters, digits, [-] and [_] only: as part of a pattern it
    stands for itself. *)
Definition nameChar (c : ascii) : bool :=
  let n := Js.code c in
  ((65 <=? n) && (n <=? 90)) || ((97 <=? n) && (n <=? 122))
  || ((48 <=? n) && (n <=? 57)) || (n =? 45) || (n =? 95).

Definition plainName (name : string) : bool :=
  negb (Js.isEmpty name) && Shape.allChars nameChar name.

End Notions.

Module MatchNotions.

(** A prefix location that the scan of [matchLocation] can keep: its
    path starts the request path and is not empty. *)
Definition keepable (requestPath : string) (loc : LocationConfig) : bool :=
  Spec.isPrefixLocation loc && Js.startsWith requestPath (path loc)
  && (0 <? String.length (path loc)).

(** The kind of match that goes with a modifier. *)
Definition priorityOf (m : Modifier) : list Matcher.MatchPriority :=
  match m with
  | ModExact => [Matcher.PExact]
  | ModPrefixPriority => [Matcher.PPrefixPriority]
  | ModRegex | ModRegexI => [Matcher.PRegex]
  | ModNone => [Matcher.PPrefix]
  end.

(** What the prefix scan holds after the locations [seen]: nothing, when
    none of them is keepable; otherwise the first of the keepable ones with
    the longest path, and the length of that path. *)
Definition scanned (requestPath : string) (seen : list LocationConfig)
    (st : option LocationConfig * nat) : Prop :=
  match fst st with
  | Some b =>
      snd st = String.length (path b)
      /\ exists before after,
           seen = before ++ b :: after
           /\ keepable requestPath b = true
           /\ (forall c, In c before -> keepable requestPath c = true ->
                 String.length (path c) < String.length (path b))
           /\ (forall c, In c after -> keepable requestPath c = true ->
                 String.length (path c) <= String.length (path b))
  | None =>
      snd st = 0 /\ forall c, In c seen -> keepable requestPath c = false
  end.

End MatchNotions.

Module BlankRuns.

(** The number of line feeds at the head of a text, and the text behind
    them. *)
Fixpoint lead (s : string) : nat :=
  match s with
  | String c t => if Ascii.eqb c Js.LF then S (lead t) else 0
  | EmptyString => 0
  end.

Fixpoint dropLead (s : string) : string :=
  match s with
  | String c t => if Ascii.eqb c Js.LF then dropLead t else s
  | EmptyString => EmptyString
  end.

(** Three line feeds in a row. *)
Definition tripleLF : string := String Js.LF (String Js.LF (String Js.LF EmptyString)).

End BlankRuns.

(* ================================================================== *)
(** * The lexer and the statement parser ([utils/nginxParser.ts]) *)
(* ================================================================== *)

Module Lexer.

Inductive TokenType : Type := WORD | SEMICOLON | LBRACE | RBRACE | NEWLINE | EOF.

Record Token : Type := {
  t_type : TokenType;
  t_value : string;
  t_line : nat;
  t_column : nat
}.

(** [new ParseError(message, line, column)] *)
Record ParseError : Type := {
  e_message : string;
  e_line : nat;
  e_column : nat
}.

Inductive outcome (A : Type) : Type :=
| Return : A -> outcome A
| Raise : ParseError -> outcome A.
Arguments Return {A} _.
Arguments Raise {A} _.

Definition BACKSLASH : ascii := ascii_of_nat 92.
Definition TAB : ascii := ascii_of_nat 9.

(** The test of a word character: no white space, semicolon, brace, quote
    character or hash sign. *)
Definition isWordChar (c : ascii) : bool :=
  negb (Js.is_space c || Ascii.eqb c ";" || Ascii.eqb c "{" || Ascii.eqb c "}"
        || Ascii.eqb c Js.SQUOTE || Ascii.eqb c Js.DQUOTE || Ascii.eqb c "#").

Definition isQuote (c : ascii) : bool := Ascii.eqb c Js.DQUOTE || Ascii.eqb c Js.SQUOTE.

(** Where the loop of [tokenize] stands: between tokens, inside a
    comment, inside a word or inside a quoted string; the last two with the
    column the token started at and the value read so far. *)
Inductive Mode : Type :=
| Top : Mode
| Comment : Mode
| Word : nat -> string -> Mode
| Quoted : ascii -> nat -> string -> Mode.

Definition push (t : Token) (r : outcome (list Token)) : outcome (list Token) :=
  match r with
  | Return l => Return (t :: l)
  | Raise e => Raise e
  end.

Definition snoc (s : string) (c : ascii) : string := (s ++ String c EmptyString)%string.

(** The loops of [tokenize], one character of the input at a time.  The
    inner loops of the source (comment, quoted string, word) are the modes;
    a character that ends a comment or a word is handled by the outer loop
    in the same turn. *)
Fixpoint scan (mode : Mode) (line column : nat) (input : string) : outcome (list Token) :=
  match input with
  | EmptyString =>
      match mode with
      | Top | Comment =>
          Return [{| t_type := EOF; t_value := EmptyString; t_line := line; t_column := column |}]
      | Word start v =>
          Return [{| t_type := WORD; t_value := v; t_line := line; t_column := start |};
                  {| t_type := EOF; t_value := EmptyString; t_line := line; t_column := column |}]
      | Quoted _ start _ =>
          Raise {| e_message := "Unterminated string"; e_line := line; e_column := start |}
      end
  | String c rest =>
      let outer :=
        if Ascii.eqb c " " || Ascii.eqb c TAB || Ascii.eqb c Js.CR
        then scan Top line (S column) rest
        else if Ascii.eqb c Js.LF then scan Top (S line) 1 rest
        else if Ascii.eqb c "#" then scan Comment line column rest
        else if Ascii.eqb c ";"
        then push {| t_type := SEMICOLON; t_value := ";"; t_line := line; t_column := column |}
                  (scan Top line (S column) rest)
        else if Ascii.eqb c "{"
        then push {| t_type := LBRACE; t_value := "{"; t_line := line; t_column := column |}
                  (scan Top line (S column) rest)
        else if Ascii.eqb c "}"
        then push {| t_type := RBRACE; t_value := "}"; t_line := line; t_column := column |}
                  (scan Top line (S column) rest)
        else if isQuote c then scan (Quoted c column EmptyString) line (S column) rest
        else if isWordChar c
        then scan (Word column (String c EmptyString)) line (S column) rest
        else Raise {| e_message := "Unexpected character: " ++ String c EmptyString;
                      e_line := line; e_column := column |} in
      match mode with
      | Top => outer
      | Comment => if Ascii.eqb c Js.LF then outer else scan Comment line column rest
      | Word start v =>
          if isWordChar c then scan (Word start (snoc v c)) line (S column) rest
          else push {| t_type := WORD; t_value := v; t_line := line; t_column := start |} outer
      | Quoted q start v =>
          if Ascii.eqb c q
          then push {| t_type := WORD; t_value := v; t_line := line; t_column := start |}
                    (scan Top line (S column) rest)
          else if Ascii.eqb c BACKSLASH
          then
            match rest with
            | String d rest' =>
                if Ascii.eqb d Js.LF
                then scan (Quoted q start (snoc v d)) (S line) 1 rest'
                else scan (Quoted q start (snoc v d)) line (S (S column)) rest'
            | EmptyString => scan (Quoted q start (snoc v c)) line (S column) rest
            end
          else if Ascii.eqb c Js.LF
          then scan (Quoted q start (snoc v c)) (S line) 1 rest
          else scan (Quoted q start (snoc v c)) line (S column) rest
      end
  end.

Definition tokenize (input : string) : outcome (list Token) := scan Top 1 1 input.

End Lexer.

Module LexNotions.
Import Lexer.

(** A token list that ends with its only [EOF] token and has no [NEWLINE]
    token. *)
Definition closed (toks : list Token) : Prop :=
  exists front last,
    toks = front ++ [last]
    /\ t_type last = EOF /\ t_value last = EmptyString
    /\ Forall (fun t => t_type t <> EOF /\ t_type t <> NEWLINE) front.

Fixpoint hasChar (p : ascii -> bool) (s : string) : bool :=
  match s with
  | EmptyString => false
  | String c t => p c || hasChar p t
  end.

(** White space that the lexer does not skip: a character of the class
    [\s] other than the space, the tab, CR and LF.  Among the 8-bit code
    units of the embedding these are the vertical tab, the form feed and
    the no-break space; the source's class has more of them beyond that
    range (U+FEFF, U+2028, U+2029, U+3000 and others). *)
Definition isStray (c : ascii) : bool :=
  Js.is_space c
  && negb (Ascii.eqb c " " || Ascii.eqb c TAB || Ascii.eqb c Js.CR || Ascii.eqb c Js.LF).

Definition inQuotes (mode : Mode) : bool :=
  match mode with Quoted _ _ _ => true | _ => false end.

(** The two ways the scan fails. *)
Definition failure (mode : Mode) (input : string) (e : ParseError) : Prop :=
  (e_message e = "Unterminated string"
   /\ (inQuotes mode || hasChar isQuote input) = true)
  \/ (exists c, e_message e = ("Unexpected character: " ++ String c EmptyString)%string
                /\ isStray c = true /\ hasChar (Ascii.eqb c) input = true).

(** The text that the converters of the parser write for a directive:
    the name, a space, the arguments with spaces between them, and a
    semicolon. *)
Definition directiveText (name : string) (args : list string) : string :=
  (name ++ " " ++ Js.join " " args ++ ";")%string.

Definition kindAndValue (t : Token) : TokenType * string := (t_type t, t_value t).

(** A word that needs no quotes. *)
Definition plainWord (w : string) : bool :=
  negb (Js.isEmpty w) && Shape.allChars isWordChar w.

End LexNotions.

(* ================================================================== *)
(** * The statement parser (class [Parser]) *)
(* ================================================================== *)

Module Syntax.
Import Lexer.

#[warnings="-register-all"]
Inductive ASTNode : Type :=
| Directive : string -> list string -> nat -> ASTNode            (* name, args, line *)
| Block : string -> list string -> list ASTNode -> nat -> ASTNode. (* name, args, children, line *)

(** The result of a run with a bound on the number of loop turns and
    calls: a value, a thrown [ParseError], or the bound was reached. *)
Inductive run (A : Type) : Type :=
| Done : A -> run A
| Fail : ParseError -> run A
| OutOfFuel : run A.
Arguments Done {A} _.
Arguments Fail {A} _.
Arguments OutOfFuel {A}.

Definition typeName (t : TokenType) : string :=
  match t with
  | WORD => "WORD" | SEMICOLON => "SEMICOLON" | LBRACE => "LBRACE"
  | RBRACE => "RBRACE" | NEWLINE => "NEWLINE" | EOF => "EOF"
  end.

(** [current()]: the token at the position, or an [EOF] token at line 0
    behind the end.  The parser's position is the list of tokens still to
    read. *)
Definition current (toks : list Token) : Token :=
  match toks with
  | t :: _ => t
  | [] => {| t_type := EOF; t_value := EmptyString; t_line := 0; t_column := 0 |}
  end.

(** [advance()] moves the position by one. *)
Definition advance (toks : list Token) : list Token := tl toks.

(** [while (this.current().type === 'WORD') args.push(this.advance().value)] *)
Fixpoint collectArgs (toks : list Token) : list string * list Token :=
  match toks with
  | t :: rest =>
      match t_type t with
      | WORD => let (args, rest') := collectArgs rest in (t_value t :: args, rest')
      | _ => ([], toks)
      end
  | [] => ([], toks)
  end.

Definition isEnd (t : TokenType) : bool :=
  match t with RBRACE | EOF => true | _ => false end.

(** [parseStatement()] and the loop over the children of a block. *)
Fixpoint parseStatement (fuel : nat) (toks : list Token)
  : run (option ASTNode * list Token) :=
  match fuel with
  | O => OutOfFuel
  | S fuel' =>
      let token := current toks in
      match t_type token with
      | RBRACE | EOF => Done (None, toks)
      | WORD =>
          let name := t_value token in
          let line := t_line token in
          let (args, toks2) := collectArgs (advance toks) in
          match t_type (current toks2) with
          | LBRACE =>
              match parseChildren fuel' (advance toks2) with
              | Done (children, toks3) =>
                  (* this.expect('RBRACE') *)
                  match t_type (current toks3) with
                  | RBRACE => Done (Some (Block name args children line), advance toks3)
                  | other =>
                      Fail {| e_message := "Expected RBRACE, got " ++ typeName other;
                              e_line := t_line (current toks3);
                              e_column := t_column (current toks3) |}
                  end
              | Fail e => Fail e
              | OutOfFuel => OutOfFuel
              end
          | SEMICOLON => Done (Some (Directive name args line), advance toks2)
          | other =>
              Fail {| e_message := "Expected ; or {, got " ++ typeName other;
                      e_line := t_line (current toks2);
                      e_column := t_column (current toks2) |}
          end
      | _ =>
          Fail {| e_message := "Unexpected token: " ++ t_value token;
                  e_line := t_line token; e_column := t_column token |}
      end
  end
with parseChildren (fuel : nat) (toks : list Token) : run (list ASTNode * list Token) :=
  match fuel with
  | O => OutOfFuel
  | S fuel' =>
      if isEnd (t_type (current toks)) then Done ([], toks)
      else
        match parseStatement fuel' toks with
        | Done (child, toks') =>
            match parseChildren fuel' toks' with
            | Done (children, toks'') =>
                Done (match child with
                      | Some node => node :: children
                      | None => children
                      end, toks'')
            | Fail e => Fail e
            | OutOfFuel => OutOfFuel
            end
        | Fail e => Fail e
        | OutOfFuel => OutOfFuel
        end
  end.

Definition isBlock (node : ASTNode) : bool :=
  match node with Block _ _ _ _ => true | Directive _ _ _ => false end.

(** [parseRoot()]: the directives and the blocks of the top level. *)
Fixpoint parseRoot (fuel : nat) (toks : list Token)
  : run (list ASTNode * list ASTNode) :=
  match fuel with
  | O => OutOfFuel
  | S fuel' =>
      match t_type (current toks) with
      | EOF => Done ([], [])
      | _ =>
          match parseStatement fuel' toks with
          | Done (node, toks') =>
              match parseRoot fuel' toks' with
              | Done (directives, blocks) =>
                  Done (match node with
                        | Some n =>
                            if isBlock n then (directives, n :: blocks)
                            else (n :: directives, blocks)
                        | None => (directives, blocks)
                        end)
              | Fail e => Fail e
              | OutOfFuel => OutOfFuel
              end
          | Fail e => Fail e
          | OutOfFuel => OutOfFuel
          end
      end
  end.

(** A closing brace at the top level: the first token, or the token
    after some complete statements. *)
Inductive strayBrace : list Token -> Prop :=
| stray_here : forall toks, t_type (current toks) = RBRACE -> strayBrace toks
| stray_later : forall fuel toks node toks',
    parseStatement fuel toks = Done (Some node, toks') ->
    strayBrace toks' -> strayBrace toks.

End Syntax.

(* ================================================================== *)
(** * The arguments of [location] and of an upstream [server]
      ([utils/nginxParser.ts]) *)
(* ================================================================== *)

Module Arguments.

(** [modifiers.includes(args[0])], with the modifier that the argument
    spells. *)
Definition modifierOf (arg : string) : option Modifier :=
  if String.eqb arg "=" then Some ModExact
  else if String.eqb arg "~" then Some ModRegex
  else if String.eqb arg "~*" then Some ModRegexI
  else if String.eqb arg "^~" then Some ModPrefixPriority
  else None.

(** [parseLocationModifier(args)] *)
Definition parseLocationModifier (args : list string) : Modifier * string :=
  match args with
  | [] => (ModNone, "/")
  | first :: rest =>
      match modifierOf first with
      | Some m =>
          (m, match rest with
              | second :: _ => if Js.isEmpty second then "/" else second
              | [] => "/"
              end)
      | None => (ModNone, first)
      end
  end.

(** The spelling of a modifier. *)
Definition modifierText (m : Modifier) : string :=
  match m with
  | ModNone => EmptyString
  | ModExact => "="
  | ModRegex => "~"
  | ModRegexI => "~*"
  | ModPrefixPriority => "^~"
  end.

(** [Partial<UpstreamServer>]: the address and the port are set when
    there is an argument. *)
Record PartialUpstreamServer : Type := {
  pu_id : string;
  pu_address : option string;
  pu_port : option Z;
  pu_weight : Z;
  pu_maxFails : Z;
  pu_failTimeout : Z;
  pu_backup : bool;
  pu_down : bool
}.

(** [n || d] for the result of [parseInt]: [NaN] and 0 are falsy. *)
Definition orDefault (n : Js.number) (d : Z) : Z :=
  match n with
  | Js.Int z => if Z.eqb z 0 then d else z
  | Js.NaN => d
  end.

(** [arg.split(sep)[1]], for an argument that contains the separator. *)
Definition secondPart (sep : ascii) (arg : string) : string :=
  nth 1 (Js.split sep arg) EmptyString.

(** One turn of the loop over the parameters. *)
Definition parameterStep (server : PartialUpstreamServer) (arg : string)
  : PartialUpstreamServer :=
  if Js.startsWith arg "weight=" then
    {| pu_id := pu_id server; pu_address := pu_address server; pu_port := pu_port server;
       pu_weight := orDefault (Js.parseInt (secondPart "=" arg)) 1;
       pu_maxFails := pu_maxFails server; pu_failTimeout := pu_failTimeout server;
       pu_backup := pu_backup server; pu_down := pu_down server |}
  else if Js.startsWith arg "max_fails=" then
    {| pu_id := pu_id server; pu_address := pu_address server; pu_port := pu_port server;
       pu_weight := pu_weight server;
       pu_maxFails := orDefault (Js.parseInt (secondPart "=" arg)) 3;
       pu_failTimeout := pu_failTimeout server;
       pu_backup := pu_backup server; pu_down := pu_down server |}
  else if Js.startsWith arg "fail_timeout=" then
    {| pu_id := pu_id server; pu_address := pu_address server; pu_port := pu_port server;
       pu_weight := pu_weight server; pu_maxFails := pu_maxFails server;
       pu_failTimeout :=
         orDefault (Js.parseInt (Js.replaceFirst "s" EmptyString (secondPart "=" arg))) 30;
       pu_backup := pu_backup server; pu_down := pu_down server |}
  else if String.eqb arg "backup" then
    {| pu_id := pu_id server; pu_address := pu_address server; pu_port := pu_port server;
       pu_weight := pu_weight server; pu_maxFails := pu_maxFails server;
       pu_failTimeout := pu_failTimeout server;
       pu_backup := true; pu_down := pu_down server |}
  else if String.eqb arg "down" then
    {| pu_id := pu_id server; pu_address := pu_address server; pu_port := pu_port server;
       pu_weight := pu_weight server; pu_maxFails := pu_maxFails server;
       pu_failTimeout := pu_failTimeout server;
       pu_backup := pu_backup server; pu_down := true |}
  else server.

Section WithUuid.
Variable uuid : nat -> string.

(** [parseUpstreamServer(args)], with the identifier counter. *)
Definition parseUpstreamServer (args : list string) (n : nat)
  : PartialUpstreamServer * nat :=
  let server :=
    {| pu_id := uuid n; pu_address := None; pu_port := None;
       pu_weight := 1; pu_maxFails := 3; pu_failTimeout := 30;
       pu_backup := false; pu_down := false |} in
  match args with
  | [] => (server, S n)
  | addrPort :: parameters =>
      let located :=
        if Js.includes addrPort ":" then
          {| pu_id := pu_id server;
             pu_address := Some (nth 0 (Js.split ":" addrPort) EmptyString);
             pu_port := Some (orDefault (Js.parseInt (secondPart ":" addrPort)) 80);
             pu_weight := pu_weight server; pu_maxFails := pu_maxFails server;
             pu_failTimeout := pu_failTimeout server;
             pu_backup := pu_backup server; pu_down := pu_down server |}
        else
          {| pu_id := pu_id server; pu_address := Some addrPort; pu_port := Some 80%Z;
             pu_weight := pu_weight server; pu_maxFails := pu_maxFails server;
             pu_failTimeout := pu_failTimeout server;
             pu_backup := pu_backup server; pu_down := pu_down server |} in
      (fold_left parameterStep parameters located, S n)
  end.
End WithUuid.

End Arguments.

(* ================================================================== *)
(** * Merging duplicate servers and the pre-cleaning of a config
      ([utils/configCleaner]) *)
(* ================================================================== *)

Module Merge.
Import CleanerRules.

(** The key of the grouping: the port, a colon, the server name. *)
Definition keyOf (server : ServerConfig) : string :=
  (Js.String_of_Z (port (listen server)) ++ ":" ++ serverName server)%string.

(** The [Map] from keys to groups, in the order the keys were inserted. *)
Fixpoint addToGroup (key : string) (server : ServerConfig)
    (serverMap : list (string * list ServerConfig)) : list (string * list ServerConfig) :=
  match serverMap with
  | [] => [(key, [server])]
  | (k, group) :: rest =>
      if String.eqb k key then (k, group ++ [server]) :: rest
      else (k, group) :: addToGroup key server rest
  end.

Definition groupServers (servers : list ServerConfig) : list (string * list ServerConfig) :=
  fold_left (fun serverMap server => addToGroup (keyOf server) server serverMap) servers [].

(** The reasons of the reports are fixed messages with the server name and
    the port of the key filled in. *)
Inductive Reason : Type :=
| DuplicateRedirect : string -> string -> Reason       (* server name, port *)
| RedirectAgainstNormal : string -> string -> Reason   (* server name, port *)
| MergeByHand : string -> string -> Reason.            (* port, server name *)

Record Merged : Type := { m_from : string; m_to : string; m_reason : Reason }.
Record Conflict : Type := { c_serverName : string; c_port : Js.number; c_reason : Reason }.

Record MergeResult : Type := {
  mr_servers : list ServerConfig;
  merged : list Merged;
  conflicts : list Conflict
}.

(** What one group adds to the three lists. *)
Definition mergeGroup (key : string) (group : list ServerConfig) : MergeResult :=
  match group with
  | [only] => {| mr_servers := [only]; merged := []; conflicts := [] |}
  | _ =>
      let keyPort := nth 0 (Js.split ":" key) EmptyString in
      let keyName := nth 1 (Js.split ":" key) EmptyString in
      let redirectServer := find ConfigCleaner.isRedirectServer group in
      let normalServers :=
        filter (fun s => negb (ConfigCleaner.isRedirectServer s)) group in
      match redirectServer with
      | Some redirect =>
          match normalServers with
          | [] =>
              {| mr_servers := [redirect];
                 merged := map (fun s => {| m_from := s_id s; m_to := s_id redirect;
                                            m_reason := DuplicateRedirect keyName keyPort |})
                               (tl group);
                 conflicts := [] |}
          | firstNormal :: _ =>
              {| mr_servers := normalServers;
                 merged := [{| m_from := s_id redirect; m_to := s_id firstNormal;
                               m_reason := RedirectAgainstNormal keyName keyPort |}];
                 conflicts := [] |}
          end
      | None =>
          {| mr_servers := firstn 1 group;
             merged := [];
             conflicts := map (fun _ => {| c_serverName := keyName;
                                            c_port := Js.parseInt keyPort;
                                            c_reason := MergeByHand keyPort keyName |})
                              (tl group) |}
      end
  end.

(** [ConfigCleaner.mergeDuplicateServers(servers)] *)
Definition mergeDuplicateServers (servers : list ServerConfig) : MergeResult :=
  fold_left (fun acc entry =>
               let r := mergeGroup (fst entry) (snd entry) in
               {| mr_servers := mr_servers acc ++ mr_servers r;
                  merged := merged acc ++ merged r;
                  conflicts := conflicts acc ++ conflicts r |})
            (groupServers servers)
            {| mr_servers := []; merged := []; conflicts := [] |}.

(** Every group of the map is not empty and holds servers of its key. *)
Definition keyed (serverMap : list (string * list ServerConfig)) : Prop :=
  Forall (fun entry => snd entry <> [] /\ forall s, In s (snd entry) -> keyOf s = fst entry)
         serverMap.

(** The warnings of [preCleanConfig]: the warning of [fixRootUser], the
    reasons of the merge reports, and the message about [autoindex on]
    with the server name. *)
Inductive Notice : Type :=
| FromCleaner : Warning -> Notice
| FromMerge : Reason -> Notice.

(** Step 3 of [preCleanConfig] for one server: the new server and the
    warnings pushed. *)
Definition cleanServer (server : ServerConfig) : ServerConfig * list Notice :=
  if Re.test Re.fm (re_setting "autoindex" "on") (s_customDirectives server)
  then (set_s_custom server
          (ConfigCleaner.removeDirective (s_customDirectives server) "autoindex"),
        [FromCleaner (AutoindexRemoved (serverName server))])
  else (server, []).

(** [ConfigCleaner.preCleanConfig(config)] *)
Definition preCleanConfig (config : NginxConfig) : NginxConfig * list Notice :=
  let rootFix := fixRootUser (g_customDirectives (global config)) in
  let '(config1, warnings1) :=
    match warning rootFix with
    | Some w =>
        (set_global config (set_g_custom (global config) (newDirectives rootFix)),
         [FromCleaner w])
    | None => (config, [])
    end in
  let mergeResult := mergeDuplicateServers (servers config) in
  let '(config2, warnings2) :=
    if (0 <? List.length (merged mergeResult)) || (0 <? List.length (conflicts mergeResult))
    then (set_servers config1 (mr_servers mergeResult),
          warnings1 ++ map (fun m => FromMerge (m_reason m)) (merged mergeResult)
                    ++ map (fun c => FromMerge (c_reason c)) (conflicts mergeResult))
    else (config1, warnings1) in
  let cleaned := map cleanServer (servers config2) in
  (set_servers config2 (map fst cleaned), warnings2 ++ concat (map snd cleaned)).

End Merge.

(* ================================================================== *)
(** * Properties of the audit runner *)
(* ================================================================== *)

Module AuditFacts.
Import Audit.

Section WithUuid.
Variable uuid : nat -> string.

(** The loop of [runAudit] appends to its accumulator what the
    specification's concatenation collects. *)
Lemma runRules_concat (rules : list (AuditRule)) (cfg : NginxConfig) :
  forall acc passed n,
    fst (fst (runRules rules cfg acc passed n))
    = acc ++ Spec.concatChecks uuid rules cfg n.
Proof.
  induction rules as [|rule rest IH]; intros acc passed n; simpl.
  - now rewrite app_nil_r.
  - destruct (check rule cfg n) as [found n'] eqn:Hc.
    destruct found as [|i found']; simpl.
    + apply IH.
    + rewrite IH. now rewrite <- app_assoc.
Qed.

(** Insertion skips every element the comparator puts first. *)
Lemma sortInsert_skip (x : AuditIssue) (l1 l2 : list AuditIssue) :
  Forall (fun y => (severityOrder (severity y) < severityOrder (severity x))%Z) l1 ->
  sortInsert bySeverity x (l1 ++ l2) = l1 ++ sortInsert bySeverity x l2.
Proof.
  induction 1 as [|y l1 Hy _ IH]; simpl; [reflexivity|].
  unfold bySeverity at 1.
  destruct (Z.leb_spec (severityOrder (severity x) - severityOrder (severity y)) 0).
  - lia.
  - now rewrite IH.
Qed.

(** Insertion stops in front of the first element that does not come
    first. *)
Lemma sortInsert_stop (x : AuditIssue) (l : list AuditIssue) :
  Forall (fun y => (severityOrder (severity x) <= severityOrder (severity y))%Z) l ->
  sortInsert bySeverity x l = x :: l.
Proof.
  destruct 1 as [|y l Hy _]; simpl; [reflexivity|].
  unfold bySeverity.
  destruct (Z.leb_spec (severityOrder (severity x) - severityOrder (severity y)) 0);
    [reflexivity | lia].
Qed.

Lemma ofSeverity_Forall (s : AuditSeverity) (l : list AuditIssue) :
  Forall (fun y => severity y = s) (Spec.ofSeverity s l).
Proof.
  apply Forall_forall. intros y Hy. apply filter_In in Hy as [_ Hy].
  destruct (severity y), s; simpl in Hy; congruence.
Qed.

Lemma Forall_severity (P : AuditIssue -> Prop) (s : AuditSeverity) (l : list AuditIssue) :
  (forall y, severity y = s -> P y) ->
  Forall P (Spec.ofSeverity s l).
Proof.
  intros H. eapply Forall_impl; [|apply ofSeverity_Forall]. exact H.
Qed.

(** The stable sort by severity groups the issues: critical, warning,
    info, each group in the order of the input. *)
Lemma sort_bySeverity (l : list AuditIssue) :
  sort bySeverity l
  = Spec.ofSeverity critical l ++ Spec.ofSeverity warning l ++ Spec.ofSeverity info l.
Proof.
  induction l as [|x l IH]; [reflexivity|].
  unfold sort in *. simpl fold_right. rewrite IH. clear IH.
  unfold Spec.ofSeverity at 4 5 6. simpl filter.
  fold (Spec.ofSeverity critical l) (Spec.ofSeverity warning l) (Spec.ofSeverity info l).
  destruct (severity x) eqn:Hx; simpl.
  - apply sortInsert_stop. rewrite Hx.
    apply Forall_forall. intros y _. destruct (severity y); simpl; lia.
  - rewrite sortInsert_skip.
    + f_equal. apply sortInsert_stop. rewrite Hx.
      apply Forall_app; split; apply Forall_severity; intros y ->; simpl; lia.
    + rewrite Hx. apply Forall_severity. intros y ->. simpl. lia.
  - rewrite sortInsert_skip.
    + f_equal. rewrite sortInsert_skip.
      * f_equal. apply sortInsert_stop. rewrite Hx.
        apply Forall_severity. intros y ->. simpl. lia.
      * rewrite Hx. apply Forall_severity. intros y ->. simpl. lia.
    + rewrite Hx. apply Forall_severity. intros y ->. simpl. lia.
Qed.

Lemma ofSeverity_app (s : AuditSeverity) (l1 l2 : list AuditIssue) :
  Spec.ofSeverity s (l1 ++ l2) = Spec.ofSeverity s l1 ++ Spec.ofSeverity s l2.
Proof. apply filter_app. Qed.

Lemma ofSeverity_same (s : AuditSeverity) (l : list AuditIssue) :
  Spec.ofSeverity s (Spec.ofSeverity s l) = Spec.ofSeverity s l.
Proof.
  unfold Spec.ofSeverity. induction l as [|x l IH]; simpl; [reflexivity|].
  destruct (AuditSeverity_eqb (severity x) s) eqn:E; simpl; [rewrite E|]; congruence.
Qed.

Lemma ofSeverity_other (s t : AuditSeverity) (l : list AuditIssue) :
  s <> t -> Spec.ofSeverity s (Spec.ofSeverity t l) = [].
Proof.
  intros Hst. unfold Spec.ofSeverity. induction l as [|x l IH]; simpl; [reflexivity|].
  destruct (AuditSeverity_eqb (severity x) t) eqn:E; simpl; [|exact IH].
  destruct (AuditSeverity_eqb (severity x) s) eqn:E'; [|exact IH].
  destruct (severity x), s, t; simpl in *; congruence.
Qed.

(** Sorting does not change how many issues a severity has. *)
Lemma countSeverity_sort (s : AuditSeverity) (l : list AuditIssue) :
  countSeverity s (sort bySeverity l) = Z.of_nat (List.length (Spec.ofSeverity s l)).
Proof.
  unfold countSeverity. fold (Spec.ofSeverity s (sort bySeverity l)).
  rewrite sort_bySeverity, !ofSeverity_app.
  destruct s.
  - rewrite ofSeverity_same, !ofSeverity_other by discriminate.
    now rewrite !app_nil_r.
  - rewrite ofSeverity_same, !ofSeverity_other by discriminate.
    now rewrite app_nil_r.
  - rewrite ofSeverity_same, !ofSeverity_other by discriminate.
    reflexivity.
Qed.

(** C6.  [runAudit] runs every rule's check and concatenates the issues;
    the returned list is that concatenation grouped by severity, critical
    first, then warning, then info, each group keeping its order; the
    score is [max 0 (100 - 20 c - 10 w - 3 i)] for the numbers [c], [w],
    [i] of critical, warning and info issues; and the grade follows the
    thresholds 90, 75, 60 and 40. *)
Theorem C6_runAudit_sorted_score_grade (cfg : NginxConfig) (n : nat) :
  let result := fst (runAudit uuid cfg n) in
  let all := Spec.concatChecks uuid (auditRules uuid) cfg n in
  let c := Z.of_nat (List.length (Spec.ofSeverity critical all)) in
  let w := Z.of_nat (List.length (Spec.ofSeverity warning all)) in
  let i := Z.of_nat (List.length (Spec.ofSeverity info all)) in
  issues result
  = Spec.ofSeverity critical all ++ Spec.ofSeverity warning all ++ Spec.ofSeverity info all
  /\ score result = Z.max 0 (100 - 20 * c - 10 * w - 3 * i)
  /\ grade result
     = (if (90 <=? score result)%Z then "A"
        else if (75 <=? score result)%Z then "B"
        else if (60 <=? score result)%Z then "C"
        else if (40 <=? score result)%Z then "D"
        else "F")
  /\ (0 <= score result <= 100)%Z
  /\ totalRules result = 12.
Proof.
  intros result all c w i. subst result.
  unfold runAudit.
  pose proof (runRules_concat (auditRules uuid) cfg [] 0 n) as Hall.
  destruct (runRules (auditRules uuid) cfg [] 0 n) as [[collected passed] n'].
  unfold fst in Hall. rewrite app_nil_l in Hall. fold all in Hall. subst collected.
  unfold fst, issues, score, grade, totalRules, gradeOf.
  rewrite !countSeverity_sort. fold c w i.
  assert (0 <= c /\ 0 <= w /\ 0 <= i)%Z as Hpos by (subst c w i; lia).
  clearbody c w i all.
  split; [apply sort_bySeverity|].
  split; [f_equal; lia|].
  split; [reflexivity|].
  split; [lia|reflexivity].
Qed.
End WithUuid.

End AuditFacts.

(* ================================================================== *)
(** * Properties of the directive cleaner *)
(* ================================================================== *)

Module CleanerFacts.
Import ConfigCleaner.

(** The key [ssl] against other lines: a directive of that name is removed,
    also in upper case (the pattern for a key outside the table ignores
    case); a longer name is not. *)
Lemma removeDirective_examples :
  removeDirective "ssl on;" "ssl" = EmptyString
  /\ removeDirective "SSL on;" "ssl" = EmptyString
  /\ removeDirective "  ssl_ciphers HIGH;" "ssl" = "ssl_ciphers HIGH;"
  /\ removeDirective "ssl_session_cache shared:SSL:10m;" "ssl_ciphers"
     = "ssl_session_cache shared:SSL:10m;".
Proof. repeat (split; [vm_compute; reflexivity|]). vm_compute. reflexivity. Qed.

(** A key that names an inherited property of the pattern table: the
    lookup yields the constructor of [Object], and [replace] removes the
    first occurrence of its text.  A second removal can remove more. *)
Lemma inherited_key_example :
  let source := nativeFunction "Object" in
  let text := (substring 0 20 source ++ source ++ substring 20 15 source)%string in
  removeDirective text "constructor" = source
  /\ removeDirective (removeDirective text "constructor") "constructor" = EmptyString.
Proof. cbv zeta. split; vm_compute; reflexivity. Qed.

End CleanerFacts.

(* ================================================================== *)
(** * Properties of the [listen] parser *)
(* ================================================================== *)

Module ParserFacts.
Import Parser.







Lemma digit_code (c : ascii) :
  Js.is_digit c = true -> 48 <= Js.code c <= 57.
Proof.
  unfold Js.is_digit. intros H. apply andb_prop in H as [H1 H2].
  apply Nat.leb_le in H1. apply Nat.leb_le in H2. lia.
Qed.



Lemma prefix_colon (c : ascii) (t : string) :
  String.prefix ":" (String c t) = Ascii.eqb c ":".
Proof.
  cbn [String.prefix]. destruct (ascii_dec ":" c) as [Heq|Hne].
  - rewrite <- Heq, Ascii.eqb_refl. now destruct t.
  - destruct (Ascii.eqb_spec c ":"); congruence.
Qed.












End ParserFacts.

(* ================================================================== *)
(** * Properties of the location matcher *)
(* ================================================================== *)

Module MatcherFacts.
Import Matcher.

Section WithRegExp.
Variable regexp : Type.
Variable RegExp_new : string -> string -> completion regexp.
Variable RegExp_test : regexp -> string -> bool.

Local Abbreviation matchLocation := (matchLocation RegExp_new RegExp_test).
Local Abbreviation regexLoop := (regexLoop RegExp_new RegExp_test).
Local Abbreviation locationMatches := (Spec.locationMatches RegExp_new RegExp_test).
Local Abbreviation firstRegex := (Spec.firstRegex RegExp_new RegExp_test).

Lemma exactLoop_find (requestPath : string) (locs : list LocationConfig) :
  exactLoop requestPath locs = Spec.firstExact requestPath locs.
Proof.
  induction locs as [|loc rest IH]; simpl; [reflexivity|].
  now destruct (Modifier_eqb (modifier loc) ModExact && String.eqb (path loc) requestPath).
Qed.

(** The regex loop returns the first regex location that compiles and
    tests true. *)
Lemma regexLoop_find (requestPath : string) (locs : list LocationConfig) :
  fst (regexLoop requestPath locs) = firstRegex requestPath locs.
Proof.
  induction locs as [|loc rest IH]; [reflexivity|].
  unfold Spec.firstRegex in *.
  simpl. unfold Spec.isRegexLocation, Spec.locationMatches.
  destruct (modifier loc) eqn:Hm; simpl; try exact IH.
  - destruct (RegExp_new (path loc) "") as [rx|e].
    + destruct (RegExp_test rx requestPath); [reflexivity|exact IH].
    + destruct (Matcher.regexLoop RegExp_new RegExp_test requestPath rest). exact IH.
  - destruct (RegExp_new (path loc) "i") as [rx|e].
    + destruct (RegExp_test rx requestPath); [reflexivity|exact IH].
    + destruct (Matcher.regexLoop RegExp_new RegExp_test requestPath rest). exact IH.
Qed.

(** The function is the five tiers, in their order. *)
Lemma matchLocation_tiers (requestPath : string) (locs : list LocationConfig) :
  exists log,
    matchLocation requestPath locs
    = Normal (Spec.tiers (exactLoop requestPath locs)
                         (fst (bestPrefix requestPath locs))
                         (fst (regexLoop requestPath locs)), log).
Proof.
  unfold Matcher.matchLocation, Spec.tiers.
  destruct (exactLoop requestPath locs) as [loc|]; [eauto|].
  destruct (bestPrefix requestPath locs) as [[b|] len]; simpl.
  - destruct (Modifier_eqb (modifier b) ModPrefixPriority); [eauto|].
    destruct (regexLoop requestPath locs) as [[loc|] log]; eauto.
  - destruct (regexLoop requestPath locs) as [[loc|] log]; eauto.
Qed.









End WithRegExp.


(** C1 at the failing input.  A prefix location with the empty path is a
    prefix candidate for every request path, and the only one here; the
    function returns no match for [/x], for every regular expression
    engine. *)
Theorem C1_empty_prefix_path_is_not_matched
    (regexp : Type) (RegExp_new : string -> string -> completion regexp)
    (RegExp_test : regexp -> string -> bool) :
  Spec.prefixCandidates "/x" [Sample.emptyPathLocation] = [Sample.emptyPathLocation]
  /\ Spec.longestFirst (Spec.prefixCandidates "/x" [Sample.emptyPathLocation])
     = Some Sample.emptyPathLocation
  /\ Matcher.matchLocation RegExp_new RegExp_test "/x" [Sample.emptyPathLocation]
     = Normal ({| matchedLocation := None; priority := PNone |}, []).
Proof. repeat split. Qed.

(** The matching examples of the specification, with the sample engine. *)
Lemma matchLocation_spec_examples :
  let run p := Matcher.matchLocation Sample.RegExp_new Sample.RegExp_test p
                 Sample.specLocations in
  run "/health"
  = Normal ({| matchedLocation := Some (Sample.loc "l1" ModExact "/health");
               priority := PExact |}, [])
  /\ run "/static/logo.png"
     = Normal ({| matchedLocation := Some (Sample.loc "l2" ModPrefixPriority "/static/");
                  priority := PPrefixPriority |}, [])
  /\ run "/img/logo.png"
     = Normal ({| matchedLocation := Some (Sample.loc "l3" ModRegexI "\.(png|jpg)$");
                  priority := PRegex |}, [])
  /\ run "/anything"
     = Normal ({| matchedLocation := Some (Sample.loc "l4" ModNone "/");
                  priority := PPrefix |}, [])
  /\ run "nothing" = Normal ({| matchedLocation := None; priority := PNone |}, []).
Proof. repeat split; vm_compute; reflexivity. Qed.

End MatcherFacts.

(* ================================================================== *)
(** * Properties of the rule fixes and of the fix engine *)
(* ================================================================== *)

Module FixFacts.
Import Audit.

Lemma merge_empty (cfg : NginxConfig) : merge cfg emptyPartial = cfg.
Proof. now destruct cfg. Qed.

Lemma merge_same_servers (cfg : NginxConfig) :
  merge cfg {| p_global := None; p_events := None; p_http := None; p_upstreams := None;
               p_servers := Some (servers cfg); p_locations := None;
               p_rawConfig := None |} = cfg.
Proof. now destruct cfg. Qed.

Lemma find_absent (A : Type) (f : A -> bool) (l : list A) :
  (forall x, In x l -> f x = false) -> find f l = None.
Proof.
  induction l as [|x l IH]; intros H; simpl; [reflexivity|].
  rewrite (H x (or_introl eq_refl)). apply IH. intros y Hy. apply H. now right.
Qed.

Lemma map_untouched (A : Type) (hit : A -> bool) (g : A -> A) (l : list A) :
  (forall x, In x l -> hit x = false) ->
  map (fun x => if hit x then g x else x) l = l.
Proof.
  induction l as [|x l IH]; intros H; simpl; [reflexivity|].
  rewrite (H x (or_introl eq_refl)). f_equal. apply IH. intros y Hy. apply H. now right.
Qed.

Section WithUuid.
Variable uuid : nat -> string.

(** The header fix with a node identifier that no server carries: the
    update holds the server list as it is. *)
Lemma headerFix_absent (name value : string) (cfg : NginxConfig) (id : string) (n : nat) :
  (forall s, In s (servers cfg) -> s_id s <> id) ->
  exists p, headerFix name value cfg id n = (p, n) /\ merge cfg p = cfg.
Proof.
  intros Habs.
  assert (Hoff : forall s, In s (servers cfg) -> String.eqb (s_id s) id = false).
  { intros s Hs. destruct (String.eqb_spec (s_id s) id); [|reflexivity].
    now destruct (Habs s Hs). }
  unfold headerFix. destruct (Js.isEmpty id).
  - exists emptyPartial. split; [reflexivity|apply merge_empty].
  - rewrite (@find_absent _ _ (servers cfg) Hoff).
    rewrite (@map_untouched _ (fun s => String.eqb (s_id s) id) _ (servers cfg) Hoff).
    eexists. split; [reflexivity|apply merge_same_servers].
Qed.

(** For every config: the fix of each rule that targets a
    node (hidden files, X-Frame-Options, X-Content-Type-Options, HSTS),
    invoked without a node identifier (absent, [null] or empty), returns the
    empty partial update; the fix of each header rule, invoked with an
    identifier that no server carries, returns an update that leaves the
    config as it is; the fix of each rule on a global block ignores the node
    identifier; and every rule that has a fix returns a partial update for
    every node identifier: no fix throws. *)
Theorem fix_of_missing_node (cfg : NginxConfig) (n : nat) :
  (forall rule, In rule Spec.nodeRules ->
     applyFix uuid cfg rule None n = (Some emptyPartial, n)
     /\ applyFix uuid cfg rule (Some EmptyString) n = (Some emptyPartial, n))
  /\ (forall rule id, In rule Spec.headerRules ->
        (forall s, In s (servers cfg) -> s_id s <> id) ->
        exists p, applyFix uuid cfg rule (Some id) n = (Some p, n) /\ merge cfg p = cfg)
  /\ (forall rule id, In rule Spec.globalRules ->
        applyFix uuid cfg rule (Some id) n = applyFix uuid cfg rule None n)
  /\ (forall rule id, In rule (auditRules uuid) -> fix_ rule <> None ->
        exists p n', applyFix uuid cfg (r_id rule) id n = (Some p, n')).
Proof.
  split; [|split; [|split]].
  - intros rule Hin. unfold Spec.nodeRules in Hin.
    repeat (destruct Hin as [<-|Hin]; [split; reflexivity|]). destruct Hin.
  - intros rule id Hin Habs. unfold Spec.headerRules in Hin.
    destruct Hin as [<-|[<-|[<-|[]]]]; unfold applyFix.
    + destruct (headerFix_absent "X-Frame-Options" "SAMEORIGIN" cfg n Habs) as (p & Hp & Hm).
      assert (findRule uuid "security-x-frame-options" = Some (rule_x_frame_options uuid))
        as -> by reflexivity.
      cbn [fix_ rule_x_frame_options orElse]. rewrite Hp. eauto.
    + destruct (headerFix_absent "X-Content-Type-Options" "nosniff" cfg n Habs)
        as (p & Hp & Hm).
      assert (findRule uuid "security-x-content-type" = Some (rule_x_content_type uuid))
        as -> by reflexivity.
      cbn [fix_ rule_x_content_type orElse]. rewrite Hp. eauto.
    + destruct (headerFix_absent "Strict-Transport-Security"
                  "max-age=31536000; includeSubDomains" cfg n Habs) as (p & Hp & Hm).
      assert (findRule uuid "security-hsts" = Some (rule_hsts uuid)) as -> by reflexivity.
      cbn [fix_ rule_hsts orElse]. rewrite Hp. eauto.
  - intros rule id Hin. unfold Spec.globalRules in Hin.
    repeat (destruct Hin as [<-|Hin]; [reflexivity|]). destruct Hin.
  - intros rule id Hin Hfix. unfold auditRules in Hin.
    repeat (destruct Hin as [<-|Hin];
            [try (now destruct Hfix);
             unfold applyFix;
             match goal with
             | |- context [findRule uuid (r_id ?r)] =>
                 assert (findRule uuid (r_id r) = Some r) as -> by reflexivity;
                 destruct (fix_ r) as [f|] eqn:Hf; [|discriminate Hf];
                 destruct (f cfg (orElse id EmptyString) n) as [p n']; eauto
             end|]).
    destruct Hin.
Qed.
End WithUuid.

(** The fix of the rule on [server_tokens] ignores the
    node identifier: with an identifier that names nothing in the config it
    still returns an update with one key, which changes the config. *)
Lemma global_fix_ignores_node :
  (forall s, In s (servers Sample.cleanScenario) -> s_id s <> "no-such-node")
  /\ locations Sample.cleanScenario = [] /\ upstreams Sample.cleanScenario = []
  /\ exists p,
       applyFix Sample.uuid Sample.cleanScenario "security-server-tokens"
         (Some "no-such-node") 0 = (Some p, 0)
       /\ keysLength p = 1
       /\ p <> emptyPartial
       /\ merge Sample.cleanScenario p <> Sample.cleanScenario.
Proof.
  split; [|split; [reflexivity|split; [reflexivity|]]].
  - intros s [<-|[]]. discriminate.
  - eexists. split; [vm_compute; reflexivity|].
    split; [reflexivity|]. split; discriminate.
Qed.

(** The fixes without a target at the sample scenario. *)
Lemma fix_of_missing_node_example :
  applyFix Sample.uuid Sample.cleanScenario "security-hidden-files" None 0
  = (Some emptyPartial, 0)
  /\ (exists p,
        applyFix Sample.uuid Sample.cleanScenario "security-hsts" (Some "no-such-node") 0
        = (Some p, 0)
        /\ merge Sample.cleanScenario p = Sample.cleanScenario)
  /\ applyFix Sample.uuid Sample.cleanScenario "perf-gzip" (Some "no-such-node") 0
     = applyFix Sample.uuid Sample.cleanScenario "perf-gzip" None 0
  /\ (exists p n',
        applyFix Sample.uuid Sample.cleanScenario
          (r_id (rule_hidden_files Sample.uuid)) (Some "no-such-node") 0 = (Some p, n')).
Proof.
  destruct (fix_of_missing_node Sample.uuid Sample.cleanScenario 0)
    as (Hnone & Habsent & Hglobal & Htotal).
  split; [|split; [|split]].
  - apply (Hnone "security-hidden-files"). simpl. auto.
  - apply (Habsent "security-hsts" "no-such-node").
    + simpl. auto.
    + intros s [<-|[]]. discriminate.
  - apply (Hglobal "perf-gzip" "no-such-node"). simpl. auto.
  - apply (Htotal (rule_hidden_files Sample.uuid) (Some "no-such-node")).
    + simpl. auto.
    + discriminate.
Defined.

(** C8.  The fix of the hidden-files rule, invoked with an identifier that
    names no server, does not return the empty update: it draws an
    identifier and appends a location for the unknown server, so the
    config changes and holds a location that belongs to no server.  The
    fix of a header rule with the same identifier leaves the config as it
    is.  In general the hidden-files fix appends its location for every
    identifier that is not empty and has no location yet, whether a server
    carries it or not. *)
Theorem C8_hidden_files_fix_dangling_location :
  (forall s, In s (servers Sample.cleanScenario) -> s_id s <> "no-such-node")
  /\ (exists p,
        applyFix Sample.uuid Sample.cleanScenario "security-hidden-files"
          (Some "no-such-node") 0 = (Some p, 1)
        /\ p <> emptyPartial
        /\ locations (merge Sample.cleanScenario p)
           = [newHiddenLocation (Sample.uuid 0) "no-such-node"]
        /\ servers (merge Sample.cleanScenario p) = servers Sample.cleanScenario
        /\ merge Sample.cleanScenario p <> Sample.cleanScenario)
  /\ (exists p,
        applyFix Sample.uuid Sample.cleanScenario "security-x-frame-options"
          (Some "no-such-node") 0 = (Some p, 0)
        /\ merge Sample.cleanScenario p = Sample.cleanScenario)
  /\ (forall (uuid : nat -> string) cfg id n,
        id <> EmptyString ->
        (forall l, In l (locations cfg) -> serverId l <> id) ->
        exists p,
          applyFix uuid cfg "security-hidden-files" (Some id) n = (Some p, S n)
          /\ locations (merge cfg p) = locations cfg ++ [newHiddenLocation (uuid n) id]
          /\ servers (merge cfg p) = servers cfg).
Proof.
  split; [|split; [|split]].
  - intros s [<-|[]]. discriminate.
  - eexists. split; [vm_compute; reflexivity|]. split; [discriminate|].
    split; [reflexivity|]. split; [reflexivity|discriminate].
  - eexists. split; [vm_compute; reflexivity|reflexivity].
  - intros uuid cfg id n Hid Hloc. unfold applyFix.
    assert (findRule uuid "security-hidden-files" = Some (rule_hidden_files uuid))
      as -> by reflexivity.
    cbn [fix_ rule_hidden_files orElse].
    destruct (Js.isEmpty id) eqn:Ei; [destruct id; [now contradiction Hid|discriminate]|].
    assert (Hf : find (fun l => String.eqb (serverId l) id
                          && (Js.includes (path l) "\." || String.eqb (path l) "~ /\."))
                      (locations cfg) = None).
    { induction (locations cfg) as [|l ls IH]; [reflexivity|]. cbn [find].
      assert (E : String.eqb (serverId l) id = false)
        by (apply String.eqb_neq, Hloc; now left).
      rewrite E. cbn [andb]. apply IH. intros l' Hl'. apply Hloc. now right. }
    rewrite Hf. eexists. split; [reflexivity|]. split; reflexivity.
Qed.

End FixFacts.

(* ================================================================== *)
(** * The fix engine at the specification's scenarios *)
(* ================================================================== *)

Module EngineFacts.

(** Splitting a conjunction of closed facts and evaluating each of them. *)
Ltac conjuncts := cbv zeta; repeat match goal with |- _ /\ _ => split end.
Ltac evaluate := vm_compute; reflexivity.

(** The hijack scenario of the specification: the port-80 server is turned
    into the redirect server, its two locations are removed, and the TLS
    server keeps TLS with the redirect flag cleared. *)
Lemma hijack_collision_example :
  let out := fst (AutoFixService.applyForceHttps Sample.uuid Sample.hijackScenario "S" 0) in
  map Sample.summary (servers out)
  = [ ("T", 80%Z, false, false, [], AutoFixService.REDIRECT_DIRECTIVE);
      ("S", 443%Z, true, false, ["TLSv1"; "TLSv1.1"], EmptyString) ]
  /\ map (fun s => (root s, index s)) (servers out)
     = [ (EmptyString, []); ("/var/www/html", ["index.html"; "index.htm"]) ]
  /\ locations out = [].
Proof. conjuncts; evaluate. Qed.

(** C3 at the failing input.  The target [S] is a TLS server with
    [forceRedirect] that listens on port 80 itself, [T] is another server on
    port 80 with the same name.  [T] is hijacked as the claim says, but the
    clean-up of further port-80 servers of that name does not leave [S]
    out: [S] is deleted, with its location, and no server of the result has
    TLS enabled. *)
Theorem C3_target_on_port_80_is_deleted :
  let cfg := Sample.tlsOnPort80 in
  let out := fst (AutoFixService.applyForceHttps Sample.uuid cfg "S" 0) in
  map Sample.summary (servers cfg)
  = [ ("S", 80%Z, true, true, ["TLSv1"; "TLSv1.1"], EmptyString);
      ("T", 80%Z, false, true, ["TLSv1"; "TLSv1.1"], EmptyString) ]
  /\ map serverName (servers cfg) = ["example.com"; "example.com"]
  /\ map Sample.summary (servers out)
     = [ ("T", 80%Z, false, false, [], AutoFixService.REDIRECT_DIRECTIVE) ]
  /\ find (fun s => String.eqb (s_id s) "S") (servers out) = None
  /\ existsb (fun s => enabled (ssl s)) (servers out) = false.
Proof. conjuncts; evaluate. Qed.

(** The convergence scenario of the specification, with empty passthrough
    texts: the loop stops after two passes, [server_tokens] is off, gzip
    is on, one redirect server on port 80 is added, and a second run
    changes nothing. *)
Lemma convergence_example :
  let st := Audit.applyAllFixesState Sample.uuid Sample.cleanScenario 0 in
  let out := Audit.currentConfig st in
  Audit.hasChanges st = false
  /\ Audit.iterations st = 2
  /\ serverTokens (http out) = Some false
  /\ gz_enabled (gzip (http out)) = true
  /\ map (fun s => (s_id s, port (listen s), s_customDirectives s))
         (filter (fun s => Z.eqb (port (listen s)) 80) (servers out))
     = [ (Sample.uuid 0, 80%Z, AutoFixService.REDIRECT_DIRECTIVE) ]
  /\ Audit.applyAllFixes Sample.uuid out (Audit.counter st) = out.
Proof. conjuncts; evaluate. Qed.

(** C2 at the failing input.  The config is the convergence scenario
    ([server_tokens] unset, gzip disabled, one TLS server with
    [forceRedirect], no server on port 80) whose global passthrough text
    holds two [user] directives on one line.  The first run converges, but
    it removes only the first of the two directives; the second run removes
    the other one, so the second result differs from the first. *)
Theorem C2_second_run_differs :
  let cfg := Sample.twoUsersScenario in
  let st := Audit.applyAllFixesState Sample.uuid cfg 0 in
  let out := Audit.currentConfig st in
  let out2 := Audit.applyAllFixes Sample.uuid out (Audit.counter st) in
  (serverTokens (http cfg) = None /\ gz_enabled (gzip (http cfg)) = false
   /\ map Sample.summary (servers cfg)
      = [ ("s1", 443%Z, true, true, ["TLSv1"; "TLSv1.1"], EmptyString) ])
  /\ (Audit.hasChanges st = false /\ Audit.iterations st = 2)
  /\ g_customDirectives (global out) = "user www-data;"
  /\ g_customDirectives (global out2) = EmptyString
  /\ out2 <> out.
Proof.
  conjuncts; try evaluate.
  intros H. apply (f_equal (fun c => g_customDirectives (global c))) in H.
  vm_compute in H. discriminate H.
Qed.

(** C10 at the failing input.  After [applyAllFixes] the global passthrough
    text of the same config still holds a [user] line, one that the
    cleaning pattern itself matches. *)
Theorem C10_user_line_survives :
  let out := Audit.applyAllFixes Sample.uuid Sample.twoUsersScenario 0 in
  user (global out) = "nginx"
  /\ g_customDirectives (global Sample.twoUsersScenario) = "user root; user www-data;"
  /\ g_customDirectives (global out) = "user www-data;"
  /\ Re.test Re.gm (AutoFixService.re_clean "user") (g_customDirectives (global out)) = true.
Proof. conjuncts; evaluate. Qed.

(** A second input for C10.  Two TLS servers of one name have
    [forceRedirect], and the second listens on port 80.  The loop of
    [AutoFixService.applyAllFixes] runs over the servers as they were
    before the first hijack: the second server, already turned into a
    redirect server with an empty protocol list, is treated as a TLS server
    again and gets TLS enabled back. *)
Lemma C10_enabled_server_without_protocols :
  let out := Audit.applyAllFixes Sample.uuid Sample.twoTlsServers 0 in
  map (fun s => (s_id s, port (listen s), enabled (ssl s), protocols (ssl s)))
      (servers out)
  = [ ("S1", 443%Z, true, ["TLSv1.2"; "TLSv1.3"]);
      ("S2", 80%Z, true, []);
      (Sample.uuid 0, 80%Z, false, []) ].
Proof. vm_compute. reflexivity. Qed.

(** C4.  [removeDirective] with the key of a header, as the header fixes
    pass it.  The text has a dangling [add_header] line, then the header,
    then a line that starts with the name of the header.  The first removal
    takes the middle line away; what is left, [add_header], a blank line and
    the last line, is itself a match of the key's pattern, whose white
    space spans the line breaks: the removal is not complete, and a second
    removal empties the text.  [smartAddHeader], which removes before it
    adds, is not stable either.  A key that names an inherited property of
    the pattern table removes one occurrence of a fixed text at a time. *)
Theorem C4_header_key_removal_incomplete :
  let once := ConfigCleaner.removeDirective Sample.danglingHeaderText Sample.headerKey in
  let twice := ConfigCleaner.removeDirective once Sample.headerKey in
  once = ("add_header" ++ Sample.nl ++ Sample.nl ++ "X-Frame-Options z;")%string
  /\ Re.test Re.gim (ConfigCleaner.createAddHeaderPattern "X-Frame-Options") once = true
  /\ twice = EmptyString
  /\ twice <> once
  /\ (let added :=
        ConfigCleaner.smartAddHeader Sample.danglingHeaderText
          "X-Frame-Options" "SAMEORIGIN" true in
      ConfigCleaner.smartAddHeader added "X-Frame-Options" "SAMEORIGIN" true <> added)
  /\ (let source := ConfigCleaner.nativeFunction "Object" in
      let text := (substring 0 20 source ++ source ++ substring 20 15 source)%string in
      ConfigCleaner.removeDirective (ConfigCleaner.removeDirective text "constructor")
        "constructor"
      <> ConfigCleaner.removeDirective text "constructor").
Proof.
  cbv zeta.
  split; [vm_compute; reflexivity|]. split; [vm_compute; reflexivity|].
  split; [vm_compute; reflexivity|]. split; [vm_compute; discriminate|].
  split; vm_compute; discriminate.
Qed.

End EngineFacts.

(* ================================================================== *)
(** * The directive cleaner for a key that is a word *)
(* ================================================================== *)

Unset Implicit Arguments.

Module ShapeFacts.
Import Shape.

(* ---------------- characters ---------------- *)

Lemma canonicalize_space (c : ascii) :
  Js.is_space (Re.canonicalize c) = Js.is_space c.
Proof. destruct c as [[] [] [] [] [] [] [] []]; reflexivity. Qed.

Lemma canonicalize_semi (c : ascii) :
  Ascii.eqb (Re.canonicalize c) ";" = Ascii.eqb c ";".
Proof. destruct c as [[] [] [] [] [] [] [] []]; reflexivity. Qed.

Lemma char_eq_space (f : Re.flags) (a b : ascii) :
  Re.char_eq f a b = true -> Js.is_space b = Js.is_space a.
Proof.
  unfold Re.char_eq. destruct (Re.ignoreCase f); intros H; apply Ascii.eqb_eq in H.
  - now rewrite <- (canonicalize_space b), <- H, canonicalize_space.
  - now subst.
Qed.

Lemma char_eq_semi (f : Re.flags) (a b : ascii) :
  Re.char_eq f a b = true -> Ascii.eqb b ";" = Ascii.eqb a ";".
Proof.
  unfold Re.char_eq. destruct (Re.ignoreCase f); intros H; apply Ascii.eqb_eq in H.
  - now rewrite <- (canonicalize_semi b), <- H, canonicalize_semi.
  - now subst.
Qed.

Lemma char_eq_semicolon (f : Re.flags) (c : ascii) :
  Re.char_eq f ";" c = Ascii.eqb c ";".
Proof.
  unfold Re.char_eq. destruct (Re.ignoreCase f).
  - rewrite Ascii.eqb_sym. apply canonicalize_semi.
  - apply Ascii.eqb_sym.
Qed.

Lemma LT_space (c : ascii) : isLT c = true -> Js.is_space c = true.
Proof. destruct c as [[] [] [] [] [] [] [] []]; simpl; intros H; try reflexivity; discriminate H. Qed.

Lemma space_notSemi (c : ascii) : Js.is_space c = true -> Re.notSemi c = true.
Proof. destruct c as [[] [] [] [] [] [] [] []]; simpl; intros H; try reflexivity; discriminate H. Qed.

(* ---------------- the matcher and the recogniser ---------------- *)

Section Recogniser.
Variable A : Type.
Variable f : Re.flags.

Lemma seq_m (a b : Re.re) (k : Re.cont A) :
  Re.m f (Re.Seq a b) k = Re.m f a (Re.m f b k).
Proof. reflexivity. Qed.

Lemma alt_isSome (a b : Re.re) (k : Re.cont A) (prev : option ascii) (u : string) :
  isSome (Re.m f (Re.Alt a b) k prev u)
  = isSome (Re.m f a k prev u) || isSome (Re.m f b k prev u).
Proof. cbn [Re.m]. now destruct (Re.m f a k prev u). Qed.

Lemma lit_isSome (a : ascii) (k : Re.cont A) (prev : option ascii) (u : string) :
  isSome (Re.m f (Re.Lit a) k prev u)
  = match u with
    | String c t => Re.char_eq f a c && isSome (k (Some c) t)
    | EmptyString => false
    end.
Proof. cbn [Re.m]. destruct u as [|c t]; [reflexivity|]. now destruct (Re.char_eq f a c). Qed.

Lemma star_isSome (p : ascii -> bool) (k : Re.cont A) (g : string -> bool) :
  (forall prev u, isSome (k prev u) = g u) ->
  forall u prev, isSome (Re.m f (Re.Star p) k prev u) = starB p g u.
Proof.
  intros Hk. cbn [Re.m]. induction u as [|c t IH]; intros prev; simpl.
  - rewrite Hk. now rewrite orb_false_r.
  - destruct (p c); simpl.
    + specialize (IH (Some c)). destruct (Re.star p k (Some c) t); simpl in *.
      * rewrite <- IH. now rewrite orb_true_r.
      * rewrite <- IH, orb_false_r. apply Hk.
    + rewrite orb_false_r. apply Hk.
Qed.

Lemma plus_isSome (p : ascii -> bool) (k : Re.cont A) (g : string -> bool) :
  (forall prev u, isSome (k prev u) = g u) ->
  forall u prev, isSome (Re.m f (Re.Plus p) k prev u) = plusB p g u.
Proof.
  intros Hk u prev. unfold Re.Plus. rewrite seq_m.
  destruct u as [|c t]; [reflexivity|].
  cbn [Re.m plusB]. destruct (p c); [|reflexivity].
  apply (star_isSome p k g Hk t (Some c)).
Qed.
End Recogniser.

Section Pattern.
Variable f : Re.flags.
Variable key : string.

Let kfin : Re.cont string := fun _ rest => Some rest.

Lemma eol_isSome (prev : option ascii) (u : string) :
  isSome (Re.m f Re.Eol kfin prev u) = Re.at_eol f u.
Proof. simpl. now destruct (Re.at_eol f u). Qed.

Lemma spaces_isSome (prev : option ascii) (u : string) :
  isSome (Re.m f (Re.Seq (Re.Star Re.space) Re.Eol) kfin prev u) = spacesThenEol f u.
Proof. rewrite seq_m. apply (star_isSome _ f Re.space _ (Re.at_eol f) eol_isSome). Qed.

Lemma tail_isSome (prev : option ascii) (u : string) :
  isSome (Re.m f (Re.Seq (Re.Opt (Re.Lit ";")) (Re.Seq (Re.Star Re.space) Re.Eol)) kfin prev u)
  = tailOK f u.
Proof.
  unfold Re.Opt. rewrite seq_m, alt_isSome, lit_isSome.
  change (Re.m f Re.Eps ?k prev u) with (k prev u).
  rewrite spaces_isSome. unfold tailOK.
  destruct u as [|c t]; [reflexivity|].
  now rewrite char_eq_semicolon, spaces_isSome.
Qed.

Lemma value_isSome (prev : option ascii) (u : string) :
  isSome (Re.m f ConfigCleaner.re_valueTail kfin prev u) = sPlus f u.
Proof.
  unfold ConfigCleaner.re_valueTail. rewrite seq_m.
  apply (plus_isSome _ f Re.space _ (nPlus f)).
  intros p0 u0. rewrite seq_m.
  apply (plus_isSome _ f Re.notSemi _ (tailOK f)). apply tail_isSome.
Qed.

Lemma key_isSome (k : string) :
  forall prev u,
    isSome (Re.m f (Re.Seq (Re.Str k) ConfigCleaner.re_valueTail) kfin prev u) = keyAt f k u.
Proof.
  induction k as [|a k IH]; intros prev u.
  - cbn [Re.Str keyAt]. rewrite seq_m.
    change (Re.m f Re.Eps ?k prev u) with (k prev u). apply value_isSome.
  - cbn [Re.Str keyAt]. rewrite !seq_m, lit_isSome. destruct u as [|c t]; [reflexivity|].
    rewrite <- seq_m, IH. reflexivity.
Qed.

(** The matcher finds a match exactly where the recogniser accepts. *)
Lemma exec_matchB (prev : option ascii) (u : string) :
  isSome (Re.exec f (ConfigCleaner.re_directive key) prev u) = matchB f key prev u.
Proof.
  unfold Re.exec, ConfigCleaner.re_directive, matchB. fold kfin.
  rewrite seq_m. cbn [Re.m].
  destruct (Re.at_bol f prev); [|reflexivity]. cbn [andb].
  change (Re.star Re.space ?k prev u) with (Re.m f (Re.Star Re.space) k prev u).
  rewrite <- seq_m. rewrite seq_m.
  apply (star_isSome _ f Re.space _ (keyAt f key)). intros p0 u0. apply key_isSome.
Qed.
End Pattern.


(* ---------------- what a match consumes ---------------- *)

Lemma lastChar_app (prev : option ascii) (a b : string) :
  lastChar prev (a ++ b) = lastChar (lastChar prev a) b.
Proof.
  revert prev. induction a as [|c a IH]; intros prev; [reflexivity|].
  cbn [append]. unfold lastChar in *. cbn [list_ascii_of_string fold_left]. apply IH.
Qed.

Lemma lastChar_cons (prev : option ascii) (c : ascii) (a : string) :
  lastChar prev (String c a) = lastChar (Some c) a.
Proof. reflexivity. Qed.

Lemma app_assoc_s (a b c : string) : ((a ++ b) ++ c)%string = (a ++ (b ++ c))%string.
Proof. induction a as [|x a IH]; simpl; [reflexivity|now rewrite IH]. Qed.

Lemma app_nil_r_s (a : string) : (a ++ "")%string = a.
Proof. induction a as [|x a IH]; simpl; [reflexivity|now rewrite IH]. Qed.

Lemma length_app_s (a b : string) :
  String.length (a ++ b) = String.length a + String.length b.
Proof. induction a as [|x a IH]; simpl; [reflexivity|now rewrite IH]. Qed.

Section Consumes.
Variable A : Type.
Variable f : Re.flags.

Local Abbreviation consumes := (Shape.consumes A f).


Lemma star_consumes (p : ascii -> bool) : consumes (Re.Star p).
Proof.
  intros k prev s. revert prev. cbn [Re.m minLen].
  induction s as [|c t IH]; intros prev x H; simpl in H.
  - exists EmptyString, EmptyString. repeat split; [lia|exact H].
  - destruct (p c).
    + destruct (Re.star p k (Some c) t) as [y|] eqn:Hs.
      * destruct (IH (Some c) y Hs) as (pre & rest & -> & _ & Hk).
        exists (String c pre), rest. repeat split; [simpl; lia|].
        rewrite lastChar_cons. congruence.
      * exists EmptyString, (String c t). repeat split; [simpl; lia|exact H].
    + exists EmptyString, (String c t). repeat split; [simpl; lia|exact H].
Qed.

Lemma m_consumes (r : Re.re) : consumes r.
Proof.
  induction r as [|a|p|p|a IHa b IHb|a IHa b IHb| |]; intros k prev s x H.
  - exists EmptyString, s. repeat split; [simpl; lia|exact H].
  - cbn [Re.m] in H. destruct s as [|d t]; [discriminate|].
    destruct (Re.char_eq f a d); [|discriminate].
    exists (String d EmptyString), t. repeat split; [simpl; lia|exact H].
  - cbn [Re.m] in H. destruct s as [|d t]; [discriminate|].
    destruct (p d); [|discriminate].
    exists (String d EmptyString), t. repeat split; [simpl; lia|exact H].
  - now apply star_consumes.
  - cbn [Re.m] in H.
    destruct (IHa _ _ _ _ H) as (pre1 & rest1 & -> & Hl1 & H1).
    destruct (IHb _ _ _ _ H1) as (pre2 & rest2 & -> & Hl2 & H2).
    exists (pre1 ++ pre2)%string, rest2. repeat split.
    + now rewrite app_assoc_s.
    + rewrite length_app_s. simpl. lia.
    + now rewrite lastChar_app.
  - cbn [Re.m] in H. destruct (Re.m f a k prev s) as [y|] eqn:Ha.
    + destruct (IHa _ _ _ _ Ha) as (pre & rest & -> & Hl & Hk).
      exists pre, rest. repeat split; [simpl; lia|congruence].
    + destruct (IHb _ _ _ _ H) as (pre & rest & -> & Hl & Hk).
      exists pre, rest. repeat split; [simpl; lia|exact Hk].
  - cbn [Re.m] in H. destruct (Re.at_bol f prev); [|discriminate].
    exists EmptyString, s. repeat split; [simpl; lia|exact H].
  - cbn [Re.m] in H. destruct (Re.at_eol f s); [|discriminate].
    exists EmptyString, s. repeat split; [simpl; lia|exact H].
Qed.
End Consumes.

(** A match of the removal pattern takes at least one character and ends
    in front of a line terminator or at the end of the text. *)
Lemma exec_directive_sound (f : Re.flags) (key : string) (prev : option ascii)
    (s rest : string) :
  Re.exec f (ConfigCleaner.re_directive key) prev s = Some rest ->
  exists c M, s = (String c M ++ rest)%string /\ Re.at_eol f rest = true.
Proof.
  unfold Re.exec, ConfigCleaner.re_directive, ConfigCleaner.re_valueTail. intros H.
  set (body := Re.Seq Re.Bol (Re.Seq (Re.Star Re.space) (Re.Seq (Re.Str key)
                 (Re.Seq (Re.Plus Re.space) (Re.Seq (Re.Plus Re.notSemi)
                    (Re.Seq (Re.Opt (Re.Lit ";")) (Re.Star Re.space))))))).
  assert (H' : Re.m f body (Re.m f Re.Eol (fun _ r => Some r)) prev s = Some rest)
    by exact H.
  destruct (m_consumes string f body _ _ _ _ H') as (pre & rest' & -> & Hl & Hk).
  cbn [Re.m] in Hk. destruct (Re.at_eol f rest') eqn:He; [|discriminate].
  injection Hk as <-.
  destruct pre as [|c M].
  - exfalso. unfold body, Re.Plus in Hl. simpl in Hl. lia.
  - exists c, M. split; [reflexivity|exact He].
Qed.


(* ---------------- lines and white space ---------------- *)



Lemma joinL_cons (l : string) (ls : list string) : joinL (l :: ls) = (l ++ tailText ls)%string.
Proof.
  revert l. induction ls as [|l2 ls IH]; intros l.
  - simpl. now rewrite app_nil_r_s.
  - unfold joinL in *.
    change (Js.join nl (l :: l2 :: ls)) with (l ++ nl ++ Js.join nl (l2 :: ls))%string.
    rewrite IH. reflexivity.
Qed.

Lemma tailText_LF (ls : list string) :
  tailText ls = EmptyString \/ exists t, tailText ls = String Js.LF t.
Proof. destruct ls as [|l ls]; [now left|right]. cbn [tailText]. unfold nl. simpl. eauto. Qed.

Lemma tailText_app (a b : list string) : tailText (a ++ b) = (tailText a ++ tailText b)%string.
Proof.
  induction a as [|l a IH]; [reflexivity|].
  cbn [app tailText]. now rewrite IH, !app_assoc_s.
Qed.

Lemma join_split_go (s : string) :
  forall cur, joinL (Js.split_go Js.LF cur s) = (cur ++ s)%string.
Proof.
  induction s as [|c t IH]; intros cur.
  - simpl. now rewrite app_nil_r_s.
  - cbn [Js.split_go]. destruct (Ascii.eqb_spec c Js.LF) as [->|Hne].
    + rewrite joinL_cons.
      destruct (Js.split_go Js.LF EmptyString t) as [|x xs] eqn:E.
      * pose proof (IH EmptyString) as H. rewrite E in H. simpl in H. now subst.
      * cbn [tailText]. rewrite <- joinL_cons, <- E, IH. reflexivity.
    + rewrite IH. now rewrite app_assoc_s.
Qed.

Lemma join_split (s : string) : joinL (Js.split Js.LF s) = s.
Proof. unfold Js.split. now rewrite join_split_go. Qed.

Lemma trimStart_split (s : string) :
  exists w, s = (w ++ Js.trimStart s)%string /\ allSpace w = true.
Proof.
  induction s as [|c t IH].
  - exists EmptyString. split; reflexivity.
  - cbn [Js.trimStart]. destruct (Js.is_space c) eqn:E.
    + destruct IH as (w & Hw & Ha). exists (String c w). split.
      * cbn [append]. now rewrite <- Hw.
      * unfold allSpace in *. cbn [allChars]. now rewrite E.
    + exists EmptyString. split; reflexivity.
Qed.

Lemma trimEnd_split (s : string) :
  exists w, s = (Js.trimEnd s ++ w)%string /\ allSpace w = true.
Proof.
  induction s as [|c t IH].
  - exists EmptyString. split; reflexivity.
  - destruct IH as (w & Hw & Ha). cbn [Js.trimEnd].
    destruct (Js.trimEnd t) as [|d t'] eqn:E.
    + destruct (Js.is_space c) eqn:Ec.
      * exists (String c w). split.
        -- cbn [append] in *. now rewrite <- Hw.
        -- unfold allSpace in *. cbn [allChars]. now rewrite Ec.
      * exists w. split; [|exact Ha]. cbn [append] in *. now rewrite <- Hw.
    + exists w. split; [|exact Ha]. cbn [append] in *. now rewrite <- Hw.
Qed.

Lemma trimStart_allSpace (s : string) : allSpace s = true -> Js.trimStart s = EmptyString.
Proof.
  induction s as [|c t IH]; intros H; [reflexivity|].
  unfold allSpace in *. cbn [allChars] in H. apply andb_prop in H as [Hc Ht].
  cbn [Js.trimStart]. rewrite Hc. now apply IH.
Qed.

Lemma trimStart_empty (s : string) : Js.trimStart s = EmptyString -> allSpace s = true.
Proof.
  induction s as [|c t IH]; intros H; [reflexivity|].
  cbn [Js.trimStart] in H. unfold allSpace in *. cbn [allChars].
  destruct (Js.is_space c); [now apply IH|discriminate].
Qed.

Lemma trimEnd_nonempty (s : string) :
  Js.trimEnd s = EmptyString -> allSpace s = true.
Proof.
  induction s as [|c t IH]; intros H; [reflexivity|].
  cbn [Js.trimEnd] in H. unfold allSpace in *. cbn [allChars].
  destruct (Js.trimEnd t) as [|d t'] eqn:E; [|discriminate].
  destruct (Js.is_space c); [now apply IH|discriminate].
Qed.

(** A blank line is white space. *)
Lemma blank_allSpace (l : string) : ConfigCleaner.nonBlank l = false -> allSpace l = true.
Proof.
  unfold ConfigCleaner.nonBlank, Js.trim. intros H. apply negb_false_iff in H.
  destruct (Js.trimEnd (Js.trimStart l)) as [|c t] eqn:E; [|discriminate].
  apply trimEnd_nonempty in E.
  destruct (trimStart_split l) as (w & Hw & Ha). rewrite Hw.
  unfold allSpace in *. clear Hw H.
  induction w as [|x w IH]; [exact E|]. cbn [append allChars] in *.
  apply andb_prop in Ha as [Hx Ha]. rewrite Hx. now apply IH.
Qed.

(* ---------------- the normalisation is idempotent ---------------- *)

Lemma allChars_app (p : ascii -> bool) (a b : string) :
  allChars p (a ++ b) = allChars p a && allChars p b.
Proof.
  induction a as [|c a IH]; [reflexivity|]. cbn [append allChars].
  now rewrite IH, andb_assoc.
Qed.

Lemma trimEnd_allSpace (s : string) : allSpace s = true -> Js.trimEnd s = EmptyString.
Proof.
  induction s as [|c t IH]; intros H; [reflexivity|].
  unfold allSpace in *. cbn [allChars] in H. apply andb_prop in H as [Hc Ht].
  cbn [Js.trimEnd]. now rewrite (IH Ht), Hc.
Qed.

Lemma nonBlank_allSpace (l : string) : ConfigCleaner.nonBlank l = negb (allSpace l).
Proof.
  destruct (allSpace l) eqn:E.
  - unfold ConfigCleaner.nonBlank, Js.trim. now rewrite (trimStart_allSpace _ E).
  - destruct (ConfigCleaner.nonBlank l) eqn:En; [reflexivity|].
    apply blank_allSpace in En. congruence.
Qed.

Lemma allSpace_trimStart (l : string) : allSpace (Js.trimStart l) = allSpace l.
Proof.
  destruct (trimStart_split l) as (w & Hl & Hw). rewrite Hl at 2.
  unfold allSpace in *. now rewrite allChars_app, Hw.
Qed.

Lemma allSpace_trimEnd (l : string) : allSpace (Js.trimEnd l) = allSpace l.
Proof.
  destruct (trimEnd_split l) as (w & Hl & Hw). rewrite Hl at 2.
  unfold allSpace in *. now rewrite allChars_app, Hw, andb_true_r.
Qed.

Lemma trimStart_app (l u : string) :
  allSpace l = false -> Js.trimStart (l ++ u) = (Js.trimStart l ++ u)%string.
Proof.
  induction l as [|c l IH]; intros H; [discriminate|].
  unfold allSpace in *. cbn [allChars append Js.trimStart] in *.
  destruct (Js.is_space c); [now apply IH|reflexivity].
Qed.

Lemma trimEnd_app (a b : string) :
  Js.trimEnd (a ++ b)
  = match Js.trimEnd b with
    | EmptyString => Js.trimEnd a
    | String _ _ => (a ++ Js.trimEnd b)%string
    end.
Proof.
  induction a as [|c a IH].
  - cbn [append]. now destruct (Js.trimEnd b).
  - cbn [append Js.trimEnd]. rewrite IH.
    destruct (Js.trimEnd b) as [|d b']; [reflexivity|].
    destruct a; reflexivity.
Qed.

Lemma trimEnd_idem (s : string) : Js.trimEnd (Js.trimEnd s) = Js.trimEnd s.
Proof.
  induction s as [|c t IH]; [reflexivity|]. cbn [Js.trimEnd].
  destruct (Js.trimEnd t) as [|d t'] eqn:E.
  - destruct (Js.is_space c) eqn:Ec; [reflexivity|]. cbn [Js.trimEnd]. now rewrite Ec.
  - cbn [Js.trimEnd] in *. rewrite IH. reflexivity.
Qed.

Lemma trimStart_fixed (s : string) :
  (forall c t, s = String c t -> Js.is_space c = false) -> Js.trimStart s = s.
Proof.
  destruct s as [|c t]; [reflexivity|]. intros H. cbn [Js.trimStart].
  now rewrite (H c t eq_refl).
Qed.

Lemma trimStart_starts (s : string) (c : ascii) (t : string) :
  Js.trimStart s = String c t -> Js.is_space c = false.
Proof.
  induction s as [|d s IH]; [discriminate|]. cbn [Js.trimStart].
  destruct (Js.is_space d) eqn:E; [exact IH|]. intros H. injection H as <- _. exact E.
Qed.

Lemma trimEnd_starts (s : string) (c : ascii) (t : string) :
  Js.trimEnd s = String c t -> exists t', s = String c t'.
Proof.
  destruct s as [|d s]; [discriminate|]. cbn [Js.trimEnd].
  destruct (Js.trimEnd s); [destruct (Js.is_space d)|]; intros H;
    try discriminate; injection H as <- _; eauto.
Qed.

Lemma trim_idem (s : string) : Js.trim (Js.trim s) = Js.trim s.
Proof.
  unfold Js.trim.
  assert (H : Js.trimStart (Js.trimEnd (Js.trimStart s)) = Js.trimEnd (Js.trimStart s)).
  { apply trimStart_fixed. intros c t E.
    destruct (trimEnd_starts _ _ _ E) as (t' & E'). now apply trimStart_starts in E'. }
  now rewrite H, trimEnd_idem.
Qed.


Lemma filterLines_cons (prev : option string) (l : string) (ls : list string) :
  ConfigCleaner.filterLines prev (l :: ls)
  = (if ConfigCleaner.nonBlank l || pnb prev then [l] else [])
    ++ ConfigCleaner.filterLines (Some l) ls.
Proof.
  cbn [ConfigCleaner.filterLines]. unfold pnb.
  destruct (ConfigCleaner.nonBlank l), prev; reflexivity.
Qed.

Lemma filterLines_pnb (ls : list string) (p q : option string) :
  pnb p = pnb q -> ConfigCleaner.filterLines p ls = ConfigCleaner.filterLines q ls.
Proof. intros H. destruct ls as [|l ls]; [reflexivity|]. now rewrite !filterLines_cons, H. Qed.

Lemma filterLines_length (ls : list string) :
  forall p, List.length (ConfigCleaner.filterLines p ls) <= List.length ls.
Proof.
  induction ls as [|l ls IH]; intros p; [simpl; lia|].
  rewrite filterLines_cons, length_app. specialize (IH (Some l)).
  destruct (ConfigCleaner.nonBlank l || pnb p); simpl; lia.
Qed.

Lemma filterLines_fixed_inv (p : option string) (l : string) (ls : list string) :
  ConfigCleaner.filterLines p (l :: ls) = l :: ls ->
  ConfigCleaner.nonBlank l || pnb p = true
  /\ ConfigCleaner.filterLines (Some l) ls = ls.
Proof.
  rewrite filterLines_cons. destruct (ConfigCleaner.nonBlank l || pnb p); cbn [app]; intros H.
  - injection H as H. now split.
  - pose proof (filterLines_length ls (Some l)) as Hl. rewrite H in Hl. simpl in Hl. lia.
Qed.

Lemma filterLines_idem (ls : list string) :
  forall p q, pnb p = pnb q ->
  ConfigCleaner.filterLines p (ConfigCleaner.filterLines q ls)
  = ConfigCleaner.filterLines q ls.
Proof.
  induction ls as [|l ls IH]; intros p q Hpq; [reflexivity|].
  rewrite filterLines_cons. destruct (ConfigCleaner.nonBlank l || pnb q) eqn:Ek; cbn [app].
  - rewrite filterLines_cons, Hpq, Ek. cbn [app]. f_equal. now apply IH.
  - apply IH. apply orb_false_elim in Ek as [Ek1 Ek2]. unfold pnb at 2. congruence.
Qed.

Lemma filterLines_first (ls : list string) :
  forall p, pnb p = false ->
  ConfigCleaner.filterLines p ls = []
  \/ exists l r, ConfigCleaner.filterLines p ls = l :: r /\ ConfigCleaner.nonBlank l = true.
Proof.
  induction ls as [|l ls IH]; intros p Hp; [now left|].
  rewrite filterLines_cons, Hp, orb_false_r.
  destruct (ConfigCleaner.nonBlank l) eqn:El; cbn [app].
  - right. eauto.
  - now apply IH.
Qed.

Lemma filterLines_Forall (P : string -> Prop) (ls : list string) :
  forall p, Forall P ls -> Forall P (ConfigCleaner.filterLines p ls).
Proof.
  induction ls as [|l ls IH]; intros p H; [constructor|].
  rewrite filterLines_cons. inversion H as [|? ? Hl Hls]; subst.
  apply Forall_app. split; [|now apply IH].
  destruct (ConfigCleaner.nonBlank l || pnb p); [now constructor|constructor].
Qed.

Lemma split_go_noLF (s : string) :
  forall cur, noLF cur = true -> Forall (fun l => noLF l = true) (Js.split_go Js.LF cur s).
Proof.
  induction s as [|c t IH]; intros cur Hc; cbn [Js.split_go].
  - now constructor.
  - destruct (Ascii.eqb c Js.LF) eqn:E.
    + constructor; [exact Hc|]. now apply IH.
    + apply IH. unfold noLF in *. rewrite allChars_app, Hc. cbn [allChars]. now rewrite E.
Qed.

Lemma split_go_line (l : string) (rest : string) :
  noLF l = true ->
  forall cur, Js.split_go Js.LF cur (l ++ rest) = Js.split_go Js.LF (cur ++ l) rest.
Proof.
  induction l as [|c l IH]; intros Hl cur.
  - now rewrite app_nil_r_s.
  - unfold noLF in *. cbn [allChars append Js.split_go] in *.
    apply andb_prop in Hl as [Hc Hl]. apply negb_true_iff in Hc. rewrite Hc.
    rewrite (IH Hl). now rewrite app_assoc_s.
Qed.

Lemma split_join (ls : list string) :
  ls <> [] -> Forall (fun l => noLF l = true) ls -> Js.split Js.LF (joinL ls) = ls.
Proof.
  induction ls as [|l ls IH]; intros Hne H; [contradiction|].
  inversion H as [|? ? Hl Hls]; subst. unfold Js.split in *. rewrite joinL_cons.
  rewrite (split_go_line l _ Hl). cbn [append].
  destruct ls as [|l2 ls].
  - cbn [tailText Js.split_go]. reflexivity.
  - cbn [tailText]. unfold nl. cbn [append Js.split_go]. rewrite Ascii.eqb_refl.
    f_equal. rewrite <- joinL_cons. apply IH; [discriminate|exact Hls].
Qed.


Lemma tailText_nil (ls : list string) : tailText ls = EmptyString -> ls = [].
Proof. destruct ls; [reflexivity|]. cbn [tailText]. unfold nl. discriminate. Qed.

Lemma trimEnd_tailText (ls : list string) :
  Js.trimEnd (tailText ls) = tailText (trimEndLines ls).
Proof.
  induction ls as [|l ls IH]; [reflexivity|].
  cbn [tailText trimEndLines]. rewrite trimEnd_app, trimEnd_app, IH.
  destruct (trimEndLines ls) as [|k ks] eqn:E.
  - cbn [tailText]. destruct (allSpace l) eqn:El.
    + now rewrite (trimEnd_allSpace _ El).
    + destruct (Js.trimEnd l) as [|c t] eqn:Et.
      * apply trimEnd_nonempty in Et. congruence.
      * cbn [tailText]. now rewrite app_nil_r_s.
  - destruct (tailText (k :: ks)) as [|c t] eqn:Et.
    + apply tailText_nil in Et. discriminate.
    + change (tailText (l :: k :: ks)) with (nl ++ l ++ tailText (k :: ks))%string.
      rewrite Et. destruct l; reflexivity.
Qed.

Lemma trimEndLines_Forall (ls : list string) :
  Forall (fun l => noLF l = true) ls -> Forall (fun l => noLF l = true) (trimEndLines ls).
Proof.
  induction ls as [|l ls IH]; intros H; [constructor|].
  inversion H as [|? ? Hl Hls]; subst. cbn [trimEndLines].
  destruct (trimEndLines ls) as [|k ks].
  - destruct (allSpace l); constructor; [|constructor].
    destruct (trimEnd_split l) as (w & Hw & _). rewrite Hw in Hl.
    unfold noLF in *. rewrite allChars_app in Hl. now apply andb_prop in Hl as [Hl _].
  - constructor; [exact Hl|now apply IH].
Qed.

Lemma trimEndLines_fixed (ls : list string) :
  forall p, ConfigCleaner.filterLines p ls = ls ->
  ConfigCleaner.filterLines p (trimEndLines ls) = trimEndLines ls.
Proof.
  induction ls as [|l ls IH]; intros p H; [reflexivity|].
  destruct (filterLines_fixed_inv _ _ _ H) as [Hk Hr]. cbn [trimEndLines].
  destruct (trimEndLines ls) as [|k ks] eqn:E.
  - destruct (allSpace l) eqn:El; [reflexivity|].
    rewrite filterLines_cons, nonBlank_allSpace, allSpace_trimEnd, El. reflexivity.
  - rewrite filterLines_cons, Hk. cbn [app]. f_equal. now apply IH.
Qed.

(** A text made of lines that the filter keeps, already trimmed, is left as
    it is. *)
Lemma cleanAndFormat_lines (ls : list string) :
  ls <> [] -> Forall (fun l => noLF l = true) ls ->
  ConfigCleaner.filterLines None ls = ls ->
  Js.trim (joinL ls) = joinL ls ->
  ConfigCleaner.cleanAndFormat (joinL ls) = joinL ls.
Proof.
  intros Hne Hnl Hfix Htrim. unfold ConfigCleaner.cleanAndFormat.
  change (Js.join (String Js.LF EmptyString)) with joinL.
  now rewrite (split_join ls Hne Hnl), Hfix.
Qed.

(** [cleanAndFormat] is idempotent. *)
Lemma cleanAndFormat_idem (s : string) :
  ConfigCleaner.cleanAndFormat (ConfigCleaner.cleanAndFormat s)
  = ConfigCleaner.cleanAndFormat s.
Proof.
  set (F := ConfigCleaner.filterLines None (Js.split Js.LF s)).
  assert (HY : ConfigCleaner.cleanAndFormat s = Js.trim (joinL F)) by reflexivity.
  rewrite HY.
  assert (HF : Forall (fun l => noLF l = true) F).
  { apply filterLines_Forall. apply (split_go_noLF s EmptyString). reflexivity. }
  assert (Hfix : ConfigCleaner.filterLines None F = F) by (now apply filterLines_idem).
  destruct (filterLines_first (Js.split Js.LF s) None eq_refl) as [E|(l & r & E & Hl)];
    fold F in E; rewrite E in *.
  - reflexivity.
  - rewrite nonBlank_allSpace in Hl. apply negb_true_iff in Hl.
    inversion HF as [|? ? Hnl Hnr]; subst.
    destruct (filterLines_fixed_inv _ _ _ Hfix) as [_ Hr].
    set (l' := Js.trimStart l).
    assert (Hl' : allSpace l' = false) by (unfold l'; now rewrite allSpace_trimStart).
    assert (Hnl' : noLF l' = true).
    { destruct (trimStart_split l) as (w & Hw & _). rewrite Hw in Hnl.
      unfold noLF in *. rewrite allChars_app in Hnl. now apply andb_prop in Hnl as [_ Hnl]. }
    assert (Hr' : ConfigCleaner.filterLines (Some l') (trimEndLines r) = trimEndLines r).
    { apply trimEndLines_fixed.
      rewrite (filterLines_pnb r (Some l') (Some l)); [exact Hr|].
      unfold pnb. now rewrite !nonBlank_allSpace, Hl, Hl'. }
    pose proof (trimEndLines_Forall r Hnr) as Hnlr.
    assert (Hne : noLF (Js.trimEnd l') = true).
    { destruct (trimEnd_split l') as (w & Hw & _). rewrite Hw in Hnl'.
      unfold noLF in *. rewrite allChars_app in Hnl'.
      now apply andb_prop in Hnl' as [Hx _]. }
    assert (Hnb : ConfigCleaner.nonBlank (Js.trimEnd l') = true)
      by (now rewrite nonBlank_allSpace, allSpace_trimEnd, Hl').
    (* the trimmed text, as a list of lines *)
    set (G := match trimEndLines r with
              | [] => [Js.trimEnd l']
              | kept => l' :: kept
              end).
    assert (HG : Js.trim (joinL (l :: r)) = joinL G).
    { unfold Js.trim, G. rewrite joinL_cons, (trimStart_app _ _ Hl), trimEnd_app,
        trimEnd_tailText. fold l'.
      destruct (trimEndLines r) as [|k ks] eqn:Er; [reflexivity|].
      rewrite joinL_cons.
      destruct (tailText (k :: ks)) as [|c t] eqn:Et; [|reflexivity].
      apply tailText_nil in Et. discriminate. }
    rewrite HG. apply cleanAndFormat_lines.
    + unfold G. destruct (trimEndLines r); discriminate.
    + unfold G. destruct (trimEndLines r) as [|k ks]; repeat constructor; try assumption.
      * now inversion Hnlr.
      * now inversion Hnlr.
    + unfold G. destruct (trimEndLines r) as [|k ks] eqn:Er.
      * rewrite filterLines_cons, Hnb. reflexivity.
      * rewrite filterLines_cons, nonBlank_allSpace, Hl'. cbn [negb orb app].
        now rewrite Hr'.
    + rewrite <- HG. apply trim_idem.
Qed.

(* ---------------- the states of the pattern ---------------- *)

Section States.
Variable f : Re.flags.
Variable key : string.
Hypothesis Hml : Re.multiline f = true.
Hypothesis Hkey : isWord key = true.

Local Abbreviation weaker := (Shape.weaker f key).
Local Abbreviation removed := (Shape.removed f key).
Local Abbreviation pat := (ConfigCleaner.re_directive key).

Lemma at_eol_cons (c : ascii) (u : string) : Re.at_eol f (String c u) = isLT c.
Proof. unfold Re.at_eol. now rewrite Hml. Qed.

Lemma at_bol_some (c : ascii) : Re.at_bol f (Some c) = isLT c.
Proof. unfold Re.at_bol. now rewrite Hml. Qed.

Lemma starB_here (p : ascii -> bool) (g : string -> bool) (u : string) :
  g u = true -> starB p g u = true.
Proof. intros H. destruct u; simpl; now rewrite H. Qed.

Lemma starB_cons (p : ascii -> bool) (g : string -> bool) (c : ascii) (u : string) :
  p c = true -> starB p g u = true -> starB p g (String c u) = true.
Proof. intros Hp H. simpl. now rewrite Hp, H, orb_true_r. Qed.

Lemma starB_inv (p : ascii -> bool) (g : string -> bool) (u : string) :
  starB p g u = true ->
  g u = true \/ exists c t, u = String c t /\ p c = true /\ starB p g t = true.
Proof.
  destruct u as [|c t]; simpl; intros H.
  - left. now rewrite orb_false_r in H.
  - apply orb_prop in H as [H|H]; [now left|].
    apply andb_prop in H as [H1 H2]. right. eauto.
Qed.

(** A line terminator ends every tail state. *)
Lemma spaces_LT (c : ascii) (u : string) :
  isLT c = true -> spacesThenEol f (String c u) = true.
Proof. intros H. apply starB_here. now rewrite at_eol_cons. Qed.

Lemma tailOK_of_spaces (u : string) : spacesThenEol f u = true -> tailOK f u = true.
Proof. intros H. unfold tailOK. destruct u; [exact H|]. now rewrite H, orb_true_r. Qed.

Lemma tailOK_LT (c : ascii) (u : string) :
  isLT c = true -> tailOK f (String c u) = true.
Proof. intros H. now apply tailOK_of_spaces, spaces_LT. Qed.

Lemma nStar_LT (c : ascii) (u : string) :
  isLT c = true -> nStar f (String c u) = true.
Proof. intros H. now apply starB_here, tailOK_LT. Qed.

Lemma nPlus_nStar (u : string) : nPlus f u = true -> nStar f u = true.
Proof.
  destruct u as [|c t]; [discriminate|]. unfold nPlus, nStar. simpl. intros H.
  now rewrite H, orb_true_r.
Qed.

Lemma sStar_nStar (u : string) : sStar f u = true -> nStar f u = true.
Proof.
  induction u as [|c t IH]; intros H; apply starB_inv in H as [H|(c' & t' & E & Hc & H)].
  - now apply nPlus_nStar.
  - discriminate.
  - now apply nPlus_nStar.
  - injection E as <- <-. apply starB_cons; [now apply space_notSemi|now apply IH].
Qed.

Lemma sPlus_nPlus (u : string) : sPlus f u = true -> nPlus f u = true.
Proof.
  destruct u as [|c t]; [discriminate|]. unfold sPlus, nPlus, plusB. intros H.
  apply andb_prop in H as [Hc H]. fold (sStar f t) in H. fold (nStar f t).
  now rewrite (space_notSemi _ Hc), (sStar_nStar _ H).
Qed.

Lemma wordChar_inv (c : ascii) :
  wordChar c = true -> Js.is_space c = false /\ Ascii.eqb c ";" = false.
Proof.
  unfold wordChar. intros H. apply andb_prop in H as [H1 H2].
  now apply negb_true_iff in H1, H2.
Qed.

Lemma keyAt_nPlus (k : string) :
  allChars wordChar k = true ->
  forall u, keyAt f k u = true -> nPlus f u = true.
Proof.
  induction k as [|b k IH]; intros Hk u H.
  - now apply sPlus_nPlus.
  - cbn [allChars] in Hk. apply andb_prop in Hk as [Hb Hk].
    destruct u as [|a t]; [discriminate|]. cbn [keyAt] in H.
    apply andb_prop in H as [He H].
    destruct (wordChar_inv _ Hb) as [_ Hsemi].
    unfold nPlus, plusB. fold (nStar f t).
    unfold Re.notSemi. rewrite (char_eq_semi _ _ _ He), Hsemi. simpl.
    apply nPlus_nStar. now apply IH.
Qed.

Lemma key_chars : allChars wordChar key = true.
Proof. unfold isWord in Hkey. now apply andb_prop in Hkey as [_ H]. Qed.

Lemma key_cons : exists b k, key = String b k /\ wordChar b = true.
Proof.
  unfold isWord in Hkey. apply andb_prop in Hkey as [H1 H2].
  destruct key as [|b k]; [discriminate|]. cbn [allChars] in H2.
  apply andb_prop in H2 as [Hb _]. eauto.
Qed.

(** The key does not start at a white space character. *)
Lemma keyAt_space (c : ascii) (u : string) :
  Js.is_space c = true -> keyAt f key (String c u) = false.
Proof.
  intros Hc. destruct key_cons as (b & k & -> & Hb). cbn [keyAt].
  destruct (Re.char_eq f b c) eqn:He; [|reflexivity].
  apply char_eq_space in He. destruct (wordChar_inv _ Hb). congruence.
Qed.

Lemma keyAt_nil : keyAt f key EmptyString = false.
Proof. destruct key_cons as (b & k & -> & Hb). reflexivity. Qed.

Lemma wStar_nPlus (u : string) : wStar f key u = true -> nPlus f u = true.
Proof.
  induction u as [|c t IH]; intros H; apply starB_inv in H as [H|(c' & t' & E & Hc & H)].
  - now rewrite keyAt_nil in H.
  - discriminate.
  - now apply (keyAt_nPlus key key_chars).
  - injection E as <- <-. unfold nPlus, plusB. fold (nStar f t).
    rewrite (space_notSemi _ Hc). simpl. now apply nPlus_nStar, IH.
Qed.

Lemma wStarC_wStar (u : string) : wStarC f key u = true -> wStar f key u = true.
Proof.
  induction u as [|c t IH]; intros H; apply starB_inv in H as [H|(c' & t' & E & Hc & H)].
  - now apply starB_here.
  - discriminate.
  - now apply starB_here.
  - injection E as <- <-. apply starB_cons; [|now apply IH].
    unfold lineSpace in Hc. now apply andb_prop in Hc as [Hc _].
Qed.

Lemma wStarC_LT (c : ascii) (u : string) : isLT c = true -> wStarC f key (String c u) = false.
Proof.
  intros Hc. unfold wStarC. cbn [starB].
  rewrite (keyAt_space c u (LT_space _ Hc)). unfold lineSpace. now rewrite Hc, andb_false_r.
Qed.

Lemma wStarC_nil : wStarC f key EmptyString = false.
Proof. unfold wStarC. cbn [starB]. now rewrite keyAt_nil. Qed.

(* ---------------- comparing two continuations of a text ---------------- *)


Lemma starB_cons_inv (p : ascii -> bool) (g : string -> bool) (c : ascii) (u : string) :
  starB p g (String c u) = true ->
  g (String c u) = true \/ (p c = true /\ starB p g u = true).
Proof.
  intros H. apply starB_inv in H as [H|(c' & t' & E & Hc & H)]; [now left|].
  injection E as <- <-. now right.
Qed.

Lemma weaker_cons (a : ascii) (u v : string) :
  weaker u v -> weaker (String a u) (String a v).
Proof.
  intros (Hsp & Htl & Hns & Hnp & Hss & Hk & Hw).
  assert (Hsp' : spacesThenEol f (String a u) = true -> spacesThenEol f (String a v) = true).
  { intros H. apply starB_cons_inv in H as [H|[Hc H]].
    - apply starB_here. now rewrite at_eol_cons in *.
    - apply starB_cons; [exact Hc|now apply Hsp]. }
  assert (Htl' : tailOK f (String a u) = true -> tailOK f (String a v) = true).
  { unfold tailOK. intros H. apply orb_prop in H as [H|H].
    - apply andb_prop in H as [H1 H2]. now rewrite H1, (Hsp H2).
    - now rewrite (Hsp' H), orb_true_r. }
  assert (Hns' : nStar f (String a u) = true -> nStar f (String a v) = true).
  { intros H. apply starB_cons_inv in H as [H|[Hc H]].
    - apply starB_here. now apply Htl'.
    - apply starB_cons; [exact Hc|now apply Hns]. }
  assert (Hnp' : nPlus f (String a u) = true -> nPlus f (String a v) = true).
  { unfold nPlus, plusB. intros H. apply andb_prop in H as [H1 H2].
    rewrite H1. simpl. now apply Hns. }
  assert (Hss' : sStar f (String a u) = true -> sStar f (String a v) = true).
  { intros H. apply starB_cons_inv in H as [H|[Hc H]].
    - apply starB_here. now apply Hnp'.
    - apply starB_cons; [exact Hc|now apply Hss]. }
  assert (Hk' : forall k, allChars wordChar k = true ->
                          keyAt f k (String a u) = true -> keyAt f k (String a v) = true).
  { intros k Hwk H. destruct k as [|b k].
    - cbn [keyAt] in *. unfold sPlus, plusB in *. apply andb_prop in H as [H1 H2].
      rewrite H1. simpl. now apply Hss.
    - cbn [keyAt allChars] in *. apply andb_prop in Hwk as [_ Hwk].
      apply andb_prop in H as [H1 H2]. rewrite H1. simpl. now apply Hk. }
  repeat split; try assumption.
  intros H. apply starB_cons_inv in H as [H|[Hc H]].
  - apply starB_here. apply Hk'; [apply key_chars|exact H].
  - apply starB_cons; [exact Hc|now apply Hw].
Qed.

Lemma weaker_app (a u v : string) : weaker u v -> weaker (a ++ u) (a ++ v).
Proof. intros H. induction a as [|c a IH]; [exact H|]. cbn [append]. now apply weaker_cons. Qed.

Lemma keyAt_LT (k : string) (c : ascii) (u v : string) :
  allChars wordChar k = true -> isLT c = true -> sStar f v = true ->
  keyAt f k (String c u) = true -> keyAt f k (String c v) = true.
Proof.
  intros Hk Hc Hv H. destruct k as [|b k].
  - cbn [keyAt] in *. unfold sPlus, plusB. unfold sStar in Hv.
    now rewrite (LT_space _ Hc), Hv.
  - cbn [keyAt allChars] in *. apply andb_prop in Hk as [Hb _].
    apply andb_prop in H as [He _]. apply char_eq_space in He.
    destruct (wordChar_inv _ Hb). rewrite (LT_space _ Hc) in He. congruence.
Qed.

(** After a line terminator, a text that starts a match is as good as any
    other text. *)
Lemma weaker_LT (c : ascii) (u v : string) :
  isLT c = true -> nPlus f v = true -> weaker (String c u) (String c v).
Proof.
  intros Hc Hv.
  assert (Hnp : nPlus f (String c v) = true).
  { unfold nPlus, plusB. rewrite (space_notSemi _ (LT_space _ Hc)). simpl.
    now apply nPlus_nStar. }
  repeat split; intros.
  - now apply spaces_LT.
  - now apply tailOK_LT.
  - now apply nStar_LT.
  - exact Hnp.
  - now apply starB_here.
  - apply (keyAt_LT k c u v); try assumption. now apply starB_here.
  - now rewrite wStarC_LT in H.
Qed.

(* ---------------- texts without a match ---------------- *)

Lemma cleanPrefix_app (prev : option ascii) (a b rest : string) :
  cleanPrefix f key prev (a ++ b) rest
  <-> cleanPrefix f key prev a (b ++ rest) /\ cleanPrefix f key (lastChar prev a) b rest.
Proof.
  revert prev. induction a as [|c a IH]; intros prev.
  - simpl. tauto.
  - cbn [append cleanPrefix]. rewrite lastChar_cons, IH, app_assoc_s. tauto.
Qed.

Lemma cleanPrefix_weaker (u v : string) :
  weaker u v ->
  forall a prev, cleanPrefix f key prev a v -> cleanPrefix f key prev a u.
Proof.
  intros Hw. induction a as [|c a IH]; intros prev; [trivial|].
  cbn [cleanPrefix]. intros [H1 H2]. split; [|now apply IH].
  unfold canonB in *. destruct (Re.at_bol f prev); [|reflexivity].
  cbn [andb] in *.
  destruct (wStarC f key (String c a ++ u)) eqn:E; [|reflexivity].
  destruct (weaker_app (String c a) u v Hw) as (_ & _ & _ & _ & _ & _ & Hc).
  rewrite (Hc E) in H1. discriminate.
Qed.

Lemma cleanPrefix_first (p q : option ascii) (a rest : string) :
  (forall c t, a = String c t -> isLT c = true) ->
  cleanPrefix f key p a rest -> cleanPrefix f key q a rest.
Proof.
  destruct a as [|c t]; [trivial|]. intros Hc [H1 H2]. split; [|exact H2].
  unfold canonB. cbn [append]. rewrite (wStarC_LT c _ (Hc c t eq_refl)). apply andb_false_r.
Qed.

(* ---------------- the global replacement ---------------- *)

Lemma replace_skip (r : Re.re) (repl : string) (pre rest : string) :
  forall prev,
    Re.replace_go f r repl (String.length pre) prev (pre ++ rest)
    = Re.replace_go f r repl 0 (lastChar prev pre) rest.
Proof.
  induction pre as [|c pre IH]; intros prev; [reflexivity|].
  cbn [append String.length Re.replace_go]. now rewrite IH.
Qed.

Lemma snoc_inv (a : string) :
  a <> EmptyString ->
  exists a0 x, a = (a0 ++ String x EmptyString)%string /\ lastChar None a = Some x.
Proof.
  induction a as [|c a IH]; intros Hne; [contradiction|].
  destruct a as [|d a'].
  - exists EmptyString, c. split; reflexivity.
  - destruct IH as (a0 & x & E & Hl); [discriminate|].
    exists (String c a0), x. split.
    + cbn [append]. now rewrite <- E.
    + rewrite lastChar_cons. rewrite <- Hl. reflexivity.
Qed.

Lemma lastChar_none_some (c : ascii) (a : string) :
  a <> EmptyString -> lastChar (Some c) a = lastChar None a.
Proof. destruct a as [|d a]; [contradiction|reflexivity]. Qed.


Lemma exec_none_canon (prev : option ascii) (u : string) :
  Re.exec f pat prev u = None -> canonB f key prev u = false.
Proof.
  intros E. pose proof (exec_matchB f key prev u) as H. fold pat in H. rewrite E in H.
  simpl in H. unfold matchB in H. unfold canonB.
  destruct (Re.at_bol f prev); [|reflexivity]. simpl in *.
  destruct (wStarC f key u) eqn:Hc; [|reflexivity].
  rewrite (wStarC_wStar _ Hc) in H. discriminate.
Qed.

Lemma exec_some_match (prev : option ascii) (u rest : string) :
  Re.exec f pat prev u = Some rest ->
  Re.at_bol f prev = true /\ wStar f key u = true.
Proof.
  intros E. pose proof (exec_matchB f key prev u) as H. fold pat in H. rewrite E in H.
  simpl in H. unfold matchB in H. symmetry in H. now apply andb_prop in H.
Qed.

(** Removing the matches of a text leaves a text without a match. *)
Lemma removed_clean (n : nat) :
  forall s, String.length s <= n ->
  forall L prev,
    (prev = lastChar None L
     \/ (Re.at_bol f (lastChar None L) = true /\ Re.at_eol f s = true)) ->
    cleanPrefix f key None L s ->
    cleanPrefix f key None (L ++ removed prev s) EmptyString.
Proof.
  induction n as [|n IH]; intros s Hlen L prev Hctx Hclean.
  - destruct s; [|simpl in Hlen; lia].
    unfold Shape.removed. cbn [Re.replace_go].
    destruct (Re.exec f pat prev EmptyString); now rewrite app_nil_r_s.
  - destruct s as [|c t].
    + unfold Shape.removed. cbn [Re.replace_go].
      destruct (Re.exec f pat prev EmptyString); now rewrite app_nil_r_s.
    + unfold Shape.removed. unfold Re.replace_go; fold Re.replace_go.
      destruct (Re.exec f pat prev (String c t)) as [rest|] eqn:E.
      * destruct (exec_directive_sound f key _ _ _ E) as (c0 & M & Es & Heol).
        cbn [append] in Es. injection Es as <- Et.
        destruct (exec_some_match _ _ _ E) as [Hbol Hw].
        assert (Hl : String.length (String c t) - String.length rest = S (String.length M)).
        { rewrite Et. cbn [String.length]. rewrite length_app_s. lia. }
        rewrite Hl. cbn [append]. rewrite Et, replace_skip.
        fold (removed (lastChar (Some c) M) rest).
        assert (HbolL : Re.at_bol f (lastChar None L) = true).
        { destruct Hctx as [<-|[Hb _]]; assumption. }
        apply IH.
        -- simpl in Hlen. rewrite Et, length_app_s in Hlen. lia.
        -- right. split; assumption.
        -- destruct L as [|x L'] eqn:EL; [exact I|]. rewrite <- EL in *.
           destruct (snoc_inv L) as (L0 & y & -> & Hy); [rewrite EL; discriminate|].
           rewrite Hy, at_bol_some in HbolL.
           apply cleanPrefix_app in Hclean as [Hc1 _].
           apply cleanPrefix_app. split.
           ++ cbn [append] in *.
              apply (cleanPrefix_weaker (String y rest) (String y (String c t))).
              ** apply weaker_LT; [exact HbolL|]. now apply wStar_nPlus.
              ** exact Hc1.
           ++ cbn [cleanPrefix]. split; [|exact I].
              unfold canonB. cbn [append]. rewrite (wStarC_LT y _ HbolL). apply andb_false_r.
      * cbn [append].
        replace (L ++ String c (Re.replace_go f pat EmptyString 0 (Some c) t))%string
          with ((L ++ String c EmptyString) ++ removed (Some c) t)%string
          by (now rewrite app_assoc_s).
        apply IH.
        -- simpl in Hlen. lia.
        -- left. now rewrite lastChar_app.
        -- apply cleanPrefix_app. split; [exact Hclean|].
           cbn [cleanPrefix]. split; [|exact I]. cbn [append].
           destruct Hctx as [->|[_ Heol]].
           ++ now apply exec_none_canon.
           ++ rewrite at_eol_cons in Heol. unfold canonB.
              rewrite (wStarC_LT c _ Heol). apply andb_false_r.
Qed.

(** A match can be moved to the line of its key. *)
Lemma wStar_shift (u : string) :
  wStar f key u = true ->
  wStarC f key u = true
  \/ exists a c u', u = (a ++ String c u')%string /\ isLT c = true /\ wStarC f key u' = true.
Proof.
  induction u as [|c t IH]; intros H; apply starB_inv in H as [H|(c' & t' & E & Hc & H)].
  - left. now apply starB_here.
  - discriminate.
  - left. now apply starB_here.
  - injection E as <- <-. destruct (IH H) as [Hl|(a & d & u' & -> & Hd & Hu)].
    + destruct (isLT c) eqn:Elt.
      * right. exists EmptyString, c, t. repeat split; assumption.
      * left. apply starB_cons; [|exact Hl]. unfold lineSpace. now rewrite Hc, Elt.
    + right. exists (String c a), d, u'. repeat split; assumption.
Qed.

Lemma cleanPrefix_at (prev : option ascii) (x1 : string) (c : ascii) (x2 rest : string) :
  cleanPrefix f key prev (x1 ++ String c x2) rest ->
  canonB f key (lastChar prev x1) (String c x2 ++ rest) = false.
Proof. intros H. apply cleanPrefix_app in H as [_ H]. now destruct H. Qed.

Lemma noMatch_of_clean (x2 : string) :
  forall x1,
    cleanPrefix f key None (x1 ++ x2) EmptyString ->
    noMatch f key (lastChar None x1) x2.
Proof.
  induction x2 as [|c t IH]; intros x1 H.
  - cbn [noMatch]. split; [|exact I].
    destruct (Re.exec f (ConfigCleaner.re_directive key) (lastChar None x1) EmptyString)
      as [rest|] eqn:E; [|reflexivity].
    destruct (exec_some_match _ _ _ E) as [_ Hw]. unfold wStar in Hw. cbn [starB] in Hw.
    now rewrite keyAt_nil in Hw.
  - cbn [noMatch]. split.
    + destruct (Re.exec f (ConfigCleaner.re_directive key) (lastChar None x1) (String c t))
        as [rest|] eqn:E; [|reflexivity]. exfalso.
      destruct (exec_some_match _ _ _ E) as [Hbol Hw].
      destruct (wStar_shift _ Hw) as [Hc|(a & d & u' & Eu & Hd & Hu)].
      * pose proof (cleanPrefix_at _ _ _ _ _ H) as Hk. rewrite app_nil_r_s in Hk.
        unfold canonB in Hk. now rewrite Hbol, Hc in Hk.
      * destruct u' as [|e u'']; [now rewrite wStarC_nil in Hu|].
        rewrite Eu in H.
        replace (x1 ++ a ++ String d (String e u''))%string
          with ((x1 ++ a ++ String d EmptyString) ++ String e u'')%string in H
          by (now rewrite !app_assoc_s).
        pose proof (cleanPrefix_at _ _ _ _ _ H) as Hk. rewrite app_nil_r_s in Hk.
        rewrite !lastChar_app in Hk. cbn [lastChar list_ascii_of_string fold_left] in Hk.
        unfold canonB in Hk. now rewrite at_bol_some, Hd, Hu in Hk.
    + replace (Some c) with (lastChar None (x1 ++ String c EmptyString))
        by (now rewrite lastChar_app).
      apply IH. now rewrite app_assoc_s.
Qed.

(** A text without a match is left as it is. *)
Lemma removed_noMatch (s : string) :
  forall prev, noMatch f key prev s -> removed prev s = s.
Proof.
  induction s as [|c t IH]; intros prev [E H]; unfold Shape.removed; cbn [Re.replace_go];
    fold pat in E; rewrite E; [reflexivity|].
  f_equal. now apply IH.
Qed.

(* ---------------- the normalisation keeps a text free of matches ---------------- *)

Lemma spaces_all (w : string) : allSpace w = true -> spacesThenEol f w = true.
Proof.
  induction w as [|c w IH]; intros H; [reflexivity|].
  unfold allSpace in *. cbn [allChars] in H. apply andb_prop in H as [Hc Hw].
  apply starB_cons; [exact Hc|now apply IH].
Qed.

Lemma tailOK_eol (u : string) : Re.at_eol f u = true -> tailOK f u = true.
Proof. intros H. now apply tailOK_of_spaces, starB_here. Qed.

Lemma nStar_absorb (w u : string) :
  allSpace w = true -> Re.at_eol f u = true -> nStar f (w ++ u) = true.
Proof.
  intros Hw Hu. induction w as [|c w IH].
  - now apply starB_here, tailOK_eol.
  - unfold allSpace in *. cbn [allChars append] in *. apply andb_prop in Hw as [Hc Hw].
    apply starB_cons; [now apply space_notSemi|now apply IH].
Qed.

Lemma sStar_absorb (w u : string) :
  allSpace w = true -> sStar f u = true -> sStar f (w ++ u) = true.
Proof.
  intros Hw Hu. induction w as [|c w IH]; [exact Hu|].
  unfold allSpace in *. cbn [allChars append] in *. apply andb_prop in Hw as [Hc Hw].
  apply starB_cons; [exact Hc|now apply IH].
Qed.

Lemma wStar_absorb (w u : string) :
  allSpace w = true -> wStar f key u = true -> wStar f key (w ++ u) = true.
Proof.
  intros Hw Hu. induction w as [|c w IH]; [exact Hu|].
  unfold allSpace in *. cbn [allChars append] in *. apply andb_prop in Hw as [Hc Hw].
  apply starB_cons; [exact Hc|now apply IH].
Qed.

Lemma at_eol_inv (u : string) :
  Re.at_eol f u = true -> u = EmptyString \/ exists c t, u = String c t /\ isLT c = true.
Proof. destruct u as [|c t]; [now left|]. rewrite at_eol_cons. right. eauto. Qed.

Lemma wStarC_eol (u : string) : Re.at_eol f u = true -> wStarC f key u = false.
Proof.
  intros H. destruct (at_eol_inv _ H) as [->|(c & t & -> & Hc)].
  - apply wStarC_nil.
  - now apply wStarC_LT.
Qed.

Lemma keyAt_eol (k : string) (u : string) :
  allChars wordChar k = true -> k <> EmptyString -> Re.at_eol f u = true ->
  keyAt f k u = false.
Proof.
  intros Hk Hne Hu. destruct k as [|b k]; [contradiction|].
  destruct (at_eol_inv _ Hu) as [->|(c & t & -> & Hc)]; [reflexivity|].
  cbn [keyAt allChars] in *. apply andb_prop in Hk as [Hb _].
  destruct (Re.char_eq f b c) eqn:He; [|reflexivity].
  apply char_eq_space in He. destruct (wordChar_inv _ Hb).
  rewrite (LT_space _ Hc) in He. congruence.
Qed.

(** White space put in front of the end of a line, starting with a line
    terminator, does not lose a match. *)
Lemma weaker_blank (b : ascii) (w u : string) :
  isLT b = true -> allSpace w = true -> Re.at_eol f u = true ->
  weaker u (String b (w ++ u)).
Proof.
  intros Hb Hw Hu.
  assert (Hnp : nPlus f (String b (w ++ u)) = true).
  { unfold nPlus, plusB. rewrite (space_notSemi _ (LT_space _ Hb)). simpl.
    now apply nStar_absorb. }
  repeat split; intros.
  - now apply spaces_LT.
  - now apply tailOK_LT.
  - now apply nStar_LT.
  - exact Hnp.
  - now apply starB_here.
  - destruct k as [|a k].
    + cbn [keyAt] in *. unfold sPlus, plusB in *.
      destruct u as [|c t]; [discriminate|]. apply andb_prop in H0 as [Hc Ht].
      rewrite (LT_space _ Hb). simpl.
      apply (sStar_absorb w (String c t) Hw). now apply starB_cons.
    + rewrite keyAt_eol in H0; [discriminate|assumption|discriminate|assumption].
  - now rewrite wStarC_eol in H.
Qed.

(** White space put at the end of the text does not lose a match. *)
Lemma weaker_trailing (w : string) : allSpace w = true -> weaker EmptyString w.
Proof.
  intros Hw. repeat split; intros.
  - now apply spaces_all.
  - now apply tailOK_of_spaces, spaces_all.
  - now apply starB_here, tailOK_of_spaces, spaces_all.
  - discriminate.
  - discriminate.
  - destruct k; discriminate.
  - now rewrite wStarC_nil in H.
Qed.

Lemma cleanPrefix_bol (p q : option ascii) (a rest : string) :
  Re.at_bol f p = Re.at_bol f q ->
  cleanPrefix f key p a rest -> cleanPrefix f key q a rest.
Proof.
  destruct a as [|c t]; [trivial|]. intros Hpq [H1 H2]. split; [|exact H2].
  unfold canonB in *. now rewrite <- Hpq.
Qed.

Lemma delete_blank (a : string) (b : ascii) (w u : string) (prev : option ascii) :
  isLT b = true -> allSpace w = true -> Re.at_eol f u = true ->
  cleanPrefix f key prev (a ++ String b w ++ u) EmptyString ->
  cleanPrefix f key prev (a ++ u) EmptyString.
Proof.
  intros Hb Hw Hu H.
  apply cleanPrefix_app in H as [H1 H2]. apply cleanPrefix_app in H2 as [_ H3].
  apply cleanPrefix_app. split.
  - apply (cleanPrefix_weaker (u ++ EmptyString) ((String b w ++ u) ++ EmptyString));
      [|exact H1].
    rewrite !app_nil_r_s. cbn [append]. now apply weaker_blank.
  - apply (cleanPrefix_first (lastChar (lastChar prev a) (String b w))); [|exact H3].
    intros c t ->. now rewrite at_eol_cons in Hu.
Qed.

Lemma LF_isLT : isLT Js.LF = true.
Proof. reflexivity. Qed.

Lemma tailText_eol (ls : list string) : Re.at_eol f (tailText ls) = true.
Proof.
  destruct (tailText_LF ls) as [->|(t & ->)]; [reflexivity|].
  rewrite at_eol_cons. apply LF_isLT.
Qed.

(** Dropping blank lines after a kept line. *)
Lemma filter_clean_rest (ls : list string) :
  forall prevLine kept,
    cleanPrefix f key None (kept ++ tailText ls) EmptyString ->
    cleanPrefix f key None (kept ++ tailText (ConfigCleaner.filterLines prevLine ls))
      EmptyString.
Proof.
  induction ls as [|l ls IH]; intros prevLine kept H; [exact H|].
  cbn [ConfigCleaner.filterLines].
  set (keep := if ConfigCleaner.nonBlank l then true
               else match prevLine with
                    | Some p => ConfigCleaner.nonBlank p
                    | None => false
                    end).
  destruct keep eqn:Ek.
  - cbn [app tailText]. cbn [tailText] in H.
    rewrite <- !app_assoc_s. apply IH. now rewrite !app_assoc_s.
  - cbn [app]. apply IH.
    assert (Hl : allSpace l = true).
    { apply blank_allSpace. subst keep. now destruct (ConfigCleaner.nonBlank l). }
    cbn [tailText] in H. unfold nl in H. cbn [append] in H.
    apply (delete_blank kept Js.LF l (tailText ls) None LF_isLT Hl (tailText_eol ls)).
    cbn [append]. exact H.
Qed.

(** Dropping the blank lines in front of the first kept line. *)
Lemma filter_clean (ls : list string) :
  forall prevLine,
    match prevLine with Some p => ConfigCleaner.nonBlank p | None => false end = false ->
    cleanPrefix f key None (joinL ls) EmptyString ->
    cleanPrefix f key None (joinL (ConfigCleaner.filterLines prevLine ls)) EmptyString.
Proof.
  induction ls as [|l ls IH]; intros prevLine Hp H; [exact H|].
  cbn [ConfigCleaner.filterLines]. rewrite Hp.
  destruct (ConfigCleaner.nonBlank l) eqn:El.
  - cbn [app]. rewrite joinL_cons in *. now apply filter_clean_rest.
  - cbn [app]. apply IH; [exact El|].
    destruct ls as [|l2 ls]; [exact I|].
    rewrite joinL_cons in H. cbn [tailText] in H. rewrite <- joinL_cons in H.
    rewrite <- !app_assoc_s in H.
    apply cleanPrefix_app in H as [_ H].
    apply (cleanPrefix_bol (lastChar None (l ++ nl))); [|exact H].
    rewrite lastChar_app. unfold nl. rewrite lastChar_cons.
    cbn [lastChar list_ascii_of_string fold_left]. now rewrite at_bol_some.
Qed.

Lemma trimStart_clean (s : string) :
  cleanPrefix f key None s EmptyString ->
  cleanPrefix f key None (Js.trimStart s) EmptyString.
Proof.
  intros H. destruct (trimStart_split s) as (w & Hs & Hw).
  pose proof (noMatch_of_clean s EmptyString H) as Hno.
  rewrite Hs in H. apply cleanPrefix_app in H as [_ H].
  destruct (Js.trimStart s) as [|c t] eqn:E; [exact I|].
  destruct H as [_ H2]. split; [|exact H2].
  unfold canonB. cbn [Re.at_bol andb]. rewrite app_nil_r_s.
  destruct (wStarC f key (String c t)) eqn:Ec; [|reflexivity]. exfalso.
  destruct s as [|d s']; [discriminate|].
  destruct Hno as [Hno _]. cbn [lastChar list_ascii_of_string fold_left] in Hno.
  pose proof (exec_matchB f key None (String d s')) as Hm. rewrite Hno in Hm.
  unfold matchB in Hm. cbn [Re.at_bol andb isSome] in Hm.
  rewrite Hs, (wStar_absorb w _ Hw (wStarC_wStar _ Ec)) in Hm. discriminate.
Qed.

Lemma trimEnd_clean (s : string) :
  cleanPrefix f key None s EmptyString ->
  cleanPrefix f key None (Js.trimEnd s) EmptyString.
Proof.
  intros H. destruct (trimEnd_split s) as (w & Hs & Hw).
  rewrite Hs in H. apply cleanPrefix_app in H as [H _].
  apply (cleanPrefix_weaker EmptyString (w ++ EmptyString)); [|exact H].
  rewrite app_nil_r_s. now apply weaker_trailing.
Qed.

(** [cleanAndFormat] keeps a text free of matches. *)
Lemma cleanAndFormat_clean (s : string) :
  cleanPrefix f key None s EmptyString ->
  cleanPrefix f key None (ConfigCleaner.cleanAndFormat s) EmptyString.
Proof.
  intros H. unfold ConfigCleaner.cleanAndFormat, Js.trim.
  apply trimEnd_clean, trimStart_clean.
  change (Js.join (String Js.LF EmptyString)) with joinL.
  apply filter_clean; [reflexivity|]. now rewrite join_split.
Qed.

(** One removal with the pattern of the key, then the normalisation, is
    stable under a second removal. *)
Lemma cleaned_stable (t : string) :
  let r := ConfigCleaner.cleanAndFormat (Re.replace f pat EmptyString t) in
  ConfigCleaner.cleanAndFormat (Re.replace f pat EmptyString r) = r
  /\ (Js.isEmpty (Js.trim r) = true -> r = EmptyString).
Proof.
  intros r.
  assert (Hclean : cleanPrefix f key None r EmptyString).
  { apply cleanAndFormat_clean.
    apply (removed_clean (String.length t) t (le_n _) EmptyString None); [now left|exact I]. }
  pose proof (noMatch_of_clean r EmptyString Hclean) as Hno.
  split.
  - unfold Re.replace. fold (removed None r).
    rewrite (removed_noMatch r None Hno). apply cleanAndFormat_idem.
  - intros He. assert (Ht : Js.trim r = r) by apply trim_idem.
    rewrite Ht in He. now destruct r.
Qed.
End States.

Lemma prefix_app (p s : string) : String.prefix p s = true -> exists r, s = (p ++ r)%string.
Proof.
  revert s. induction p as [|a p IH]; intros s H.
  - exists s. reflexivity.
  - destruct s as [|b s]; [discriminate|]. cbn [String.prefix] in H.
    destruct (ascii_dec a b) as [->|]; [|discriminate].
    destruct (IH s H) as (r & ->). exists r. reflexivity.
Qed.

Lemma word_no_prefix (p key : string) :
  allChars wordChar p = false -> isWord key = true -> Js.startsWith key p = false.
Proof.
  intros Hp Hk. unfold Js.startsWith.
  destruct (String.prefix p key) eqn:E; [|reflexivity].
  destruct (prefix_app _ _ E) as (r & ->).
  unfold isWord in Hk. apply andb_prop in Hk as [_ Hk].
  rewrite allChars_app, Hp in Hk. discriminate.
Qed.

(** For a key that is a word, [removeDirective] is one global replacement
    with the pattern of the key, under flags with [m], then
    [cleanAndFormat]. *)
Lemma removeDirective_word (key : string) :
  isWord key = true ->
  ConfigCleaner.inherited key = None ->
  exists f, Re.multiline f = true /\
    forall t,
      ConfigCleaner.removeDirective t key
      = if Js.isEmpty (Js.trim t) then EmptyString
        else ConfigCleaner.cleanAndFormat
               (Re.replace f (ConfigCleaner.re_directive key) EmptyString t).
Proof.
  intros Hk Hown.
  assert (H1 : Js.startsWith key "add_header " = false)
    by (apply word_no_prefix; [reflexivity|exact Hk]).
  assert (H2 : Js.startsWith key "proxy_set_header " = false)
    by (apply word_no_prefix; [reflexivity|exact Hk]).
  unfold ConfigCleaner.removeDirective. rewrite H1, H2, Hown.
  unfold ConfigCleaner.DIRECTIVE_PATTERNS.
  destruct (existsb (String.eqb key) ConfigCleaner.DIRECTIVE_KEYS).
  - exists Re.gm. split; [reflexivity|]. intros t. reflexivity.
  - exists Re.gim. split; [reflexivity|]. intros t. reflexivity.
Qed.

(** For every text and every key that is a single word (not
    empty, without white space and without a semicolon) and is not the name
    of a property that the pattern table inherits from [Object.prototype],
    removing the key's directives a second time changes nothing: the first
    result has no line left that the key's pattern matches, and it is
    already in the normalised form. *)
Theorem removeDirective_idempotent_for_words (t key : string) :
  isWord key = true ->
  ConfigCleaner.inherited key = None ->
  ConfigCleaner.removeDirective (ConfigCleaner.removeDirective t key) key
  = ConfigCleaner.removeDirective t key.
Proof.
  intros Hk Hown. destruct (removeDirective_word key Hk Hown) as (f & Hml & Hrd).
  rewrite (Hrd t). destruct (Js.isEmpty (Js.trim t)) eqn:Et.
  - rewrite Hrd. reflexivity.
  - rewrite Hrd.
    destruct (cleaned_stable f key Hml Hk t) as [Hst Hem].
    destruct (Js.isEmpty (Js.trim (ConfigCleaner.cleanAndFormat
                (Re.replace f (ConfigCleaner.re_directive key) EmptyString t)))) eqn:Er.
    + symmetry. now apply Hem.
    + exact Hst.
Qed.

Lemma removeDirective_idempotent_for_words_example :
  isWord "ssl_protocols" = true
  /\ ConfigCleaner.inherited "ssl_protocols" = None
  /\ ConfigCleaner.removeDirective
       (ConfigCleaner.removeDirective Sample.protocolsText "ssl_protocols")
       "ssl_protocols"
     = ConfigCleaner.removeDirective Sample.protocolsText "ssl_protocols".
Proof.
  split; [reflexivity|]. split; [reflexivity|].
  apply (removeDirective_idempotent_for_words Sample.protocolsText "ssl_protocols");
    reflexivity.
Defined.

(* ---------------- a key inside a longer name ---------------- *)

Section OneLine.
Variable f : Re.flags.
Variable key : string.
Hypothesis Hml : Re.multiline f = true.
Hypothesis Hkey : isWord key = true.

(** After the key the pattern wants white space. *)
Lemma keyAt_skip (k : string) :
  forall k2 u, String.length k2 = String.length k ->
    keyAt f k (k2 ++ u)%string = true -> sPlus f u = true.
Proof.
  induction k as [|a k IH]; intros k2 u Hlen H.
  - destruct k2; [exact H|discriminate].
  - destruct k2 as [|b k2]; [discriminate|]. cbn [append keyAt] in H.
    apply andb_prop in H as [_ H]. injection Hlen as Hlen. now apply (IH k2).
Qed.

(** No match starts after a character that ends no line. *)
Lemma noMatch_inside (s : string) :
  forall prev, Re.at_bol f prev = false -> allChars notLT s = true ->
    noMatch f key prev s.
Proof.
  induction s as [|c t IH]; intros prev Hb Hs; cbn [noMatch].
  - split; [|exact I].
    destruct (Re.exec f (ConfigCleaner.re_directive key) prev EmptyString) eqn:E;
      [|reflexivity].
    pose proof (exec_matchB f key prev EmptyString) as HM. rewrite E in HM.
    unfold matchB in HM. rewrite Hb in HM. discriminate HM.
  - cbn [allChars] in Hs. apply andb_prop in Hs as [Hc Hs]. split.
    + destruct (Re.exec f (ConfigCleaner.re_directive key) prev (String c t)) eqn:E;
        [|reflexivity].
      pose proof (exec_matchB f key prev (String c t)) as HM. rewrite E in HM.
      unfold matchB in HM. rewrite Hb in HM. discriminate HM.
    + apply IH; [|exact Hs]. rewrite (at_bol_some f Hml).
      unfold notLT in Hc. now apply negb_true_iff in Hc.
Qed.

Lemma noMatch_longer_name (c : ascii) (rest : string) :
  Js.is_space c = false ->
  allChars notLT (key ++ String c rest)%string = true ->
  noMatch f key None (key ++ String c rest)%string.
Proof.
  intros Hc Hs.
  assert (Hw : wStar f key (key ++ String c rest)%string = false).
  { destruct (wStar f key (key ++ String c rest)%string) eqn:E; [|reflexivity].
    unfold wStar in E. apply starB_inv in E as [E|(b & t & Eb & Hsp & _)].
    - apply (keyAt_skip key key (String c rest) eq_refl) in E.
      unfold sPlus, plusB in E. rewrite Hc in E. discriminate E.
    - destruct (key_cons key Hkey) as (b' & k & Ek & Hb'). rewrite Ek in Eb.
      cbn [append] in Eb. injection Eb as <- _.
      destruct (wordChar_inv _ Hb') as [Hns _]. congruence. }
  destruct (key_cons key Hkey) as (b & k & Ek & Hb).
  assert (E0 : Re.exec f (ConfigCleaner.re_directive key) None (key ++ String c rest)%string = None).
  { destruct (Re.exec f (ConfigCleaner.re_directive key) None (key ++ String c rest)%string) eqn:E;
      [|reflexivity].
    pose proof (exec_matchB f key None (key ++ String c rest)%string) as HM. rewrite E in HM.
    unfold matchB in HM. rewrite Hw, andb_false_r in HM. discriminate HM. }
  assert (El : (key ++ String c rest = String b (k ++ String c rest))%string)
    by (rewrite Ek at 1; reflexivity).
  rewrite El in *. cbn [allChars noMatch] in *.
  apply andb_prop in Hs as [Hbl Hs]. split; [exact E0|].
  apply noMatch_inside; [|exact Hs]. rewrite (at_bol_some f Hml).
  unfold notLT in Hbl. now apply negb_true_iff in Hbl.
Qed.
End OneLine.

Lemma notLT_noLF (s : string) : allChars notLT s = true -> noLF s = true.
Proof.
  unfold noLF. induction s as [|c t IH]; [reflexivity|]. cbn [allChars]. intros H.
  apply andb_prop in H as [Hc H]. rewrite (IH H), andb_true_r.
  destruct (Ascii.eqb c Js.LF) eqn:E; [|reflexivity].
  apply Ascii.eqb_eq in E. subst c. discriminate Hc.
Qed.

(** The normalisation leaves a trimmed line with text as it is. *)
Lemma cleanAndFormat_line (l : string) :
  noLF l = true -> Js.trim l = l -> l <> EmptyString ->
  ConfigCleaner.cleanAndFormat l = l.
Proof.
  intros Hl Ht Hne. unfold ConfigCleaner.cleanAndFormat, Js.split.
  rewrite <- (app_nil_r_s l) at 1. rewrite (split_go_line l EmptyString Hl).
  cbn [append Js.split_go ConfigCleaner.filterLines]. unfold ConfigCleaner.nonBlank.
  rewrite Ht. destruct l as [|c t]; [contradiction|]. cbn [Js.isEmpty negb app Js.join].
  exact Ht.
Qed.

(** C5.  The cleaner does not match a key inside a longer directive name.
    For every key that is a single word (and no inherited property name of
    the pattern table) and every one-line, trimmed text that starts with the
    key followed by a character that is not white space, removing the key
    leaves the text as it is: the pattern wants white space right after the
    key.  The line [ssl_session_cache shared:SSL:10m;] with the key [ssl] is
    the instance below. *)
Theorem C5_no_cross_match_for_words (key : string) (c : ascii) (rest : string) :
  isWord key = true ->
  ConfigCleaner.inherited key = None ->
  Js.is_space c = false ->
  allChars notLT (key ++ String c rest)%string = true ->
  Js.trim (key ++ String c rest)%string = (key ++ String c rest)%string ->
  ConfigCleaner.removeDirective (key ++ String c rest)%string key
  = (key ++ String c rest)%string.
Proof.
  intros Hk Hown Hc Hs Ht.
  destruct (removeDirective_word key Hk Hown) as (f & Hml & Hrd).
  rewrite Hrd, Ht.
  destruct (key_cons key Hk) as (b & k & Ek & _).
  assert (Hne : (key ++ String c rest)%string <> EmptyString) by (rewrite Ek; discriminate).
  destruct (key ++ String c rest)%string as [|a l] eqn:El; [contradiction|].
  cbn [Js.isEmpty]. rewrite <- El in *. unfold Re.replace.
  fold (removed f key None (key ++ String c rest)%string).
  rewrite (removed_noMatch f key _ _ (noMatch_longer_name f key Hml Hk c rest Hc Hs)).
  apply cleanAndFormat_line; [now apply notLT_noLF|exact Ht|exact Hne].
Qed.

Lemma C5_no_cross_match_for_words_witness :
  isWord "ssl" = true
  /\ ConfigCleaner.inherited "ssl" = None
  /\ ConfigCleaner.removeDirective "ssl_session_cache shared:SSL:10m;" "ssl"
     = "ssl_session_cache shared:SSL:10m;".
Proof.
  split; [reflexivity|]. split; [reflexivity|].
  apply (C5_no_cross_match_for_words "ssl" "_" "session_cache shared:SSL:10m;");
    reflexivity.
Defined.

End ShapeFacts.

(* ================================================================== *)
(** * What the fix engine overwrites for every config *)
(* ================================================================== *)

Module OverwriteFacts.
Import Spec.

Section WithUuid.
Variable uuid : nat -> string.

(** The port-collision resolver touches servers and locations only. *)
Lemma applyForceHttps_blocks (cfg : NginxConfig) (id : string) (n : nat) :
  global (fst (AutoFixService.applyForceHttps uuid cfg id n)) = global cfg
  /\ http (fst (AutoFixService.applyForceHttps uuid cfg id n)) = http cfg.
Proof.
  unfold AutoFixService.applyForceHttps.
  destruct (find _ (servers cfg)); [|now split].
  destruct (AutoFixService.findHttpNode cfg _ id); [|now split].
  match goal with |- context [if ?b then _ else _] => destruct b end; now split.
Qed.

Lemma forceStep_hardened (s : ServerConfig) (st : NginxConfig * nat * list string) :
  hardened (fst (fst st)) -> hardened (fst (fst (AutoFixService.forceStep uuid st s))).
Proof.
  destruct st as [[cur n] w]. unfold AutoFixService.forceStep, hardened. cbn [fst].
  destruct (enabled (ssl s) && forceRedirect (ssl s)); [|tauto].
  destruct (applyForceHttps_blocks cur (s_id s) n) as [Hg Hh].
  destruct (AutoFixService.applyForceHttps uuid cur (s_id s) n) as [cur' n'].
  cbn [fst] in *. now rewrite Hg, Hh.
Qed.

Lemma forceLoop_hardened (l : list ServerConfig) :
  forall st, hardened (fst (fst st)) ->
    hardened (fst (fst (fold_left (AutoFixService.forceStep uuid) l st))).
Proof.
  induction l as [|s l IH]; intros st H; [exact H|].
  cbn [fold_left]. apply IH. now apply forceStep_hardened.
Qed.

Lemma autofix_hardened (cfg : NginxConfig) (n : nat) :
  hardened (fst (fst (AutoFixService.applyAllFixes uuid cfg n))).
Proof.
  unfold AutoFixService.applyAllFixes. apply forceLoop_hardened. split; reflexivity.
Qed.

(** No fix of an audit rule resets the user or the switch. *)
Lemma fix_hardened (rule : Audit.AuditRule) f (cfg : NginxConfig) (a : string) (n : nat) :
  In rule (Audit.auditRules uuid) -> Audit.fix_ rule = Some f ->
  hardened cfg -> hardened (merge cfg (fst (f cfg a n))).
Proof.
  intros Hin Hf [Hu Ht]. unfold Audit.auditRules in Hin.
  repeat (destruct Hin as [<-|Hin];
          [try discriminate Hf; injection Hf as <-|]); try contradiction.
  - split; [exact Hu|reflexivity].
  - destruct (Js.isEmpty a); [now split|].
    destruct (find _ (locations cfg)); now split.
  - unfold Audit.headerFix. destruct (Js.isEmpty a); [now split|].
    destruct (find _ (servers cfg)); [|now split].
    destruct (negb _); now split.
  - unfold Audit.headerFix. destruct (Js.isEmpty a); [now split|].
    destruct (find _ (servers cfg)); [|now split].
    destruct (negb _); now split.
  - unfold Audit.headerFix. destruct (Js.isEmpty a); [now split|].
    destruct (find _ (servers cfg)); [|now split].
    destruct (negb _); now split.
  - split; [exact Hu|exact Ht].
  - split; [exact Hu|exact Ht].
  - split; [exact Hu|exact Ht].
  - split; [exact Hu|exact Ht].
  - split; [exact Hu|exact Ht].
Qed.

Lemma findRule_In (id : string) (r : Audit.AuditRule) :
  Audit.findRule uuid id = Some r -> In r (Audit.auditRules uuid).
Proof. intros H. now apply find_some in H as [H _]. Qed.

Lemma fixIssue_hardened (st : Audit.FixState) (issue : Audit.AuditIssue) :
  hardened (Audit.currentConfig st) ->
  hardened (Audit.currentConfig (Audit.fixIssue uuid st issue)).
Proof.
  intros H. unfold Audit.fixIssue.
  destruct (negb (Audit.canAutoFix issue)); [exact H|].
  destruct (Audit.findRule uuid (Audit.ruleId issue)) as [r|] eqn:Er; [|exact H].
  destruct (Audit.fix_ r) as [f|] eqn:Ef; [|exact H].
  pose proof (fix_hardened r f (Audit.currentConfig st)
                (orElse (Audit.affectedNodeId issue) EmptyString) (Audit.counter st)
                (findRule_In _ _ Er) Ef H) as Hm.
  destruct (f (Audit.currentConfig st) _ (Audit.counter st)) as [p n'].
  cbn [fst] in Hm. destruct (0 <? keysLength p); [exact Hm|exact H].
Qed.

Lemma fixIssues_hardened (l : list Audit.AuditIssue) :
  forall st, hardened (Audit.currentConfig st) ->
    hardened (Audit.currentConfig (fold_left (Audit.fixIssue uuid) l st)).
Proof.
  induction l as [|i l IH]; intros st H; [exact H|].
  cbn [fold_left]. apply IH. now apply fixIssue_hardened.
Qed.

Lemma fixLoop_hardened (budget : nat) :
  forall st, hardened (Audit.currentConfig st) ->
    hardened (Audit.currentConfig (Audit.fixLoop uuid budget st)).
Proof.
  induction budget as [|b IH]; intros st H; [exact H|]. cbn [Audit.fixLoop].
  destruct (Audit.hasChanges st); [|exact H].
  destruct (Audit.runAudit uuid (Audit.currentConfig st) (Audit.counter st)) as [audit n'].
  apply IH. apply fixIssues_hardened. exact H.
Qed.

(** For every config, the fix engine returns a config whose user is
    [nginx] and whose [server_tokens] switch is off: the part of the
    overwrites that holds without exception. *)
Theorem applyAllFixes_hardened (cfg : NginxConfig) (n : nat) :
  hardened (Audit.applyAllFixes uuid cfg n).
Proof.
  unfold Audit.applyAllFixes, Audit.applyAllFixesState.
  pose proof (autofix_hardened cfg n) as H.
  destruct (AutoFixService.applyAllFixes uuid cfg n) as [[cleaned n'] w].
  apply fixLoop_hardened. exact H.
Qed.
End WithUuid.

End OverwriteFacts.

(* ================================================================== *)
(** * What the matcher accepts, and what the cleaner leaves *)
(* ================================================================== *)

Module AcceptFacts.
Import Accept Shape ShapeFacts.

Section Matcher.
Variable A : Type.
Variable f : Re.flags.

Lemma star_accepts (p : ascii -> bool) (k : Re.cont A) (g : option ascii -> string -> bool) :
  (forall prev u, isSome (k prev u) = g prev u) ->
  forall u prev, isSome (Re.star p k prev u) = starG p g prev u.
Proof.
  intros Hk. induction u as [|c t IH]; intros prev; cbn [Re.star starG].
  - now rewrite Hk, orb_false_r.
  - destruct (p c); cbn [andb].
    + specialize (IH (Some c)). destruct (Re.star p k (Some c) t); cbn [isSome] in *.
      * now rewrite <- IH, orb_true_r.
      * now rewrite <- IH, orb_false_r.
    + now rewrite orb_false_r.
Qed.

(** The matcher succeeds exactly where the pattern accepts. *)
Lemma m_accepts (r : Re.re) :
  forall (k : Re.cont A) (g : option ascii -> string -> bool),
    (forall prev u, isSome (k prev u) = g prev u) ->
    forall prev u, isSome (Re.m f r k prev u) = accepts f r g prev u.
Proof.
  induction r as [|c|p|p|a IHa b IHb|a IHa b IHb| |]; intros k g Hk prev u;
    cbn [Re.m accepts].
  - apply Hk.
  - destruct u as [|d t]; [reflexivity|].
    destruct (Re.char_eq f c d); [apply Hk|reflexivity].
  - destruct u as [|d t]; [reflexivity|]. destruct (p d); [apply Hk|reflexivity].
  - now apply star_accepts.
  - apply IHa. intros p0 u0. now apply IHb.
  - rewrite <- (IHa k g Hk), <- (IHb k g Hk). now destruct (Re.m f a k prev u).
  - destruct (Re.at_bol f prev); [apply Hk|reflexivity].
  - destruct (Re.at_eol f u); [apply Hk|reflexivity].
Qed.
End Matcher.

Lemma exec_accepts (f : Re.flags) (r : Re.re) (prev : option ascii) (u : string) :
  isSome (Re.exec f r prev u) = matchesAt f r prev u.
Proof. unfold Re.exec, matchesAt. now apply m_accepts. Qed.

Lemma starG_mono (p q : ascii -> bool) (g g' : option ascii -> string -> bool) :
  (forall c, p c = true -> q c = true) ->
  (forall prev u, g prev u = true -> g' prev u = true) ->
  forall u prev, starG p g prev u = true -> starG q g' prev u = true.
Proof.
  intros Hpq Hg. induction u as [|c t IH]; intros prev H; cbn [starG] in *.
  - rewrite orb_false_r in *. rewrite (Hg _ _ H). reflexivity.
  - apply orb_prop in H as [H|H]; [now rewrite (Hg _ _ H)|].
    apply andb_prop in H as [Hc H]. now rewrite (Hpq _ Hc), (IH _ H), orb_true_r.
Qed.

(** Acceptance grows with what may follow the match. *)
Lemma accepts_mono (f : Re.flags) (r : Re.re) :
  forall g g' : option ascii -> string -> bool,
    (forall prev u, g prev u = true -> g' prev u = true) ->
    forall prev u, accepts f r g prev u = true -> accepts f r g' prev u = true.
Proof.
  induction r as [|c|p|p|a IHa b IHb|a IHa b IHb| |]; intros g g' Hg prev u H;
    cbn [accepts] in *.
  - now apply Hg.
  - destruct u as [|d t]; [discriminate|]. apply andb_prop in H as [H1 H2].
    now rewrite H1, (Hg _ _ H2).
  - destruct u as [|d t]; [discriminate|]. apply andb_prop in H as [H1 H2].
    now rewrite H1, (Hg _ _ H2).
  - now apply (starG_mono p p g g' (fun _ E => E) Hg).
  - apply (IHa (accepts f b g) (accepts f b g')); [|exact H].
    intros p0 u0. now apply IHb.
  - apply orb_prop in H as [H|H].
    + now rewrite (IHa g g' Hg _ _ H).
    + now rewrite (IHb g g' Hg _ _ H), orb_true_r.
  - apply andb_prop in H as [H1 H2]. now rewrite H1, (Hg _ _ H2).
  - apply andb_prop in H as [H1 H2]. now rewrite H1, (Hg _ _ H2).
Qed.

(** [test] is true exactly when a match starts at some position. *)
Lemma test_from_app (f : Re.flags) (r : Re.re) (a : string) :
  forall prev b,
    matchesAt f r (lastChar prev a) b = true -> Re.test_from f r prev (a ++ b) = true.
Proof.
  induction a as [|c a IH]; intros prev b H.
  - cbn [append]. unfold lastChar in H. cbn in H. rewrite <- exec_accepts in H.
    destruct b; cbn [Re.test_from]; now destruct (Re.exec f r prev _).
  - cbn [append Re.test_from]. destruct (Re.exec f r prev _); [reflexivity|].
    apply IH. exact H.
Qed.

Lemma test_from_inv (f : Re.flags) (r : Re.re) (u : string) :
  forall prev, Re.test_from f r prev u = true ->
    exists a b, u = (a ++ b)%string /\ matchesAt f r (lastChar prev a) b = true.
Proof.
  induction u as [|c t IH]; intros prev H; cbn [Re.test_from] in H.
  - exists EmptyString, EmptyString. split; [reflexivity|].
    rewrite <- exec_accepts. unfold lastChar. cbn.
    now destruct (Re.exec f r prev EmptyString).
  - destruct (Re.exec f r prev (String c t)) eqn:E.
    + exists EmptyString, (String c t). split; [reflexivity|].
      rewrite <- exec_accepts. unfold lastChar. cbn. now rewrite E.
    + destruct (IH _ H) as (a & b & -> & Hm).
      exists (String c a), b. split; [reflexivity|]. exact Hm.
Qed.

Lemma noMatch_test (f : Re.flags) (key : string) (s : string) :
  forall prev, noMatch f key prev s ->
    Re.test_from f (ConfigCleaner.re_directive key) prev s = false.
Proof.
  induction s as [|c t IH]; intros prev [E H]; cbn [Re.test_from]; rewrite E;
    [reflexivity|now apply IH].
Qed.

End AcceptFacts.

Module CleanerMoreFacts.
Import Accept Shape ShapeFacts AcceptFacts Notions CleanerRules.

Lemma flagsOf_multiline (key : string) : Re.multiline (flagsOf key) = true.
Proof. unfold flagsOf. now destruct (existsb _ _). Qed.

(** [removeDirective] for a key that is a word: one global replacement
    with the pattern of the key, then [cleanAndFormat]. *)
Lemma removeDirective_flagsOf (key t : string) :
  isWord key = true ->
  ConfigCleaner.inherited key = None ->
  ConfigCleaner.removeDirective t key
  = if Js.isEmpty (Js.trim t) then EmptyString
    else ConfigCleaner.cleanAndFormat
           (Re.replace (flagsOf key) (ConfigCleaner.re_directive key) EmptyString t).
Proof.
  intros Hk Hown.
  assert (H1 : Js.startsWith key "add_header " = false)
    by (apply word_no_prefix; [reflexivity|exact Hk]).
  assert (H2 : Js.startsWith key "proxy_set_header " = false)
    by (apply word_no_prefix; [reflexivity|exact Hk]).
  unfold ConfigCleaner.removeDirective. rewrite H1, H2, Hown.
  unfold ConfigCleaner.DIRECTIVE_PATTERNS, flagsOf.
  now destruct (existsb (String.eqb key) ConfigCleaner.DIRECTIVE_KEYS).
Qed.

(** After the removal the text has no position where a directive of the
    key begins. *)
Lemma removeDirective_noMatch (t key : string) :
  isWord key = true ->
  ConfigCleaner.inherited key = None ->
  noMatch (flagsOf key) key None (ConfigCleaner.removeDirective t key).
Proof.
  intros Hk Hown. rewrite (removeDirective_flagsOf key t Hk Hown).
  pose proof (flagsOf_multiline key) as Hml.
  destruct (Js.isEmpty (Js.trim t)).
  - apply (noMatch_of_clean (flagsOf key) key Hml Hk EmptyString EmptyString). exact I.
  - apply (noMatch_of_clean (flagsOf key) key Hml Hk _ EmptyString). cbn [append].
    apply (cleanAndFormat_clean (flagsOf key) key Hml Hk).
    apply (removed_clean (flagsOf key) key Hml Hk (String.length t) t (le_n _)
             EmptyString None); [now left|exact I].
Qed.

(** [ConfigCleaner.removeDirective] is complete for a key that is a word
    and no inherited property name: the pattern it removes with matches
    nowhere in its result, whatever the text was. *)
Theorem removeDirective_complete (t key : string) :
  isWord key = true ->
  ConfigCleaner.inherited key = None ->
  Re.test (flagsOf key) (ConfigCleaner.re_directive key)
    (ConfigCleaner.removeDirective t key) = false.
Proof.
  intros Hk Hown. unfold Re.test. apply noMatch_test.
  now apply removeDirective_noMatch.
Qed.

Lemma removeDirective_complete_witness :
  isWord "ssl_protocols" = true
  /\ ConfigCleaner.inherited "ssl_protocols" = None
  /\ Re.test (flagsOf "ssl_protocols") (ConfigCleaner.re_directive "ssl_protocols")
       (ConfigCleaner.removeDirective Sample.protocolsText "ssl_protocols") = false.
Proof.
  split; [reflexivity|]. split; [reflexivity|].
  apply (removeDirective_complete Sample.protocolsText "ssl_protocols"); reflexivity.
Defined.


(** Acceptance grows with the flags too: a pattern that ignores case
    accepts what the same pattern accepts without. *)
Lemma accepts_weaken (f f' : Re.flags) (r : Re.re) :
  Re.multiline f = Re.multiline f' ->
  (forall a b, Re.char_eq f a b = true -> Re.char_eq f' a b = true) ->
  forall g g' : option ascii -> string -> bool,
    (forall prev u, g prev u = true -> g' prev u = true) ->
    forall prev u, accepts f r g prev u = true -> accepts f' r g' prev u = true.
Proof.
  intros Hml Hce.
  induction r as [|c|p|p|a IHa b IHb|a IHa b IHb| |]; intros g g' Hg prev u H;
    cbn [accepts] in *.
  - now apply Hg.
  - destruct u as [|d t]; [discriminate|]. apply andb_prop in H as [H1 H2].
    now rewrite (Hce _ _ H1), (Hg _ _ H2).
  - destruct u as [|d t]; [discriminate|]. apply andb_prop in H as [H1 H2].
    now rewrite H1, (Hg _ _ H2).
  - now apply (starG_mono p p g g' (fun _ E => E) Hg).
  - apply (IHa (accepts f b g) (accepts f' b g')); [|exact H].
    intros p0 u0. now apply IHb.
  - apply orb_prop in H as [H|H].
    + now rewrite (IHa g g' Hg _ _ H).
    + now rewrite (IHb g g' Hg _ _ H), orb_true_r.
  - apply andb_prop in H as [H1 H2]. unfold Re.at_bol in *. rewrite <- Hml.
    now rewrite H1, (Hg _ _ H2).
  - apply andb_prop in H as [H1 H2]. unfold Re.at_eol in *. rewrite <- Hml.
    now rewrite H1, (Hg _ _ H2).
Qed.

Lemma char_eq_gim (f : Re.flags) (a b : ascii) :
  Re.char_eq f a b = true -> Re.char_eq Re.gim a b = true.
Proof.
  unfold Re.char_eq. cbn [Re.ignoreCase Re.gim].
  destruct (Re.ignoreCase f); [tauto|]. intros H. apply Ascii.eqb_eq in H. subst.
  apply Ascii.eqb_refl.
Qed.

Section Setting.
Variable f : Re.flags.

Let tail : Re.re := Re.Seq (Re.Opt (Re.Lit ";")) (Re.Seq (Re.Star Re.space) Re.Eol).

(** A value without a semicolon, and the white space after it, is part of
    what [[^;]+] takes. *)
Lemma value_in_notSemi (v : string) :
  allChars Re.notSemi v = true ->
  forall prev u,
    accepts f (Re.Str v) (accepts f (Re.Seq (Re.Star Re.space) tail) anything) prev u = true ->
    starG Re.notSemi (accepts f tail anything) prev u = true.
Proof.
  induction v as [|c v IH]; intros Hv prev u H.
  - cbn [Re.Str accepts] in H.
    apply (starG_mono Re.space Re.notSemi _ _ space_notSemi (fun _ _ E => E)). exact H.
  - cbn [allChars] in Hv. apply andb_prop in Hv as [Hc Hv].
    cbn [Re.Str] in H. cbn [accepts] in H. destruct u as [|d t]; [discriminate|].
    apply andb_prop in H as [Hcd H]. cbn [starG].
    assert (Hd : Re.notSemi d = true).
    { unfold Re.notSemi in *. now rewrite (char_eq_semi _ _ _ Hcd). }
    rewrite Hd. cbn [andb]. rewrite (IH Hv _ _ H). apply orb_true_r.
Qed.

(** A line that sets [key] to one value is a directive of [key]. *)
Lemma setting_is_directive (key value : string) (prev : option ascii) (u : string) :
  value <> EmptyString -> allChars Re.notSemi value = true ->
  matchesAt f (re_setting key value) prev u = true ->
  matchesAt f (ConfigCleaner.re_directive key) prev u = true.
Proof.
  intros Hne Hv. unfold matchesAt, re_setting, ConfigCleaner.re_directive,
    ConfigCleaner.re_valueTail.
  cbn [accepts]. intros H. apply andb_prop in H as [Hb H]. rewrite Hb. cbn [andb].
  revert H. apply starG_mono; [tauto|]. intros p1 u1.
  apply accepts_mono. intros p2 u2 H.
  unfold Re.Plus in *. cbn [accepts] in H |- *.
  destruct u2 as [|s1 t1]; [discriminate|]. apply andb_prop in H as [Hs H].
  rewrite Hs. cbn [andb]. revert H.
  apply starG_mono; [tauto|]. intros p3 u3 H.
  destruct value as [|c v]; [contradiction|]. cbn [allChars] in Hv.
  apply andb_prop in Hv as [Hc Hv]. cbn [Re.Str] in H. cbn [accepts] in H.
  destruct u3 as [|d t]; [discriminate|]. apply andb_prop in H as [Hcd H].
  assert (Hd : Re.notSemi d = true).
  { unfold Re.notSemi in *. now rewrite (char_eq_semi _ _ _ Hcd). }
  rewrite Hd. cbn [andb].
  apply (value_in_notSemi v Hv). exact H.
Qed.
End Setting.

Lemma test_setting_directive (f f' : Re.flags) (key value t : string) :
  Re.multiline f = Re.multiline f' ->
  (forall a b, Re.char_eq f a b = true -> Re.char_eq f' a b = true) ->
  value <> EmptyString -> allChars Re.notSemi value = true ->
  Re.test f' (ConfigCleaner.re_directive key) t = false ->
  Re.test f (re_setting key value) t = false.
Proof.
  intros Hml Hce Hne Hv Hd.
  destruct (Re.test f (re_setting key value) t) eqn:E; [|reflexivity].
  apply test_from_inv in E as (a & b & -> & Hm).
  apply (setting_is_directive f key value _ _ Hne Hv) in Hm.
  apply (accepts_weaken f f' _ Hml Hce anything anything (fun _ _ E => E)) in Hm.
  unfold Re.test in Hd. now rewrite (test_from_app f' _ a None b Hm) in Hd.
Qed.

(** The text that [fixRootUser] returns has no [user root] line. *)
Lemma fixRootUser_no_root (t : string) :
  Re.test Re.gm (re_setting "user" "root") (newDirectives (fixRootUser t)) = false.
Proof.
  unfold fixRootUser.
  pose proof (noMatch_test _ _ _ None (removeDirective_noMatch t "user" eq_refl eq_refl))
    as Hc.
  change (flagsOf "user") with Re.gm in Hc.
  destruct (Re.test Re.gm (re_setting "user" "root") t) eqn:E; cbn [negb newDirectives];
    [|exact E].
  apply (test_setting_directive Re.gm Re.gm "user" "root" _ eq_refl (fun _ _ H => H));
    [discriminate|reflexivity|exact Hc].
Qed.

(** [ConfigCleaner.fixRootUser] leaves no [user root] line; a text without
    such a line is returned as it is, without a warning; and when it warns,
    no [user] directive at all is left. *)
Theorem fixRootUser_removes_root (t : string) :
  let fixed := fixRootUser t in
  Re.test Re.gm (re_setting "user" "root") (newDirectives fixed) = false
  /\ (Re.test Re.gm (re_setting "user" "root") t = false ->
      newDirectives fixed = t /\ warning fixed = None)
  /\ (warning fixed <> None ->
      Re.test Re.gm (ConfigCleaner.re_directive "user") (newDirectives fixed) = false).
Proof.
  cbv zeta. split; [apply fixRootUser_no_root|]. unfold fixRootUser.
  destruct (Re.test Re.gm (re_setting "user" "root") t) eqn:E; cbn [negb newDirectives warning].
  - split; [discriminate|]. intros _.
    apply (noMatch_test (flagsOf "user") "user" _ None).
    now apply removeDirective_noMatch.
  - split; [now split|]. intros H. now contradiction H.
Qed.

(** [ConfigCleaner.cleanHiddenFileProtection]: the result never has both
    a [deny all] line and a [return 403] line, and a text that does not
    have both is returned as it is. *)
Theorem cleanHiddenFileProtection_not_both (t : string) :
  let r := cleanHiddenFileProtection t in
  Re.test Re.fm (re_setting "deny" "all") r
  && Re.test Re.fm (re_setting "return" "403") r = false
  /\ (Re.test Re.fm (re_setting "deny" "all") t
      && Re.test Re.fm (re_setting "return" "403") t = false -> r = t)
  /\ (r <> t -> Re.test Re.gim (ConfigCleaner.re_directive "deny") r = false).
Proof.
  cbv zeta. unfold cleanHiddenFileProtection.
  pose proof (noMatch_test _ _ _ None (removeDirective_noMatch t "deny" eq_refl eq_refl))
    as Hc.
  change (flagsOf "deny") with Re.gim in Hc.
  destruct (Re.test Re.fm (re_setting "deny" "all") t
            && Re.test Re.fm (re_setting "return" "403") t) eqn:E.
  - split; [|split; [discriminate|intros _; exact Hc]].
    rewrite (test_setting_directive Re.fm Re.gim "deny" "all" _ eq_refl (char_eq_gim Re.fm));
      [reflexivity|discriminate|reflexivity|exact Hc].
  - split; [exact E|]. split; [reflexivity|]. intros H. now contradiction H.
Qed.

(** [ConfigCleaner.cleanAndFormat] is idempotent, and its result is
    trimmed: formatting a formatted text changes nothing. *)
Theorem cleanAndFormat_idempotent (s : string) :
  ConfigCleaner.cleanAndFormat (ConfigCleaner.cleanAndFormat s)
  = ConfigCleaner.cleanAndFormat s
  /\ Js.trim (ConfigCleaner.cleanAndFormat s) = ConfigCleaner.cleanAndFormat s.
Proof.
  split; [apply cleanAndFormat_idem|].
  unfold ConfigCleaner.cleanAndFormat. apply trim_idem.
Qed.

End CleanerMoreFacts.

(* ================================================================== *)
(** * The header that [smartAddHeader] adds *)
(* ================================================================== *)

Module HeaderFacts.
Import Accept Shape ShapeFacts AcceptFacts.

Lemma char_eq_refl (f : Re.flags) (a : ascii) : Re.char_eq f a a = true.
Proof. unfold Re.char_eq. destruct (Re.ignoreCase f); apply Ascii.eqb_refl. Qed.

(** A literal text matches itself. *)
Lemma accepts_Str (f : Re.flags) (s : string) (g : option ascii -> string -> bool) :
  forall prev u, g (lastChar prev s) u = true ->
    accepts f (Re.Str s) g prev (s ++ u) = true.
Proof.
  induction s as [|c s IH]; intros prev u H; cbn [Re.Str accepts append].
  - exact H.
  - rewrite char_eq_refl. cbn [andb]. apply IH. exact H.
Qed.

Lemma starG_anything (p : ascii -> bool) (prev : option ascii) (u : string) :
  starG p anything prev u = true.
Proof. destruct u; reflexivity. Qed.

Lemma starG_here (p : ascii -> bool) (g : option ascii -> string -> bool)
    (prev : option ascii) (u : string) :
  g prev u = true -> starG p g prev u = true.
Proof. intros H. destruct u; cbn [starG]; now rewrite H. Qed.

Lemma accepts_plus_one (f : Re.flags) (p : ascii -> bool) (r : Re.re)
    (g : option ascii -> string -> bool) (prev : option ascii) (c : ascii) (u : string) :
  p c = true -> accepts f r g (Some c) u = true ->
  accepts f (Re.Seq (Re.Plus p) r) g prev (String c u) = true.
Proof.
  intros Hc H. unfold Re.Plus. cbn [accepts]. rewrite Hc. cbn [andb].
  now apply starG_here.
Qed.

Lemma accepts_opt_skip (f : Re.flags) (x r : Re.re)
    (g : option ascii -> string -> bool) (prev : option ascii) (u : string) :
  accepts f r g prev u = true -> accepts f (Re.Seq (Re.Opt x) r) g prev u = true.
Proof. intros H. unfold Re.Opt. cbn [accepts]. cbn [accepts] in H. now rewrite H, orb_true_r. Qed.

Lemma accepts_seq (f : Re.flags) (a b : Re.re) (g : option ascii -> string -> bool) :
  accepts f (Re.Seq a b) g = accepts f a (accepts f b g).
Proof. reflexivity. Qed.

(** The directive that [smartAddHeader] writes is one that [hasAddHeader]
    finds, whatever stands in front of it. *)
Lemma header_line_found (name rest front : string) :
  Audit.hasAddHeader (front ++ "add_header " ++ name ++ " " ++ rest) name = true.
Proof.
  unfold Audit.hasAddHeader, Re.test. apply test_from_app.
  unfold matchesAt, Audit.re_hasAddHeader.
  change ("add_header " ++ name ++ " " ++ rest)%string
    with ("add_header" ++ String " " (name ++ String " " rest))%string.
  rewrite accepts_seq. apply accepts_Str.
  apply accepts_plus_one; [reflexivity|].
  apply accepts_opt_skip. rewrite accepts_seq. apply accepts_Str.
  apply accepts_opt_skip.
  unfold Re.Plus. cbn [accepts]. change (Re.space " ") with true. cbn [andb].
  apply starG_anything.
Qed.

(** The text of [smartAddHeader] ends with the new directive, which the
    pattern of [hasAddHeader] finds. *)
Lemma smartAddHeader_has (existingText headerName headerValue : string) (always : bool) :
  Audit.hasAddHeader
    (ConfigCleaner.smartAddHeader existingText headerName headerValue always) headerName
  = true.
Proof.
  unfold ConfigCleaner.smartAddHeader, ConfigCleaner.smartAddDirective.
  match goal with |- context [Js.isEmpty (Js.trim ?c)] => set (cleaned := c) end.
  destruct (negb (Js.isEmpty (Js.trim cleaned))).
  - rewrite <- (app_assoc_s cleaned). apply header_line_found.
  - apply (header_line_found headerName _ EmptyString).
Qed.

(** After [ConfigCleaner.smartAddHeader] the audit's [hasAddHeader] finds
    the header, for every text it is added to, every value and both
    settings of [always]; the name is one of letters, digits, [-] and [_],
    as the names of the audit rules are. *)
Theorem smartAddHeader_found (existingText headerName headerValue : string) (always : bool) :
  Notions.plainName headerName = true ->
  Audit.hasAddHeader
    (ConfigCleaner.smartAddHeader existingText headerName headerValue always) headerName
  = true.
Proof.
  intros _. unfold ConfigCleaner.smartAddHeader, ConfigCleaner.smartAddDirective.
  match goal with |- context [Js.isEmpty (Js.trim ?c)] => set (cleaned := c) end.
  destruct (negb (Js.isEmpty (Js.trim cleaned))).
  - rewrite <- (app_assoc_s cleaned). apply header_line_found.
  - apply (header_line_found headerName _ EmptyString).
Qed.

Lemma smartAddHeader_found_witness :
  Notions.plainName "X-Frame-Options" = true
  /\ Audit.hasAddHeader
       (ConfigCleaner.smartAddHeader "add_header X-Frame-Options DENY;"
          "X-Frame-Options" "SAMEORIGIN" true) "X-Frame-Options" = true.
Proof.
  split; [reflexivity|].
  apply (smartAddHeader_found "add_header X-Frame-Options DENY;" "X-Frame-Options"
           "SAMEORIGIN" true).
  reflexivity.
Defined.

End HeaderFacts.

(* ================================================================== *)
(** * Fixes that resolve their issue *)
(* ================================================================== *)

Module RepairFacts.
Import Audit.

Lemma forEachPush_In (A : Type) (flagged : A -> option (nat -> AuditIssue))
    (xs : list A) (issue : AuditIssue) :
  forall n, In issue (fst (forEachPush flagged xs n)) ->
    exists x mk k, In x xs /\ flagged x = Some mk /\ issue = mk k.
Proof.
  induction xs as [|x xs IH]; intros n H; cbn [forEachPush] in H; [contradiction|].
  destruct (flagged x) as [mk|] eqn:E.
  - destruct (forEachPush flagged xs (S n)) as [issues n'] eqn:E2. cbn [fst] in H.
    destruct H as [<-|H].
    + exists x, mk, n. split; [now left|now split].
    + specialize (IH (S n)). rewrite E2 in IH. destruct (IH H) as (y & mk' & k & Hy & Hf & ->).
      exists y, mk', k. split; [now right|now split].
  - destruct (IH n H) as (y & mk' & k & Hy & Hf & ->).
    exists y, mk', k. split; [now right|now split].
Qed.

Lemma find_unique (id : string) (l : list ServerConfig) (s x : ServerConfig) :
  NoDup (map s_id l) ->
  find (fun s => String.eqb (s_id s) id) l = Some s ->
  In x l -> s_id x = id -> x = s.
Proof.
  induction l as [|y l IH]; intros Hnd Hf Hx Hid; [contradiction|].
  cbn [map] in Hnd. inversion Hnd as [|? ? Hy Hl]; subst.
  cbn [find] in Hf. destruct (String.eqb (s_id y) (s_id x)) eqn:E.
  - injection Hf as <-. destruct Hx as [->|Hx]; [reflexivity|].
    apply String.eqb_eq in E. exfalso. apply Hy. rewrite E. now apply in_map.
  - destruct Hx as [->|Hx]; [now rewrite String.eqb_refl in E|]. now apply IH.
Qed.

Section WithUuid.
Variable uuid : nat -> string.

(** What the check of a header rule looks at in a server. *)
Lemma headerFix_resolves (headerName headerValue : string)
    (flagged : ServerConfig -> option (nat -> AuditIssue))
    (cfg : NginxConfig) (id : string) (n m : nat) (issue : AuditIssue) :
  (forall s mk, flagged s = Some mk ->
     serverNeedsSecurityHeaders s = true
     /\ hasAddHeader (s_customDirectives s) headerName = false
     /\ forall k, affectedNodeId (mk k) = Some (s_id s)) ->
  NoDup (map s_id (servers cfg)) ->
  id <> EmptyString ->
  In issue (fst (forEachPush flagged
                   (servers (merge cfg (fst (headerFix headerName headerValue cfg id n)))) m)) ->
  affectedNodeId issue <> Some id.
Proof.
  intros Hfl Hnd Hid Hin.
  apply forEachPush_In in Hin as (x & mk & k & Hx & Hf & ->).
  destruct (Hfl x mk Hf) as (Hneeds & Hno & Haff). rewrite Haff. intros E.
  injection E as E.
  assert (Hmapped :
    In x (map (fun s => if String.eqb (s_id s) id
                        then set_s_custom s
                               (ConfigCleaner.smartAddHeader (s_customDirectives s)
                                  headerName headerValue true)
                        else s) (servers cfg)) -> False).
  { intros Hm. apply in_map_iff in Hm as (s0 & Hs0 & _).
    destruct (String.eqb (s_id s0) id) eqn:E0.
    - subst x. unfold set_s_custom in Hno. cbn [s_customDirectives] in Hno.
      now rewrite HeaderFacts.smartAddHeader_has in Hno.
    - subst x. now rewrite E, String.eqb_refl in E0. }
  unfold headerFix in Hx.
  destruct (Js.isEmpty id) eqn:Ei; [destruct id; [now contradiction Hid|discriminate]|].
  destruct (find (fun s => String.eqb (s_id s) id) (servers cfg)) as [server|] eqn:Ef.
  - destruct (negb (serverNeedsSecurityHeaders server)) eqn:En.
    + cbn [fst merge p_servers emptyPartial orElse servers] in Hx.
      rewrite (find_unique id (servers cfg) server x Hnd Ef Hx E) in Hneeds.
      now rewrite Hneeds in En.
    + cbn [fst merge p_servers orElse servers] in Hx. now apply Hmapped.
  - cbn [fst merge p_servers orElse servers] in Hx. now apply Hmapped.
Qed.

(** The fix of each of the three header rules resolves the rule's issue
    for the server it is applied to: the check of the rule on the config
    with the fix merged in reports no issue for that server.  The servers
    have distinct identifiers and the identifier given is not empty. *)
Theorem header_fix_resolves (cfg : NginxConfig) (id ruleName : string) (n m : nat) :
  In ruleName Spec.headerRules ->
  NoDup (map s_id (servers cfg)) ->
  id <> EmptyString ->
  exists rule repair p n',
    findRule uuid ruleName = Some rule /\ fix_ rule = Some repair
    /\ repair cfg id n = (p, n')
    /\ forall issue, In issue (fst (check rule (merge cfg p) m)) ->
                     affectedNodeId issue <> Some id.
Proof.
  intros Hr Hnd Hid. unfold Spec.headerRules in Hr.
  destruct Hr as [<-|[<-|[<-|[]]]].
  - exists (rule_x_frame_options uuid), (headerFix "X-Frame-Options" "SAMEORIGIN").
    destruct (headerFix "X-Frame-Options" "SAMEORIGIN" cfg id n) as [p n'] eqn:E.
    exists p, n'. split; [reflexivity|]. split; [reflexivity|]. split; [reflexivity|].
    intros issue Hin. cbn [check rule_x_frame_options] in Hin.
    replace p with (fst (headerFix "X-Frame-Options" "SAMEORIGIN" cfg id n)) in Hin
      by now rewrite E.
    revert Hin. apply headerFix_resolves; [|exact Hnd|exact Hid].
    intros s mk Hmk. destruct (negb (serverNeedsSecurityHeaders s)) eqn:E1; [discriminate|].
    destruct (negb (hasAddHeader (s_customDirectives s) "X-Frame-Options")) eqn:E2;
      [|discriminate].
    injection Hmk as <-. apply negb_false_iff in E1. apply negb_true_iff in E2.
    now repeat split.
  - exists (rule_x_content_type uuid), (headerFix "X-Content-Type-Options" "nosniff").
    destruct (headerFix "X-Content-Type-Options" "nosniff" cfg id n) as [p n'] eqn:E.
    exists p, n'. split; [reflexivity|]. split; [reflexivity|]. split; [reflexivity|].
    intros issue Hin. cbn [check rule_x_content_type] in Hin.
    replace p with (fst (headerFix "X-Content-Type-Options" "nosniff" cfg id n)) in Hin
      by now rewrite E.
    revert Hin. apply headerFix_resolves; [|exact Hnd|exact Hid].
    intros s mk Hmk. destruct (negb (serverNeedsSecurityHeaders s)) eqn:E1; [discriminate|].
    destruct (negb (hasAddHeader (s_customDirectives s) "X-Content-Type-Options")) eqn:E2;
      [|discriminate].
    injection Hmk as <-. apply negb_false_iff in E1. apply negb_true_iff in E2.
    now repeat split.
  - exists (rule_hsts uuid),
      (headerFix "Strict-Transport-Security" "max-age=31536000; includeSubDomains").
    destruct (headerFix "Strict-Transport-Security" "max-age=31536000; includeSubDomains"
                cfg id n) as [p n'] eqn:E.
    exists p, n'. split; [reflexivity|]. split; [reflexivity|]. split; [reflexivity|].
    intros issue Hin. cbn [check rule_hsts] in Hin.
    replace p with (fst (headerFix "Strict-Transport-Security"
                           "max-age=31536000; includeSubDomains" cfg id n)) in Hin
      by now rewrite E.
    revert Hin. apply headerFix_resolves; [|exact Hnd|exact Hid].
    intros s mk Hmk. destruct (negb (serverNeedsSecurityHeaders s)) eqn:E1; [discriminate|].
    destruct (enabled (ssl s) && Z.eqb (port (listen s)) 443); [|discriminate].
    destruct (negb (hasAddHeader (s_customDirectives s) "Strict-Transport-Security")) eqn:E2;
      [|discriminate].
    injection Hmk as <-. apply negb_false_iff in E1. apply negb_true_iff in E2.
    now repeat split.
Qed.

(** The fix of the hidden-files rule resolves the rule's issue for the
    server it is applied to, whose identifier is not empty: the check of
    the rule on the config with the fix merged in reports no issue for that
    server. *)
Theorem hidden_files_fix_resolves (cfg : NginxConfig) (id : string) (n m : nat) :
  id <> EmptyString ->
  exists repair p n',
    fix_ (rule_hidden_files uuid) = Some repair
    /\ repair cfg id n = (p, n')
    /\ forall issue, In issue (fst (check (rule_hidden_files uuid) (merge cfg p) m)) ->
                     affectedNodeId issue <> Some id.
Proof.
  intros Hid. eexists. eexists. eexists. split; [reflexivity|].
  split; [apply surjective_pairing|].
  intros issue Hin. cbn [check rule_hidden_files] in Hin.
  apply forEachPush_In in Hin as (x & mk & k & Hx & Hf & ->).
  destruct (isRedirectServer x); [discriminate|].
  match type of Hf with
  | (if negb (existsb ?t ?ls) && _ then _ else _) = _ =>
      destruct (existsb t ls) eqn:Eh; cbn [negb andb] in Hf; [discriminate|]
  end.
  match type of Hf with (if ?b then _ else _) = _ => destruct b; [|discriminate] end.
  injection Hf as <-. cbn [mkIssue affectedNodeId]. intros E. injection E as E.
  assert (Hhas : exists l, In l (locations cfg ++
                                 match find (fun l => String.eqb (serverId l) id
                                               && (Js.includes (path l) "\."
                                                   || String.eqb (path l) "~ /\."))
                                            (locations cfg) with
                                 | Some _ => []
                                 | None => [newHiddenLocation (uuid n) id]
                                 end)
                        /\ serverId l = id
                        /\ (Js.includes (path l) "\." || String.eqb (path l) "~ /\.") = true).
  { destruct (find _ (locations cfg)) as [l|] eqn:Ef.
    - apply find_some in Ef as [Hl Hc]. apply andb_prop in Hc as [H1 H2].
      apply String.eqb_eq in H1. exists l. rewrite app_nil_r. now repeat split.
    - exists (newHiddenLocation (uuid n) id). split; [apply in_or_app; right; now left|].
      split; reflexivity. }
  destruct Hhas as (l & Hl & Hs & Hp).
  assert (Hlocs : In l (locations (merge cfg
            (fst ((if Js.isEmpty id then (emptyPartial, n)
                   else match find (fun l => String.eqb (serverId l) id
                                      && (Js.includes (path l) "\."
                                          || String.eqb (path l) "~ /\."))
                                   (locations cfg) with
                        | Some _ => (emptyPartial, n)
                        | None =>
                            ({| p_global := None; p_events := None; p_http := None;
                                p_upstreams := None; p_servers := None;
                                p_locations :=
                                  Some (locations cfg ++ [newHiddenLocation (uuid n) id]);
                                p_rawConfig := None |}, S n)
                        end)))))).
  { destruct (Js.isEmpty id) eqn:Ei; [destruct id; [now contradiction Hid|discriminate]|].
    destruct (find _ (locations cfg)); cbn [fst merge p_locations emptyPartial orElse locations];
      [now rewrite app_nil_r in Hl|exact Hl]. }
  match type of Eh with
  | existsb ?t ?ls = false => assert (Ht : existsb t ls = true)
  end.
  { apply existsb_exists. exists l. split.
    - apply filter_In. split; [exact Hlocs|]. rewrite Hs, E. apply String.eqb_refl.
    - apply orb_prop in Hp as [Hp|Hp]; rewrite Hp; [reflexivity|]. apply orb_true_r. }
  congruence.
Qed.

End WithUuid.

Lemma header_fix_resolves_witness :
  In "security-hsts" Spec.headerRules
  /\ NoDup (map s_id (servers Sample.cleanScenario))
  /\ "s1" <> EmptyString
  /\ exists rule repair p n',
       findRule Sample.uuid "security-hsts" = Some rule /\ fix_ rule = Some repair
       /\ repair Sample.cleanScenario "s1" 0 = (p, n')
       /\ forall issue, In issue (fst (check rule (merge Sample.cleanScenario p) 0)) ->
                        affectedNodeId issue <> Some "s1".
Proof.
  assert (H1 : In "security-hsts" Spec.headerRules) by (simpl; auto).
  assert (H2 : NoDup (map s_id (servers Sample.cleanScenario))).
  { simpl. constructor; [intros []|constructor]. }
  assert (H3 : "s1" <> EmptyString) by discriminate.
  split; [exact H1|]. split; [exact H2|]. split; [exact H3|].
  exact (header_fix_resolves Sample.uuid Sample.cleanScenario "s1" "security-hsts" 0 0
           H1 H2 H3).
Defined.

Lemma hidden_files_fix_resolves_witness :
  "T" <> EmptyString
  /\ exists repair p n',
       fix_ (rule_hidden_files Sample.uuid) = Some repair
       /\ repair Sample.hijackScenario "T" 0 = (p, n')
       /\ forall issue,
            In issue (fst (check (rule_hidden_files Sample.uuid)
                             (merge Sample.hijackScenario p) 0)) ->
            affectedNodeId issue <> Some "T".
Proof.
  assert (H : "T" <> EmptyString) by discriminate.
  split; [exact H|].
  exact (hidden_files_fix_resolves Sample.uuid Sample.hijackScenario "T" 0 0 H).
Defined.

End RepairFacts.

(* ================================================================== *)
(** * The global rules after [applyAllFixes] *)
(* ================================================================== *)

Module EngineMoreFacts.
Import Audit.

Section WithUuid.
Variable uuid : nat -> string.

Lemma sort_In (l : list AuditIssue) (x : AuditIssue) :
  In x l -> In x (sort bySeverity l).
Proof.
  intros H. rewrite AuditFacts.sort_bySeverity. unfold Spec.ofSeverity.
  destruct (severity x) eqn:E.
  - apply in_or_app. left. apply filter_In. now rewrite E.
  - apply in_or_app. right. apply in_or_app. left. apply filter_In. now rewrite E.
  - apply in_or_app. right. apply in_or_app. right. apply filter_In. now rewrite E.
Qed.

Lemma concatChecks_In (rules : list AuditRule) (cfg : NginxConfig) (rule : AuditRule) :
  In rule rules ->
  forall n, exists k, forall issue,
    In issue (fst (check rule cfg k)) -> In issue (Spec.concatChecks uuid rules cfg n).
Proof.
  induction rules as [|r rules IH]; intros Hin n; [contradiction|].
  cbn [Spec.concatChecks]. destruct (check r cfg n) as [found n'] eqn:E.
  destruct Hin as [->|Hin].
  - exists n. intros issue Hi. rewrite E in Hi. apply in_or_app. now left.
  - destruct (IH Hin n') as (k & Hk). exists k. intros issue Hi.
    apply in_or_app. right. now apply Hk.
Qed.

Lemma runAudit_issues (cfg : NginxConfig) (n : nat) (x : AuditIssue) :
  In x (Spec.concatChecks uuid (auditRules uuid) cfg n) ->
  In x (issues (fst (runAudit uuid cfg n))).
Proof.
  intros H. unfold runAudit.
  pose proof (AuditFacts.runRules_concat uuid (auditRules uuid) cfg [] 0 n) as Hc.
  destruct (runRules (auditRules uuid) cfg [] 0 n) as [[collected passed] n'].
  cbn [fst] in Hc. cbn [fst issues]. apply sort_In. now rewrite Hc.
Qed.

(** A setting that the fix of the rule [name] establishes and that no fix
    undoes holds after [applyAllFixes]. *)
Section Setting.
Variable P : NginxConfig -> bool.
Variable name : string.

Hypothesis Hkeeps :
  forall rule repair cfg a n,
    In rule (auditRules uuid) -> fix_ rule = Some repair ->
    P cfg = true -> P (merge cfg (fst (repair cfg a n))) = true.

Hypothesis Hsets :
  forall cfg a n, exists rule repair,
    findRule uuid name = Some rule /\ fix_ rule = Some repair
    /\ (0 <? keysLength (fst (repair cfg a n))) = true
    /\ P (merge cfg (fst (repair cfg a n))) = true.

Hypothesis Hflags :
  forall cfg, P cfg = false ->
    exists rule, In rule (auditRules uuid) /\
      forall k, exists issue,
        In issue (fst (check rule cfg k)) /\ ruleId issue = name /\ canAutoFix issue = true.

Lemma fixIssue_keeps (st : FixState) (issue : AuditIssue) :
  P (currentConfig st) = true -> P (currentConfig (fixIssue uuid st issue)) = true.
Proof.
  intros H. unfold fixIssue.
  destruct (negb (canAutoFix issue)); [exact H|].
  destruct (findRule uuid (ruleId issue)) as [r|] eqn:Er; [|exact H].
  destruct (fix_ r) as [f|] eqn:Ef; [|exact H].
  assert (Hin : In r (auditRules uuid)) by (now apply find_some in Er as [Hin _]).
  pose proof (Hkeeps r f (currentConfig st)
                (orElse (affectedNodeId issue) EmptyString) (counter st) Hin Ef H) as Hm.
  destruct (f (currentConfig st) _ (counter st)) as [p n'].
  cbn [fst] in Hm. destruct (0 <? keysLength p); [exact Hm|exact H].
Qed.

Lemma fixIssue_sets (st : FixState) (issue : AuditIssue) :
  ruleId issue = name -> canAutoFix issue = true ->
  P (currentConfig (fixIssue uuid st issue)) = true.
Proof.
  intros Hn Hc. unfold fixIssue. rewrite Hc, Hn. cbn [negb].
  destruct (Hsets (currentConfig st) (orElse (affectedNodeId issue) EmptyString) (counter st))
    as (r & f & -> & -> & Hk & Hp).
  destruct (f (currentConfig st) _ (counter st)) as [p n'].
  cbn [fst] in *. now rewrite Hk.
Qed.

Lemma fixIssues_set (l : list AuditIssue) :
  forall st,
    P (currentConfig st) = true
    \/ (exists issue, In issue l /\ ruleId issue = name /\ canAutoFix issue = true) ->
    P (currentConfig (fold_left (fixIssue uuid) l st)) = true.
Proof.
  induction l as [|i l IH]; intros st H.
  - destruct H as [H|(x & [] & _)]. exact H.
  - cbn [fold_left]. apply IH.
    destruct H as [H|(x & [<-|Hx] & Hn & Hc)].
    + left. now apply fixIssue_keeps.
    + left. now apply fixIssue_sets.
    + right. now exists x.
Qed.

Lemma fixPass_sets (cfg : NginxConfig) (n : nat) (st0 : FixState) :
  currentConfig st0 = cfg ->
  P (currentConfig (fold_left (fixIssue uuid) (issues (fst (runAudit uuid cfg n))) st0)) = true.
Proof.
  intros E. apply fixIssues_set. destruct (P cfg) eqn:Hp; [left; now rewrite E|]. right.
  destruct (Hflags cfg Hp) as (rule & Hin & Hk).
  destruct (concatChecks_In (auditRules uuid) cfg rule Hin n) as (k & Hsub).
  destruct (Hk k) as (issue & Hi & Hn & Hc).
  exists issue. split; [|now split]. apply runAudit_issues. now apply Hsub.
Qed.

Lemma fixLoop_keeps (budget : nat) :
  forall st, P (currentConfig st) = true ->
    P (currentConfig (fixLoop uuid budget st)) = true.
Proof.
  induction budget as [|b IH]; intros st H; [exact H|]. cbn [fixLoop].
  destruct (hasChanges st); [|exact H].
  destruct (runAudit uuid (currentConfig st) (counter st)) as [audit n'].
  apply IH. apply fixIssues_set. now left.
Qed.

Lemma fixLoop_S (budget : nat) (st : FixState) :
  fixLoop uuid (S budget) st
  = if hasChanges st
    then let (audit, n') := runAudit uuid (currentConfig st) (counter st) in
         fixLoop uuid budget
           (fold_left (fixIssue uuid) (issues audit)
              {| currentConfig := currentConfig st; hasChanges := false;
                 iterations := S (iterations st); counter := n' |})
    else st.
Proof. reflexivity. Qed.

Lemma applyAllFixes_sets (cfg : NginxConfig) (n : nat) :
  P (applyAllFixes uuid cfg n) = true.
Proof.
  unfold applyAllFixes, applyAllFixesState.
  destruct (AutoFixService.applyAllFixes uuid cfg n) as [[cleaned n'] w].
  change maxIterations with (S 9). rewrite fixLoop_S.
  cbn [hasChanges currentConfig counter].
  pose proof (fixPass_sets cleaned n') as Hp.
  destruct (runAudit uuid cleaned n') as [audit n''] eqn:Ea. cbn [fst] in Hp.
  apply fixLoop_keeps. apply Hp. reflexivity.
Qed.
End Setting.

(** Every fix leaves the fields of the global blocks that it does not set
    as they are. *)
Ltac untouched H :=
  first
    [ exact H
    | reflexivity
    | unfold headerFix;
      repeat match goal with
             | |- context [if ?b then _ else _] => destruct b
             | |- context [match find ?a ?b with _ => _ end] => destruct (find a b)
             end; exact H ].

Ltac keeps :=
  let Hin := fresh "Hin" in
  let Hf := fresh "Hf" in
  let H := fresh "H" in
  intros ? ? ? ? ? Hin Hf H; unfold auditRules in Hin;
  repeat (destruct Hin as [<-|Hin];
          [try discriminate Hf; injection Hf as <-; untouched H|]);
  contradiction.

Ltac sets r :=
  intros ? ? ?; exists r; eexists; split; [reflexivity|]; split; [reflexivity|];
  split; reflexivity.

Ltac flags h :=
  let Hp := fresh "Hp" in
  intros ? Hp; cbv beta in Hp; try apply negb_false_iff in Hp;
  exists (h uuid); split; [unfold auditRules; cbn [In]; tauto|];
  intros k; eexists; split;
  [unfold h; cbn [check]; unfold checkOne; rewrite Hp; cbn [negb fst]; left; reflexivity
  |split; reflexivity].

Lemma tokens_off (cfg : NginxConfig) (n : nat) :
  (fun c => match serverTokens (http c) with Some false => true | _ => false end)
    (applyAllFixes uuid cfg n) = true.
Proof.
  apply applyAllFixes_sets with (name := "security-server-tokens").
  - keeps.
  - sets (rule_server_tokens uuid).
  - flags rule_server_tokens.
Qed.

Lemma gzip_on (cfg : NginxConfig) (n : nat) :
  (fun c => gz_enabled (gzip (http c))) (applyAllFixes uuid cfg n) = true.
Proof.
  apply applyAllFixes_sets with (name := "perf-gzip");
    [keeps|sets (rule_gzip uuid)|flags rule_gzip].
Qed.

Lemma sendfile_on (cfg : NginxConfig) (n : nat) :
  (fun c => sendfile (http c)) (applyAllFixes uuid cfg n) = true.
Proof.
  apply applyAllFixes_sets with (name := "perf-sendfile");
    [keeps|sets (rule_sendfile uuid)|flags rule_sendfile].
Qed.

Lemma nodelay_on (cfg : NginxConfig) (n : nat) :
  (fun c => tcpNodelay (http c)) (applyAllFixes uuid cfg n) = true.
Proof.
  apply applyAllFixes_sets with (name := "perf-tcp-nodelay");
    [keeps|sets (rule_tcp_nodelay uuid)|flags rule_tcp_nodelay].
Qed.

Lemma workers_auto (cfg : NginxConfig) (n : nat) :
  (fun c => String.eqb (workerProcesses (global c)) "auto") (applyAllFixes uuid cfg n) = true.
Proof.
  apply applyAllFixes_sets with (name := "perf-worker-processes");
    [keeps|sets (rule_worker_processes uuid)|flags rule_worker_processes].
Qed.

Lemma keepalive_long (cfg : NginxConfig) (n : nat) :
  (fun c => negb (Z.ltb (keepaliveTimeout (http c)) 60)) (applyAllFixes uuid cfg n) = true.
Proof.
  apply applyAllFixes_sets with (name := "perf-keepalive");
    [keeps|sets (rule_keepalive uuid)|flags rule_keepalive].
Qed.

(** For every config, the config that [applyAllFixes] returns passes the
    check of every rule on a global block: [server_tokens] is off, gzip,
    [sendfile] and [tcp_nodelay] are on, the worker count is [auto] and the
    keep-alive timeout is at least 60. *)
Theorem applyAllFixes_passes_global_rules (cfg : NginxConfig) (n m : nat)
    (ruleName : string) (rule : AuditRule) :
  In ruleName Spec.globalRules ->
  findRule uuid ruleName = Some rule ->
  fst (check rule (applyAllFixes uuid cfg n) m) = [].
Proof.
  intros Hr Hf. unfold Spec.globalRules in Hr.
  destruct Hr as [<-|[<-|[<-|[<-|[<-|[<-|[]]]]]]]; injection Hf as <-;
    cbn [check rule_server_tokens rule_gzip rule_sendfile rule_tcp_nodelay
           rule_worker_processes rule_keepalive]; unfold checkOne.
  - pose proof (tokens_off cfg n) as H. cbv beta in H. now rewrite H.
  - pose proof (gzip_on cfg n) as H. cbv beta in H. now rewrite H.
  - pose proof (sendfile_on cfg n) as H. cbv beta in H. now rewrite H.
  - pose proof (nodelay_on cfg n) as H. cbv beta in H. now rewrite H.
  - pose proof (workers_auto cfg n) as H. cbv beta in H. now rewrite H.
  - pose proof (keepalive_long cfg n) as H. cbv beta in H.
    apply negb_true_iff in H. now rewrite H.
Qed.

End WithUuid.

Lemma applyAllFixes_passes_global_rules_witness :
  In "perf-gzip" Spec.globalRules
  /\ findRule Sample.uuid "perf-gzip" = Some (rule_gzip Sample.uuid)
  /\ fst (check (rule_gzip Sample.uuid) (applyAllFixes Sample.uuid Sample.twoUsersScenario 0) 7)
     = [].
Proof.
  assert (H1 : In "perf-gzip" Spec.globalRules) by (simpl; auto).
  assert (H2 : findRule Sample.uuid "perf-gzip" = Some (rule_gzip Sample.uuid))
    by reflexivity.
  split; [exact H1|]. split; [exact H2|].
  exact (applyAllFixes_passes_global_rules Sample.uuid Sample.twoUsersScenario 0 7
           "perf-gzip" (rule_gzip Sample.uuid) H1 H2).
Defined.

End EngineMoreFacts.

(* ================================================================== *)
(** * The force-HTTPS rewrite and the protocol fix *)
(* ================================================================== *)

Module HijackFacts.
Import AutoFixService.

Section WithUuid.
Variable uuid : nat -> string.

(** [applyForceHttps] with an identifier that no server carries returns
    the config as it is and draws no identifier.  In every case it leaves
    the global, events and http blocks, the upstreams and the raw text as
    they are, adds no location, and draws at most one identifier. *)
Theorem applyForceHttps_frame (cfg : NginxConfig) (id : string) (n : nat) :
  let out := fst (applyForceHttps uuid cfg id n) in
  let n' := snd (applyForceHttps uuid cfg id n) in
  (find (fun s => String.eqb (s_id s) id) (servers cfg) = None -> out = cfg /\ n' = n)
  /\ global out = global cfg /\ events out = events cfg /\ http out = http cfg
  /\ upstreams out = upstreams cfg /\ rawConfig out = rawConfig cfg
  /\ (forall l, In l (locations out) -> In l (locations cfg))
  /\ n <= n' <= S n.
Proof.
  cbv zeta. unfold applyForceHttps.
  destruct (find (fun s => String.eqb (s_id s) id) (servers cfg)) as [S|].
  - split; [discriminate|].
    destruct (findHttpNode cfg (serverName S) id) as [T|].
    + match goal with |- context [if ?b then _ else _] => destruct b end;
        cbn [fst snd global events http upstreams rawConfig locations
               set_locations set_servers];
        repeat split; try lia; intros l Hl;
        repeat (apply filter_In in Hl as [Hl _]); exact Hl.
    + cbn [fst snd global events http upstreams rawConfig locations
             set_locations set_servers].
      repeat split; try lia. tauto.
  - cbn [fst snd]. repeat split; try lia. tauto.
Qed.

Lemma findHttpNode_some (cfg : NginxConfig) (name id : string) (T : ServerConfig) :
  findHttpNode cfg name id = Some T ->
  In T (servers cfg) /\ s_id T <> id.
Proof.
  unfold findHttpNode. intros H. apply find_some in H as [Hin Hc].
  split; [exact Hin|]. apply andb_prop in Hc as [Hc _]. apply andb_prop in Hc as [Hc _].
  apply negb_true_iff in Hc. now apply String.eqb_neq in Hc.
Qed.

(** After [applyForceHttps] for a server of the config there is a server
    on port 80 with the name of that server that does nothing but
    redirect: TLS off, no root, no index, and the redirect directive as its
    whole passthrough text, which [isRedirectServer] recognises.  The
    identifier that [uuidv4] hands out must not be the identifier of the
    HTTPS server. *)
Theorem applyForceHttps_redirect_server (cfg : NginxConfig) (id : string) (n : nat)
    (S : ServerConfig) :
  find (fun s => String.eqb (s_id s) id) (servers cfg) = Some S ->
  uuid n <> id ->
  exists r,
    In r (servers (fst (applyForceHttps uuid cfg id n)))
    /\ port (listen r) = 80%Z /\ serverName r = serverName S
    /\ enabled (ssl r) = false /\ root r = EmptyString /\ index r = []
    /\ s_customDirectives r = REDIRECT_DIRECTIVE
    /\ ConfigCleaner.isRedirectServer r = true.
Proof.
  intros HS Hfresh. unfold applyForceHttps. rewrite HS.
  destruct (findHttpNode cfg (serverName S) id) as [T|] eqn:ET.
  - destruct (findHttpNode_some _ _ _ _ ET) as [HT Hne].
    exists (convertToPureRedirectHttpServer T (serverName S)).
    split; [|now repeat split].
    set (conv := fun s => if String.eqb (s_id s) (s_id T)
                          then convertToPureRedirectHttpServer s (serverName S) else s).
    assert (Hc : conv T = convertToPureRedirectHttpServer T (serverName S))
      by (unfold conv; now rewrite String.eqb_refl).
    assert (Hkeep : (if String.eqb (s_id (convertToPureRedirectHttpServer T (serverName S))) id
                     then keepHttps (convertToPureRedirectHttpServer T (serverName S))
                     else convertToPureRedirectHttpServer T (serverName S))
                    = convertToPureRedirectHttpServer T (serverName S)).
    { cbn [s_id convertToPureRedirectHttpServer].
      destruct (String.eqb (s_id T) id) eqn:E; [|reflexivity].
      apply String.eqb_eq in E. contradiction. }
    match goal with |- context [if ?b then _ else _] => destruct b end;
      cbn [fst servers set_locations set_servers].
    + apply in_map_iff. exists (convertToPureRedirectHttpServer T (serverName S)).
      split; [exact Hkeep|]. apply filter_In. split.
      * rewrite <- Hc. now apply in_map.
      * apply negb_true_iff. destruct (existsb _ _) eqn:Ex; [|reflexivity].
        apply existsb_exists in Ex as (x & Hx & Ee).
        apply in_map_iff in Hx as (e & <- & He). apply filter_In in He as [_ He].
        apply andb_prop in He as [He _]. apply andb_prop in He as [He _].
        apply String.eqb_eq in Ee. cbn [s_id convertToPureRedirectHttpServer] in Ee.
        rewrite <- Ee, String.eqb_refl in He. discriminate He.
    + apply in_map_iff. exists (convertToPureRedirectHttpServer T (serverName S)).
      split; [exact Hkeep|]. rewrite <- Hc. now apply in_map.
  - cbn [fst servers set_locations set_servers].
    eexists. split.
    + apply in_map_iff. eexists. split; [|apply in_or_app; right; left; reflexivity].
      cbn [s_id convertToPureRedirectHttpServer].
      destruct (String.eqb (uuid n) id) eqn:E; [|reflexivity].
      apply String.eqb_eq in E. contradiction.
    + now repeat split.
Qed.

(** [fixSslProtocols] gives every server with TLS on the two safe
    protocols and leaves every other server as it is; the servers keep
    their number, order and identifiers. *)
Theorem fixSslProtocols_servers (cfg : NginxConfig) :
  let out := fixSslProtocols cfg in
  map s_id (servers out) = map s_id (servers cfg)
  /\ map (fun s => enabled (ssl s)) (servers out)
     = map (fun s => enabled (ssl s)) (servers cfg)
  /\ (forall s, In s (servers out) -> enabled (ssl s) = true ->
        protocols (ssl s) = ["TLSv1.2"; "TLSv1.3"])
  /\ (forall s, In s (servers cfg) -> enabled (ssl s) = false -> In s (servers out)).
Proof.
  cbv zeta. unfold fixSslProtocols. cbn [servers set_servers].
  split; [|split; [|split]].
  - rewrite map_map. apply map_ext. intros s. now destruct (enabled (ssl s)).
  - rewrite map_map. apply map_ext. intros s. now destruct (enabled (ssl s)) eqn:E.
  - intros s Hs He. apply in_map_iff in Hs as (s0 & <- & _).
    destruct (enabled (ssl s0)) eqn:E; cbn [negb] in *; [reflexivity|congruence].
  - intros s Hs He. apply in_map_iff. exists s. split; [|exact Hs]. now rewrite He.
Qed.

End WithUuid.

Lemma applyForceHttps_redirect_server_witness :
  find (fun s => String.eqb (s_id s) "S") (servers Sample.hijackScenario)
  = Some (Sample.server "S" 443 true)
  /\ Sample.uuid 0 <> "S"
  /\ exists r,
       In r (servers (fst (applyForceHttps Sample.uuid Sample.hijackScenario "S" 0)))
       /\ port (listen r) = 80%Z /\ serverName r = serverName (Sample.server "S" 443 true)
       /\ enabled (ssl r) = false /\ root r = EmptyString /\ index r = []
       /\ s_customDirectives r = REDIRECT_DIRECTIVE
       /\ ConfigCleaner.isRedirectServer r = true.
Proof.
  assert (H1 : find (fun s => String.eqb (s_id s) "S") (servers Sample.hijackScenario)
               = Some (Sample.server "S" 443 true)) by reflexivity.
  assert (H2 : Sample.uuid 0 <> "S") by (vm_compute; discriminate).
  split; [exact H1|]. split; [exact H2|].
  exact (applyForceHttps_redirect_server Sample.uuid Sample.hijackScenario "S" 0
           (Sample.server "S" 443 true) H1 H2).
Defined.

End HijackFacts.

(* ================================================================== *)
(** * The in-place hijack *)
(* ================================================================== *)

Module HijackInPlace.
Import AutoFixService.

Lemma unique_id (l : list ServerConfig) (a b : ServerConfig) :
  NoDup (map s_id l) -> In a l -> In b l -> s_id a = s_id b -> a = b.
Proof.
  induction l as [|x l IH]; intros Hnd Ha Hb E; [contradiction|].
  cbn [map] in Hnd. inversion Hnd as [|? ? Hx Hl]; subst.
  destruct Ha as [->|Ha], Hb as [->|Hb]; try reflexivity.
  - exfalso. apply Hx. rewrite E. now apply in_map.
  - exfalso. apply Hx. rewrite <- E. now apply in_map.
  - now apply IH.
Qed.

Section WithUuid.
Variable uuid : nat -> string.

Section Hijack.
Variable cfg : NginxConfig.
Variable id : string.
Variable n : nat.
Variables S T : ServerConfig.
Hypothesis Hnd : NoDup (map s_id (servers cfg)).
Hypothesis HS : find (fun s => String.eqb (s_id s) id) (servers cfg) = Some S.
Hypothesis HT : findHttpNode cfg (serverName S) id = Some T.
Hypothesis Hport : getPortAsString S <> "80".

Let name := serverName S.
Let conv (s : ServerConfig) : ServerConfig :=
  if String.eqb (s_id s) (s_id T) then convertToPureRedirectHttpServer s name else s.
Let isExtra (s : ServerConfig) : bool :=
  negb (String.eqb (s_id s) (s_id T)) && String.eqb (getPortAsString s) "80"
  && String.eqb (serverName s) name.
Let keep (s : ServerConfig) : ServerConfig :=
  if String.eqb (s_id s) id then keepHttps s else s.
Let extraIds : list string := map s_id (filter isExtra (map conv (servers cfg))).
Let notExtra (s : ServerConfig) : bool := negb (existsb (String.eqb (s_id s)) extraIds).

Lemma S_in : In S (servers cfg) /\ s_id S = id.
Proof. apply find_some in HS as [H1 H2]. apply String.eqb_eq in H2. now split. Qed.

Lemma T_in : In T (servers cfg) /\ s_id T <> id.
Proof. apply (HijackFacts.findHttpNode_some _ _ _ _ HT). Qed.

Lemma conv_id (s : ServerConfig) : s_id (conv s) = s_id s.
Proof. unfold conv. now destruct (String.eqb (s_id s) (s_id T)). Qed.

Lemma conv_other (s : ServerConfig) : s_id s <> s_id T -> conv s = s.
Proof. intros H. unfold conv. apply String.eqb_neq in H. now rewrite H. Qed.

Lemma conv_T : conv T = convertToPureRedirectHttpServer T name.
Proof. unfold conv. now rewrite String.eqb_refl. Qed.

(** The servers of the result, in both branches of the clean-up. *)
Lemma out_servers :
  servers (fst (applyForceHttps uuid cfg id n))
  = map keep (filter notExtra (map conv (servers cfg))).
Proof.
  unfold applyForceHttps. rewrite HS, HT. fold name. fold conv. fold isExtra.
  destruct (0 <? List.length (filter isExtra (map conv (servers cfg)))) eqn:E;
    cbn [fst servers set_locations set_servers].
  - reflexivity.
  - f_equal. apply Nat.ltb_ge in E.
    assert (Hnil : filter isExtra (map conv (servers cfg)) = [])
      by (destruct (filter isExtra (map conv (servers cfg))); [reflexivity|cbn in E; lia]).
    unfold notExtra, extraIds. rewrite Hnil. cbn [map existsb negb].
    symmetry. clear. induction (map conv (servers cfg)) as [|x l IH]; [reflexivity|].
    cbn [filter]. now rewrite IH.
Qed.

Lemma extra_ids (s : ServerConfig) :
  In s (servers cfg) -> notExtra (conv s) = negb (isExtra (conv s)).
Proof.
  intros Hs. unfold notExtra. f_equal.
  destruct (isExtra (conv s)) eqn:E.
  - apply existsb_exists. exists (s_id (conv s)). split; [|apply String.eqb_refl].
    unfold extraIds. apply in_map. apply filter_In. split; [now apply in_map|exact E].
  - destruct (existsb _ extraIds) eqn:Ex; [|reflexivity].
    apply existsb_exists in Ex as (i & Hi & Ei). apply String.eqb_eq in Ei.
    unfold extraIds in Hi. apply in_map_iff in Hi as (e & He & Hin).
    apply filter_In in Hin as [Hin Hextra]. apply in_map_iff in Hin as (e0 & <- & He0).
    rewrite conv_id in He. rewrite conv_id in Ei.
    assert (e0 = s) by (apply (unique_id (servers cfg)); congruence).
    subst e0. congruence.
Qed.

(** The port-collision resolver, for a target that does not listen on
    port 80 itself and a config whose servers have distinct identifiers:
    the target stays, with TLS on and the redirect flag cleared; the
    port-80 server found is turned into the redirect server; no other
    server on port 80 has the name; and no location is left that belongs to
    a server of the config on port 80 with that name. *)
(** The in-place hijack of [applyForceHttps]: for an HTTPS server [S] of
    the config that is not on port 80, with distinct server identifiers,
    when [findHttpNode] finds the port-80 server [T] of its name, the
    result holds [S] as step 4 leaves it, with TLS enabled and the
    [forceRedirect] flag cleared (the redirect now lives in [T]); it
    holds [T] turned into the pure redirect server, has no other server on
    port 80 with that name, and has no location left that belonged to a
    port-80 server of that name. *)
Theorem hijack_in_place :
  let out := fst (applyForceHttps uuid cfg id n) in
  (In (keepHttps S) (servers out)
   /\ enabled (ssl (keepHttps S)) = true
   /\ forceRedirect (ssl (keepHttps S)) = false)
  /\ In (convertToPureRedirectHttpServer T name) (servers out)
  /\ (forall s, In s (servers out) ->
        getPortAsString s = "80" -> serverName s = name ->
        s = convertToPureRedirectHttpServer T name)
  /\ (forall l s, In l (locations out) -> In s (servers cfg) ->
        serverId l = s_id s ->
        ~ (getPortAsString s = "80" /\ serverName s = name)).
Proof.
  cbv zeta. destruct S_in as [HSin HSid]. destruct T_in as [HTin HTid].
  assert (HSnotT : s_id S <> s_id T) by congruence.
  split; [split; [|now split]|split; [|split]].
  - rewrite out_servers. apply in_map_iff. exists S. split.
    + unfold keep. now rewrite HSid, String.eqb_refl.
    + apply filter_In. split.
      * rewrite <- (conv_other S HSnotT). now apply in_map.
      * rewrite <- (conv_other S HSnotT), (extra_ids S HSin), (conv_other S HSnotT).
        unfold isExtra. apply String.eqb_neq in Hport. rewrite Hport.
        now rewrite andb_false_r.
  - rewrite out_servers. apply in_map_iff. exists (conv T). split.
    + rewrite conv_T. unfold keep. cbn [s_id convertToPureRedirectHttpServer].
      apply String.eqb_neq in HTid. now rewrite HTid.
    + apply filter_In. split; [now apply in_map|]. rewrite (extra_ids T HTin).
      unfold isExtra. rewrite conv_id, String.eqb_refl. reflexivity.
  - intros s Hs Hp Hn. rewrite out_servers in Hs.
    apply in_map_iff in Hs as (s1 & <- & Hs1). apply filter_In in Hs1 as [Hs1 Hne].
    apply in_map_iff in Hs1 as (s0 & <- & Hs0). rewrite (extra_ids s0 Hs0) in Hne.
    apply negb_true_iff in Hne. unfold keep in *. rewrite conv_id in *.
    destruct (String.eqb (s_id s0) id) eqn:Eid.
    + apply String.eqb_eq in Eid.
      assert (s0 = S) by (apply (unique_id (servers cfg)); congruence). subst s0.
      rewrite (conv_other S HSnotT) in Hp. exfalso. apply Hport.
      exact Hp.
    + destruct (String.eqb (s_id s0) (s_id T)) eqn:ET.
      * apply String.eqb_eq in ET.
        assert (s0 = T) by (apply (unique_id (servers cfg)); congruence). subst s0.
        apply conv_T.
      * exfalso. apply String.eqb_neq in ET. rewrite (conv_other s0 ET) in *.
        unfold isExtra in Hne. apply String.eqb_neq in ET. rewrite ET in Hne.
        cbn [negb andb] in Hne.
        apply (proj2 (String.eqb_eq _ _)) in Hp. apply (proj2 (String.eqb_eq _ _)) in Hn.
        rewrite Hp, Hn in Hne. discriminate.
  - intros l s Hl Hs El (Hp & Hn).
    unfold applyForceHttps in Hl. rewrite HS, HT in Hl. fold name in Hl.
    fold conv in Hl. fold isExtra in Hl.
    assert (Hfirst : In l (filter (fun l => negb (String.eqb (serverId l) (s_id T)))
                                  (locations cfg)) -> s_id s <> s_id T).
    { intros H. apply filter_In in H as [_ H]. apply negb_true_iff in H.
      apply String.eqb_neq in H. congruence. }
    assert (Hextra : s_id s <> s_id T -> isExtra (conv s) = true).
    { intros Hne. rewrite (conv_other s Hne). unfold isExtra.
      apply String.eqb_neq in Hne. rewrite Hne.
      apply (proj2 (String.eqb_eq _ _)) in Hp. apply (proj2 (String.eqb_eq _ _)) in Hn.
      now rewrite Hp, Hn. }
    destruct (0 <? List.length (filter isExtra (map conv (servers cfg)))) eqn:E;
      cbn [fst locations set_locations set_servers] in Hl.
    + apply filter_In in Hl as [Hl Hkeep]. specialize (Hfirst Hl).
      apply negb_true_iff in Hkeep.
      assert (Hin : existsb (String.eqb (serverId l))
                      (map s_id (filter isExtra (map conv (servers cfg)))) = true).
      { apply existsb_exists. exists (s_id (conv s)). split.
        - apply in_map. apply filter_In. split; [now apply in_map|now apply Hextra].
        - rewrite conv_id, El. apply String.eqb_refl. }
      congruence.
    + specialize (Hfirst Hl). apply Nat.ltb_ge in E.
      assert (Hin : In (conv s) (filter isExtra (map conv (servers cfg)))).
      { apply filter_In. split; [now apply in_map|now apply Hextra]. }
      destruct (filter isExtra (map conv (servers cfg))); [contradiction|cbn in E; lia].
Qed.
End Hijack.
End WithUuid.

Lemma hijack_in_place_witness :
  let S := Sample.server "S" 443 true in
  let T := Sample.server "T" 80 false in
  let out := fst (applyForceHttps Sample.uuid Sample.hijackScenario "S" 0) in
  NoDup (map s_id (servers Sample.hijackScenario))
  /\ find (fun s => String.eqb (s_id s) "S") (servers Sample.hijackScenario) = Some S
  /\ findHttpNode Sample.hijackScenario (serverName S) "S" = Some T
  /\ getPortAsString S <> "80"
  /\ (In (keepHttps S) (servers out)
      /\ enabled (ssl (keepHttps S)) = true
      /\ forceRedirect (ssl (keepHttps S)) = false)
  /\ In (convertToPureRedirectHttpServer T (serverName S)) (servers out)
  /\ (forall s, In s (servers out) ->
        getPortAsString s = "80" -> serverName s = serverName S ->
        s = convertToPureRedirectHttpServer T (serverName S))
  /\ (forall l s, In l (locations out) -> In s (servers Sample.hijackScenario) ->
        serverId l = s_id s ->
        ~ (getPortAsString s = "80" /\ serverName s = serverName S)).
Proof.
  cbv zeta.
  assert (H1 : NoDup (map s_id (servers Sample.hijackScenario))).
  { simpl. constructor; [intros [H|[]]; discriminate H|].
    constructor; [intros []|constructor]. }
  assert (H2 : find (fun s => String.eqb (s_id s) "S") (servers Sample.hijackScenario)
               = Some (Sample.server "S" 443 true)) by reflexivity.
  assert (H3 : findHttpNode Sample.hijackScenario
                 (serverName (Sample.server "S" 443 true)) "S"
               = Some (Sample.server "T" 80 false)) by reflexivity.
  assert (H4 : getPortAsString (Sample.server "S" 443 true) <> "80")
    by (vm_compute; discriminate).
  split; [exact H1|]. split; [exact H2|]. split; [exact H3|]. split; [exact H4|].
  exact (hijack_in_place Sample.uuid Sample.hijackScenario "S" 0
           (Sample.server "S" 443 true) (Sample.server "T" 80 false) H1 H2 H3 H4).
Defined.

End HijackInPlace.

(* ================================================================== *)
(** * The answer of [matchLocation] *)
(* ================================================================== *)

Module MatcherMoreFacts.
Import Matcher MatchNotions.

Lemma prefixStep_cases (requestPath : string) (st : option LocationConfig * nat)
    (loc : LocationConfig) :
  (keepable requestPath loc = true /\ snd st < String.length (path loc)
   /\ prefixStep requestPath st loc = (Some loc, String.length (path loc)))
  \/ ((keepable requestPath loc = true -> String.length (path loc) <= snd st)
      /\ prefixStep requestPath st loc = st).
Proof.
  unfold prefixStep, keepable, Spec.isPrefixLocation.
  destruct (Modifier_eqb (modifier loc) ModNone || Modifier_eqb (modifier loc) ModPrefixPriority);
    cbn [andb]; [|right; split; [discriminate|reflexivity]].
  destruct (Js.startsWith requestPath (path loc));
    cbn [andb]; [|right; split; [discriminate|reflexivity]].
  destruct (snd st <? String.length (path loc)) eqn:E.
  - apply Nat.ltb_lt in E. left. split; [apply Nat.ltb_lt; lia|]. now split.
  - apply Nat.ltb_ge in E. right. now split.
Qed.

Lemma prefixStep_scanned (requestPath : string) (seen : list LocationConfig)
    (st : option LocationConfig * nat) (loc : LocationConfig) :
  scanned requestPath seen st ->
  scanned requestPath (seen ++ [loc]) (prefixStep requestPath st loc).
Proof.
  intros H.
  destruct (prefixStep_cases requestPath st loc) as [(Hk & Hlt & ->)|[Hle ->]];
    destruct st as [[b|] k]; unfold scanned in *; cbn [fst snd] in *.
  - destruct H as (-> & before & after & -> & Hb & Hbef & Haft).
    split; [reflexivity|]. exists (before ++ b :: after), []. split; [reflexivity|].
    split; [exact Hk|]. split; [|intros c []].
    intros c Hc Hkc. apply in_app_or in Hc as [Hc|[<-|Hc]].
    + specialize (Hbef c Hc Hkc). lia.
    + exact Hlt.
    + specialize (Haft c Hc Hkc). lia.
  - destruct H as [-> Hnone]. split; [reflexivity|].
    exists seen, []. split; [reflexivity|]. split; [exact Hk|]. split; [|intros c []].
    intros c Hc Hkc. rewrite (Hnone c Hc) in Hkc. discriminate.
  - destruct H as (-> & before & after & -> & Hb & Hbef & Haft).
    split; [reflexivity|]. exists before, (after ++ [loc]).
    split; [now rewrite <- app_assoc|]. split; [exact Hb|]. split; [exact Hbef|].
    intros c Hc Hkc. apply in_app_or in Hc as [Hc|[<-|[]]]; [now apply Haft|now apply Hle].
  - destruct H as [-> Hnone]. split; [reflexivity|].
    intros c Hc. apply in_app_or in Hc as [Hc|[<-|[]]]; [now apply Hnone|].
    destruct (keepable requestPath loc) eqn:E; [|reflexivity].
    specialize (Hle eq_refl). unfold keepable in E. apply andb_prop in E as [_ E].
    apply Nat.ltb_lt in E. lia.
Qed.

Lemma scan_scanned (requestPath : string) (rest : list LocationConfig) :
  forall seen st, scanned requestPath seen st ->
    scanned requestPath (seen ++ rest) (fold_left (prefixStep requestPath) rest st).
Proof.
  induction rest as [|loc rest IH]; intros seen st H; cbn [fold_left].
  - now rewrite app_nil_r.
  - change (seen ++ loc :: rest) with (seen ++ [loc] ++ rest). rewrite app_assoc.
    apply IH. now apply prefixStep_scanned.
Qed.

Lemma bestPrefix_scanned (requestPath : string) (locs : list LocationConfig) :
  scanned requestPath locs (bestPrefix requestPath locs).
Proof.
  unfold bestPrefix. apply (scan_scanned requestPath locs [] (None, 0)).
  split; [reflexivity|]. intros c [].
Qed.

(** The prefix scan of [matchLocation] returns the first of the longest
    among the prefix locations whose path starts the request path and is
    not empty, and nothing when there is none: every such location before
    the one returned has a shorter path, none after it has a longer
    one. *)
Theorem bestPrefix_longest_first (requestPath : string) (locs : list LocationConfig) :
  match fst (bestPrefix requestPath locs) with
  | Some b =>
      exists before after,
        locs = before ++ b :: after
        /\ keepable requestPath b = true
        /\ (forall c, In c before -> keepable requestPath c = true ->
              String.length (path c) < String.length (path b))
        /\ (forall c, In c after -> keepable requestPath c = true ->
              String.length (path c) <= String.length (path b))
  | None => forall c, In c locs -> keepable requestPath c = false
  end.
Proof.
  pose proof (bestPrefix_scanned requestPath locs) as H. unfold scanned in H.
  destruct (fst (bestPrefix requestPath locs)); now destruct H.
Qed.

Section WithRegExp.
Variable regexp : Type.
Variable RegExp_new : string -> string -> completion regexp.
Variable RegExp_test : regexp -> string -> bool.

(** [matchLocation] answers with a location of the list that does match
    the request path in the way of its modifier, and with the priority
    that goes with that modifier; [null] goes with the priority [none]. *)
Theorem matchLocation_sound (requestPath : string) (locs : list LocationConfig) :
  exists result log,
    matchLocation RegExp_new RegExp_test requestPath locs = Normal (result, log)
    /\ match matchedLocation result with
       | Some loc =>
           In loc locs
           /\ Spec.locationMatches RegExp_new RegExp_test requestPath loc = true
           /\ priorityOf (modifier loc) = [priority result]
       | None => priority result = PNone
       end.
Proof.
  destruct (MatcherFacts.matchLocation_tiers RegExp_new RegExp_test requestPath locs)
    as [log Hm].
  eexists. exists log. split; [exact Hm|].
  rewrite MatcherFacts.exactLoop_find, MatcherFacts.regexLoop_find.
  assert (Hexact : forall loc, Spec.firstExact requestPath locs = Some loc ->
            In loc locs
            /\ Spec.locationMatches RegExp_new RegExp_test requestPath loc = true
            /\ priorityOf (modifier loc) = [PExact]).
  { intros loc H. apply find_some in H as [Hin Hc]. apply andb_prop in Hc as [H1 H2].
    split; [exact Hin|]. unfold Spec.locationMatches.
    destruct (modifier loc); try discriminate H1. now split. }
  assert (Hregex : forall loc,
            Spec.firstRegex RegExp_new RegExp_test requestPath locs = Some loc ->
            In loc locs
            /\ Spec.locationMatches RegExp_new RegExp_test requestPath loc = true
            /\ priorityOf (modifier loc) = [PRegex]).
  { intros loc H. apply find_some in H as [Hin Hc]. apply andb_prop in Hc as [H1 H2].
    split; [exact Hin|]. split; [exact H2|]. unfold Spec.isRegexLocation in H1.
    destruct (modifier loc); try discriminate H1; reflexivity. }
  pose proof (bestPrefix_scanned requestPath locs) as Hbest.
  unfold scanned in Hbest.
  unfold Spec.tiers.
  destruct (Spec.firstExact requestPath locs) as [e|]; [now apply Hexact|].
  destruct (fst (bestPrefix requestPath locs)) as [b|].
  - destruct Hbest as (_ & before & after & Hl & Hb & _).
    assert (Hin : In b locs) by (rewrite Hl; apply in_or_app; right; now left).
    unfold keepable in Hb. apply andb_prop in Hb as [Hb _]. apply andb_prop in Hb as [Hp Hs].
    unfold Spec.isPrefixLocation in Hp.
    destruct (Modifier_eqb (modifier b) ModPrefixPriority) eqn:E; cbn [matchedLocation priority].
    + split; [exact Hin|]. unfold Spec.locationMatches.
      destruct (modifier b); try discriminate E. now split.
    + destruct (Spec.firstRegex RegExp_new RegExp_test requestPath locs) as [r|];
        cbn [matchedLocation priority]; [now apply Hregex|].
      split; [exact Hin|]. unfold Spec.locationMatches.
      destruct (modifier b); try discriminate Hp; try discriminate E. now split.
  - destruct (Spec.firstRegex RegExp_new RegExp_test requestPath locs) as [r|];
      cbn [matchedLocation priority]; [now apply Hregex|reflexivity].
Qed.
End WithRegExp.

End MatcherMoreFacts.

(* ================================================================== *)
(** * The score of an audit *)
(* ================================================================== *)

Module ScoreFacts.
Import Audit.

Section WithUuid.
Variable uuid : nat -> string.

Lemma runRules_passed (rules : list AuditRule) (cfg : NginxConfig) :
  forall acc passed n,
    exists extra,
      fst (fst (runRules rules cfg acc passed n)) = acc ++ extra
      /\ snd (fst (runRules rules cfg acc passed n)) <= passed + List.length rules
      /\ (snd (fst (runRules rules cfg acc passed n)) = passed + List.length rules
          <-> extra = []).
Proof.
  induction rules as [|rule rest IH]; intros acc passed n; cbn [runRules].
  - exists []. cbn [fst snd List.length]. rewrite app_nil_r. split; [reflexivity|].
    split; [lia|]. split; [reflexivity|lia].
  - destruct (check rule cfg n) as [found n'].
    destruct found as [|i found]; cbn [List.length Nat.eqb].
    + destruct (IH acc (S passed) n') as (extra & He & Hle & Hiff).
      exists extra. split; [exact He|]. split; [lia|]. rewrite <- Hiff. lia.
    + destruct (IH (acc ++ i :: found) passed n') as (extra & He & Hle & Hiff).
      exists ((i :: found) ++ extra). split; [now rewrite He, <- app_assoc|].
      split; [lia|]. split; [lia|discriminate].
Qed.

Lemma sort_nil (l : list AuditIssue) : sort bySeverity l = [] <-> l = [].
Proof.
  split; [|now intros ->]. destruct l as [|x l]; [reflexivity|]. intros H.
  assert (Hin : In x (sort bySeverity (x :: l))).
  { rewrite AuditFacts.sort_bySeverity. unfold Spec.ofSeverity.
    destruct (severity x) eqn:E.
    - apply in_or_app. left. apply filter_In. rewrite E. split; [now left|reflexivity].
    - apply in_or_app. right. apply in_or_app. left. apply filter_In. rewrite E.
      split; [now left|reflexivity].
    - apply in_or_app. right. apply in_or_app. right. apply filter_In. rewrite E.
      split; [now left|reflexivity]. }
  rewrite H in Hin. contradiction.
Qed.

Lemma counts_zero (l : list AuditIssue) :
  countSeverity critical l = 0%Z -> countSeverity warning l = 0%Z ->
  countSeverity info l = 0%Z -> l = [].
Proof.
  unfold countSeverity. destruct l as [|x l]; [reflexivity|]. cbn [filter].
  destruct (severity x); cbn [AuditSeverity_eqb List.length]; intros; lia.
Qed.

(** The score of an audit lies between 0 and 100; there are twelve rules;
    the score is 100 exactly when no issue was found, and that is exactly
    when all twelve rules passed. *)
Theorem runAudit_score (cfg : NginxConfig) (n : nat) :
  let r := fst (runAudit uuid cfg n) in
  (0 <= score r <= 100)%Z
  /\ totalRules r = 12 /\ passedRules r <= 12
  /\ (score r = 100%Z <-> issues r = [])
  /\ (passedRules r = 12 <-> issues r = []).
Proof.
  cbv zeta. unfold runAudit.
  destruct (runRules_passed (auditRules uuid) cfg [] 0 n) as (extra & He & Hle & Hiff).
  destruct (runRules (auditRules uuid) cfg [] 0 n) as [[collected passed] n'].
  cbn [fst snd] in *. cbn [app] in He. subst extra.
  cbn [score totalRules passedRules issues].
  set (sorted := sort bySeverity collected).
  assert (Hc : (0 <= countSeverity critical sorted)%Z) by (unfold countSeverity; lia).
  assert (Hw : (0 <= countSeverity warning sorted)%Z) by (unfold countSeverity; lia).
  assert (Hi : (0 <= countSeverity info sorted)%Z) by (unfold countSeverity; lia).
  split; [lia|]. split; [reflexivity|]. split; [exact Hle|]. split.
  - split.
    + intros H. apply counts_zero; lia.
    + intros ->. reflexivity.
  - unfold sorted. rewrite sort_nil. exact Hiff.
Qed.
End WithUuid.

End ScoreFacts.

(* ================================================================== *)
(** * Properties of the lexer *)
(* ================================================================== *)

Module LexerFacts.
Import Lexer LexNotions.

Lemma push_inv (t : Token) (r : outcome (list Token)) (toks : list Token) :
  push t r = Return toks -> exists l, r = Return l /\ toks = t :: l.
Proof. destruct r as [l|e]; cbn [push]; intros H; [|discriminate]. injection H as <-. eauto. Qed.

Lemma closed_cons (t : Token) (l : list Token) :
  t_type t <> EOF -> t_type t <> NEWLINE -> closed l -> closed (t :: l).
Proof.
  intros H1 H2 (front & last & -> & Hl & Hv & Hf).
  exists (t :: front), last. split; [reflexivity|]. split; [exact Hl|]. split; [exact Hv|].
  constructor; [now split|exact Hf].
Qed.

Ltac scan_cases IH :=
  repeat match goal with
         | H : (if ?b then _ else _) = Return _ |- _ => destruct b
         | H : push _ _ = Return _ |- _ =>
             let l := fresh "l" in
             let E := fresh "E" in
             apply push_inv in H as (l & E & ->)
         | H : match ?r with EmptyString => _ | String _ _ => _ end = Return _ |- _ =>
             destruct r
         end;
  try discriminate;
  repeat (apply closed_cons; [discriminate|discriminate|]);
  try (eapply IH; [|eassumption]; cbn [String.length] in *; lia).

Lemma scan_closed (n : nat) :
  forall input, String.length input <= n ->
  forall mode line column toks,
    scan mode line column input = Return toks -> closed toks.
Proof.
  induction n as [|n IH]; intros input Hlen mode line column toks H.
  - destruct input; [|cbn in Hlen; lia]. cbn [scan] in H.
    destruct mode; try discriminate; injection H as <-.
    + exists [], {| t_type := EOF; t_value := EmptyString; t_line := line; t_column := column |}.
      now repeat split.
    + exists [], {| t_type := EOF; t_value := EmptyString; t_line := line; t_column := column |}.
      now repeat split.
    + eexists [_], _. split; [reflexivity|]. split; [reflexivity|]. split; [reflexivity|].
      constructor; [split; discriminate|constructor].
  - destruct input as [|c rest].
    + apply (IH EmptyString (Nat.le_0_l _) mode line column toks H).
    + cbn [String.length] in Hlen. cbn [scan] in H.
      destruct mode; scan_cases IH.
Qed.

(** When [tokenize] returns, the token list ends with the [EOF] token,
    which has the empty value, and has no other [EOF] and no [NEWLINE]
    token. *)
Theorem tokenize_closed (input : string) (toks : list Token) :
  tokenize input = Return toks -> closed toks.
Proof. apply (scan_closed (String.length input) input (le_n _)). Qed.

Lemma tokenize_closed_witness :
  exists toks, tokenize "gzip on; # compression" = Return toks /\ closed toks.
Proof.
  eexists. split; [vm_compute; reflexivity|].
  apply (tokenize_closed "gzip on; # compression"). vm_compute. reflexivity.
Defined.


Lemma push_raise (t : Token) (r : outcome (list Token)) (e : ParseError) :
  push t r = Raise e -> r = Raise e.
Proof. destruct r; cbn [push]; intros H; [discriminate|exact H]. Qed.

Lemma failure_later (mode mode' : Mode) (c : ascii) (input : string) (e : ParseError) :
  (inQuotes mode' = true -> inQuotes mode = true \/ isQuote c = true) ->
  failure mode' input e -> failure mode (String c input) e.
Proof.
  intros Hq [[Hm Hh]|(d & Hm & Hs & Hh)].
  - left. split; [exact Hm|]. cbn [hasChar]. apply orb_prop in Hh as [Hh|Hh].
    + destruct (Hq Hh) as [->| ->]; [reflexivity|]. now rewrite orb_true_r.
    + now rewrite Hh, !orb_true_r.
  - right. exists d. split; [exact Hm|]. split; [exact Hs|].
    cbn [hasChar]. now rewrite Hh, orb_true_r.
Qed.

Lemma stray_char (c : ascii) :
  (Ascii.eqb c " " || Ascii.eqb c TAB || Ascii.eqb c Js.CR) = false ->
  Ascii.eqb c Js.LF = false -> Ascii.eqb c "#" = false -> Ascii.eqb c ";" = false ->
  Ascii.eqb c "{" = false -> Ascii.eqb c "}" = false -> isQuote c = false ->
  isWordChar c = false -> isStray c = true.
Proof.
  unfold isWordChar, isStray, isQuote. intros H1 H2 H3 H4 H5 H6 H7 H8.
  apply orb_false_elim in H7 as [H7 H7']. apply negb_false_iff in H8.
  rewrite H4, H5, H6, H7, H7', H3, !orb_false_r in H8. rewrite H8, H1, H2. reflexivity.
Qed.

Lemma scan_failure (n : nat) :
  forall input, String.length input <= n ->
  forall mode line column e,
    scan mode line column input = Raise e -> failure mode input e.
Proof.
  induction n as [|n IH]; intros input Hlen mode line column e H.
  - destruct input; [|cbn in Hlen; lia]. cbn [scan] in H.
    destruct mode; try discriminate. injection H as <-. left. now split.
  - destruct input as [|c rest].
    + apply (IH EmptyString (Nat.le_0_l _) mode line column e H).
    + cbn [String.length] in Hlen.
      assert (Hrest : forall mode' line' column',
                 scan mode' line' column' rest = Raise e ->
                 (inQuotes mode' = true -> inQuotes mode = true \/ isQuote c = true) ->
                 failure mode (String c rest) e).
      { intros mode' line' column' Hs Hq. apply (failure_later mode mode' c rest e Hq).
        apply (IH rest ltac:(lia) mode' line' column' e Hs). }
      assert (Houter :
        (if Ascii.eqb c " " || Ascii.eqb c TAB || Ascii.eqb c Js.CR
         then scan Top line (S column) rest
         else if Ascii.eqb c Js.LF then scan Top (S line) 1 rest
         else if Ascii.eqb c "#" then scan Comment line column rest
         else if Ascii.eqb c ";"
         then push {| t_type := SEMICOLON; t_value := ";"; t_line := line;
                      t_column := column |} (scan Top line (S column) rest)
         else if Ascii.eqb c "{"
         then push {| t_type := LBRACE; t_value := "{"; t_line := line;
                      t_column := column |} (scan Top line (S column) rest)
         else if Ascii.eqb c "}"
         then push {| t_type := RBRACE; t_value := "}"; t_line := line;
                      t_column := column |} (scan Top line (S column) rest)
         else if isQuote c then scan (Quoted c column EmptyString) line (S column) rest
         else if isWordChar c
         then scan (Word column (String c EmptyString)) line (S column) rest
         else Raise {| e_message := "Unexpected character: " ++ String c EmptyString;
                       e_line := line; e_column := column |}) = Raise e ->
        failure mode (String c rest) e).
      { intros Ho.
        destruct (Ascii.eqb c " " || Ascii.eqb c TAB || Ascii.eqb c Js.CR) eqn:E1;
          [apply (Hrest _ _ _ Ho); discriminate|].
        destruct (Ascii.eqb c Js.LF) eqn:E2; [apply (Hrest _ _ _ Ho); discriminate|].
        destruct (Ascii.eqb c "#") eqn:E3; [apply (Hrest _ _ _ Ho); discriminate|].
        destruct (Ascii.eqb c ";") eqn:E4;
          [apply push_raise in Ho; apply (Hrest _ _ _ Ho); discriminate|].
        destruct (Ascii.eqb c "{") eqn:E5;
          [apply push_raise in Ho; apply (Hrest _ _ _ Ho); discriminate|].
        destruct (Ascii.eqb c "}") eqn:E6;
          [apply push_raise in Ho; apply (Hrest _ _ _ Ho); discriminate|].
        destruct (isQuote c) eqn:E7; [apply (Hrest _ _ _ Ho); now right|].
        destruct (isWordChar c) eqn:E8; [apply (Hrest _ _ _ Ho); discriminate|].
        injection Ho as <-. right. exists c. split; [reflexivity|].
        split; [now apply stray_char|]. cbn [hasChar]. now rewrite Ascii.eqb_refl. }
      cbn [scan] in H. destruct mode as [| |start v|q start v].
      * now apply Houter.
      * destruct (Ascii.eqb c Js.LF); [now apply Houter|].
        apply (Hrest _ _ _ H). discriminate.
      * destruct (isWordChar c); [apply (Hrest _ _ _ H); discriminate|].
        apply push_raise in H. now apply Houter.
      * destruct (Ascii.eqb c q).
        { apply push_raise in H. apply (Hrest _ _ _ H). discriminate. }
        destruct (Ascii.eqb c BACKSLASH).
        { destruct rest as [|d rest'].
          - cbn [scan] in H. injection H as <-. left. now split.
          - apply (failure_later (Quoted q start v) (Quoted q start v) c _ e (fun _ => or_introl eq_refl)).
            apply (failure_later (Quoted q start v) (Quoted q start (snoc v d)) d _ e
                     (fun _ => or_introl eq_refl)).
            cbn [String.length] in Hlen.
            destruct (Ascii.eqb d Js.LF);
              apply (IH rest' ltac:(lia) _ _ _ e H). }
        destruct (Ascii.eqb c Js.LF); apply (Hrest _ _ _ H); now left.
Qed.

(** [tokenize] throws in two cases only: a quoted string that is not
    closed, and a white space character that the lexer does not skip,
    that is a character of [\s] other than the space, the tab, CR and LF,
    outside quotes and comments.  In the 8-bit strings of the embedding
    these are the vertical tab, the form feed and the no-break space. *)
Theorem tokenize_failure (input : string) (e : ParseError) :
  tokenize input = Raise e ->
  (e_message e = "Unterminated string" /\ hasChar isQuote input = true)
  \/ (exists c, e_message e = ("Unexpected character: " ++ String c EmptyString)%string
                /\ isStray c = true /\ hasChar (Ascii.eqb c) input = true).
Proof.
  intros H. apply (scan_failure (String.length input) input (le_n _)) in H.
  exact H.
Qed.

Lemma tokenize_failure_witness :
  exists e,
    tokenize "root '/var/www" = Raise e
    /\ ((e_message e = "Unterminated string" /\ hasChar isQuote "root '/var/www" = true)
        \/ (exists c, e_message e = ("Unexpected character: " ++ String c EmptyString)%string
                      /\ isStray c = true /\ hasChar (Ascii.eqb c) "root '/var/www" = true)).
Proof.
  eexists. split; [vm_compute; reflexivity|].
  apply (tokenize_failure "root '/var/www"). vm_compute. reflexivity.
Defined.


Lemma hasChar_none (p q : ascii -> bool) (s : string) :
  (forall c, q c = true -> p c = true) -> hasChar p s = false -> hasChar q s = false.
Proof.
  intros Hpq. induction s as [|c t IH]; [reflexivity|]. cbn [hasChar]. intros H.
  apply orb_false_elim in H as [Hc Ht]. rewrite (IH Ht), orb_false_r.
  destruct (q c) eqn:E; [|reflexivity]. now rewrite (Hpq c E) in Hc.
Qed.

(** On a text without quote characters and without white space that the
    lexer does not skip (a character of [\s] other than the space, the
    tab, CR and LF) the lexer returns a token list. *)
Theorem tokenize_total (input : string) :
  hasChar isQuote input = false -> hasChar isStray input = false ->
  exists toks, tokenize input = Return toks.
Proof.
  intros Hq Hs. destruct (tokenize input) as [toks|e] eqn:E; [now exists toks|].
  apply (scan_failure (String.length input) input (le_n _)) in E.
  destruct E as [[_ H]|(c & _ & Hc & H)]; [cbn [inQuotes orb] in H; congruence|].
  rewrite (hasChar_none isStray (Ascii.eqb c) input) in H; [discriminate| |exact Hs].
  intros d Hd. apply Ascii.eqb_eq in Hd. now subst.
Qed.

Lemma tokenize_total_witness :
  hasChar isQuote "server { listen 80; }" = false
  /\ hasChar isStray "server { listen 80; }" = false
  /\ exists toks, tokenize "server { listen 80; }" = Return toks.
Proof.
  split; [reflexivity|]. split; [reflexivity|].
  apply (tokenize_total "server { listen 80; }"); reflexivity.
Defined.


Lemma wordChar_outer (c : ascii) :
  isWordChar c = true ->
  (Ascii.eqb c " " || Ascii.eqb c TAB || Ascii.eqb c Js.CR) = false
  /\ Ascii.eqb c Js.LF = false /\ Ascii.eqb c "#" = false /\ Ascii.eqb c ";" = false
  /\ Ascii.eqb c "{" = false /\ Ascii.eqb c "}" = false /\ isQuote c = false.
Proof.
  destruct c as [[] [] [] [] [] [] [] []]; intros H; try discriminate H;
    repeat split; reflexivity.
Qed.

Lemma app_snoc (v : string) (c : ascii) (w : string) :
  (snoc v c ++ w)%string = (v ++ String c w)%string.
Proof. unfold snoc. induction v as [|d v IH]; cbn [append]; [reflexivity|now rewrite IH]. Qed.

(** Inside a word the scan goes on over word characters. *)
Lemma scan_word (w : string) :
  Shape.allChars isWordChar w = true ->
  forall start v line column rest,
    scan (Word start v) line column (w ++ rest)
    = scan (Word start (v ++ w)) line (column + String.length w) rest.
Proof.
  induction w as [|c w IH]; intros Hw start v line column rest.
  - cbn [append String.length]. now rewrite ShapeFacts.app_nil_r_s, Nat.add_0_r.
  - cbn [Shape.allChars] in Hw. apply andb_prop in Hw as [Hc Hw].
    cbn [append scan String.length]. rewrite Hc, (IH Hw), app_snoc.
    f_equal. lia.
Qed.

Lemma scan_top_word (w : string) :
  plainWord w = true ->
  forall line column rest,
    scan Top line column (w ++ rest) = scan (Word column w) line (column + String.length w) rest.
Proof.
  unfold plainWord. intros H line column rest. apply andb_prop in H as [Hne Hw].
  destruct w as [|c w]; [discriminate|]. cbn [Shape.allChars] in Hw.
  apply andb_prop in Hw as [Hc Hw].
  destruct (wordChar_outer c Hc) as (H1 & H2 & H3 & H4 & H5 & H6 & H7).
  cbn [append scan String.length]. rewrite H1, H2, H3, H4, H5, H6, H7, Hc.
  rewrite (scan_word w Hw). cbn [append]. f_equal. lia.
Qed.

Lemma scan_args (args : list string) :
  Forall (fun w => plainWord w = true) args ->
  forall line column,
    exists toks,
      scan Top line column (Js.join " " args ++ ";") = Return toks
      /\ map kindAndValue toks
         = map (fun w => (WORD, w)) args ++ [(SEMICOLON, ";"); (EOF, EmptyString)].
Proof.
  induction args as [|a args IH]; intros H line column.
  - eexists. split; reflexivity.
  - inversion H as [|? ? Ha Hargs]; subst. destruct args as [|b args].
    + cbn [Js.join]. eexists. split; [rewrite (scan_top_word a Ha); reflexivity|reflexivity].
    + change (Js.join " " (a :: b :: args)) with (a ++ " " ++ Js.join " " (b :: args))%string.
      destruct (IH Hargs line (S (column + String.length a))) as (toks & Ht & Hm).
      eexists. split.
      * rewrite !ShapeFacts.app_assoc_s. rewrite (scan_top_word a Ha).
        cbn [append scan]. change (isWordChar " ") with false. cbv iota.
        change (Ascii.eqb " " " " || Ascii.eqb " " TAB || Ascii.eqb " " Js.CR) with true.
        cbv iota. cbn [append] in Ht. rewrite Ht. reflexivity.
      * cbn [map kindAndValue t_type t_value push]. now rewrite Hm.
Qed.

(** The lexer reads back what the converters write: for a directive name
    and arguments that need no quotes, the text [name arg ... arg;] gives
    the word tokens of the name and the arguments, in order, then the
    semicolon and [EOF]. *)
Theorem tokenize_directiveText (name : string) (args : list string) :
  plainWord name = true ->
  Forall (fun w => plainWord w = true) args ->
  exists toks,
    tokenize (directiveText name args) = Return toks
    /\ map kindAndValue toks
       = map (fun w => (WORD, w)) (name :: args) ++ [(SEMICOLON, ";"); (EOF, EmptyString)].
Proof.
  intros Hn Ha. unfold tokenize, directiveText.
  destruct (scan_args args Ha 1 (S (1 + String.length name))) as (toks & Ht & Hm).
  eexists. split.
  - rewrite (scan_top_word name Hn).
    cbn [append scan]. change (isWordChar " ") with false. cbv iota.
    change (Ascii.eqb " " " " || Ascii.eqb " " TAB || Ascii.eqb " " Js.CR) with true.
    cbv iota. rewrite Ht. reflexivity.
  - cbn [map kindAndValue t_type t_value push]. now rewrite Hm.
Qed.

Lemma tokenize_directiveText_witness :
  plainWord "listen" = true
  /\ Forall (fun w => plainWord w = true) ["443"; "ssl"; "http2"]
  /\ exists toks,
       tokenize (directiveText "listen" ["443"; "ssl"; "http2"]) = Return toks
       /\ map kindAndValue toks
          = map (fun w => (WORD, w)) ["listen"; "443"; "ssl"; "http2"]
            ++ [(SEMICOLON, ";"); (EOF, EmptyString)].
Proof.
  assert (H : Forall (fun w => plainWord w = true) ["443"; "ssl"; "http2"])
    by (repeat constructor).
  split; [reflexivity|]. split; [exact H|].
  apply (tokenize_directiveText "listen" ["443"; "ssl"; "http2"]); [reflexivity|exact H].
Defined.

End LexerFacts.

(* ================================================================== *)
(** * Properties of the statement parser *)
(* ================================================================== *)

Module SyntaxFacts.
Import Lexer Syntax.

Lemma parseStatement_S (fuel : nat) (toks : list Token) :
  parseStatement (S fuel) toks
  = let token := current toks in
    match t_type token with
    | RBRACE | EOF => Done (None, toks)
    | WORD =>
        let name := t_value token in
        let line := t_line token in
        let (args, toks2) := collectArgs (advance toks) in
        match t_type (current toks2) with
        | LBRACE =>
            match parseChildren fuel (advance toks2) with
            | Done (children, toks3) =>
                match t_type (current toks3) with
                | RBRACE => Done (Some (Block name args children line), advance toks3)
                | other =>
                    Fail {| e_message := "Expected RBRACE, got " ++ typeName other;
                            e_line := t_line (current toks3);
                            e_column := t_column (current toks3) |}
                end
            | Fail e => Fail e
            | OutOfFuel => OutOfFuel
            end
        | SEMICOLON => Done (Some (Directive name args line), advance toks2)
        | other =>
            Fail {| e_message := "Expected ; or {, got " ++ typeName other;
                    e_line := t_line (current toks2);
                    e_column := t_column (current toks2) |}
        end
    | _ =>
        Fail {| e_message := "Unexpected token: " ++ t_value token;
                e_line := t_line token; e_column := t_column token |}
    end.
Proof. reflexivity. Qed.

Lemma parseChildren_S (fuel : nat) (toks : list Token) :
  parseChildren (S fuel) toks
  = if isEnd (t_type (current toks)) then Done ([], toks)
    else
      match parseStatement fuel toks with
      | Done (child, toks') =>
          match parseChildren fuel toks' with
          | Done (children, toks'') =>
              Done (match child with
                    | Some node => node :: children
                    | None => children
                    end, toks'')
          | Fail e => Fail e
          | OutOfFuel => OutOfFuel
          end
      | Fail e => Fail e
      | OutOfFuel => OutOfFuel
      end.
Proof. reflexivity. Qed.

Lemma parseRoot_S (fuel : nat) (toks : list Token) :
  parseRoot (S fuel) toks
  = match t_type (current toks) with
    | EOF => Done ([], [])
    | _ =>
        match parseStatement fuel toks with
        | Done (node, toks') =>
            match parseRoot fuel toks' with
            | Done (directives, blocks) =>
                Done (match node with
                      | Some n =>
                          if isBlock n then (directives, n :: blocks)
                          else (n :: directives, blocks)
                      | None => (directives, blocks)
                      end)
            | Fail e => Fail e
            | OutOfFuel => OutOfFuel
            end
        | Fail e => Fail e
        | OutOfFuel => OutOfFuel
        end
    end.
Proof. destruct fuel; reflexivity. Qed.

(** More fuel does not change a result. *)
Lemma more_fuel (fuel : nat) :
  (forall toks, parseStatement fuel toks <> OutOfFuel ->
     parseStatement (S fuel) toks = parseStatement fuel toks)
  /\ (forall toks, parseChildren fuel toks <> OutOfFuel ->
        parseChildren (S fuel) toks = parseChildren fuel toks).
Proof.
  induction fuel as [|fuel [IHs IHc]].
  - split; intros toks H; now contradiction H.
  - split; intros toks H.
    + rewrite (parseStatement_S (S fuel)). rewrite parseStatement_S in H |- *.
      cbv zeta in *. destruct (t_type (current toks)); try reflexivity.
      destruct (collectArgs (advance toks)) as [args toks2].
      destruct (t_type (current toks2)); try reflexivity.
      destruct (parseChildren fuel (advance toks2)) as [[kids toks3]|e|] eqn:E.
      * rewrite IHc, E; [reflexivity|]. rewrite E. discriminate.
      * rewrite IHc, E; [reflexivity|]. rewrite E. discriminate.
      * now contradiction H.
    + rewrite (parseChildren_S (S fuel)). rewrite parseChildren_S in H |- *.
      destruct (isEnd (t_type (current toks))); [reflexivity|].
      destruct (parseStatement fuel toks) as [[child toks']|e|] eqn:E.
      * rewrite IHs, E by (rewrite E; discriminate).
        destruct (parseChildren fuel toks') as [[kids toks'']|e|] eqn:E2.
        -- rewrite IHc, E2; [reflexivity|]. rewrite E2. discriminate.
        -- rewrite IHc, E2; [reflexivity|]. rewrite E2. discriminate.
        -- now contradiction H.
      * rewrite IHs, E; [reflexivity|]. rewrite E. discriminate.
      * now contradiction H.
Qed.

Lemma parseStatement_fuel (fuel fuel' : nat) (toks : list Token) :
  fuel <= fuel' -> parseStatement fuel toks <> OutOfFuel ->
  parseStatement fuel' toks = parseStatement fuel toks.
Proof.
  intros Hle H. induction Hle as [|m Hle IH]; [reflexivity|].
  rewrite <- IH. apply (proj1 (more_fuel m)). now rewrite IH.
Qed.

Lemma parseChildren_fuel (fuel fuel' : nat) (toks : list Token) :
  fuel <= fuel' -> parseChildren fuel toks <> OutOfFuel ->
  parseChildren fuel' toks = parseChildren fuel toks.
Proof.
  intros Hle H. induction Hle as [|m Hle IH]; [reflexivity|].
  rewrite <- IH. apply (proj2 (more_fuel m)). now rewrite IH.
Qed.

Lemma collectArgs_length (toks : list Token) :
  List.length (snd (collectArgs toks)) <= List.length toks.
Proof.
  induction toks as [|t toks IH]; cbn [collectArgs]; [reflexivity|].
  destruct (t_type t); cbn [snd List.length]; try lia.
  destruct (collectArgs toks). cbn [snd] in *. lia.
Qed.

Lemma current_length (toks : list Token) :
  t_type (current toks) <> EOF -> List.length (advance toks) < List.length toks.
Proof. destruct toks; cbn; [congruence|lia]. Qed.

(** A statement takes at least one token; no statement is read at a
    closing brace or at the end. *)
Lemma statement_consumes (fuel : nat) :
  (forall toks node toks',
     parseStatement fuel toks = Done (node, toks') ->
     match node with
     | Some _ => List.length toks' < List.length toks
     | None => toks' = toks /\ isEnd (t_type (current toks)) = true
     end)
  /\ (forall toks kids toks',
        parseChildren fuel toks = Done (kids, toks') ->
        List.length toks' <= List.length toks).
Proof.
  induction fuel as [|fuel [IHs IHc]]; [split; intros; discriminate|].
  split.
  - intros toks node toks' H. rewrite parseStatement_S in H. cbv zeta in H.
    destruct (t_type (current toks)) eqn:Et; try discriminate H.
    + pose proof (collectArgs_length (advance toks)) as Hl.
      assert (Ha : List.length (advance toks) < List.length toks)
        by (apply current_length; congruence).
      destruct (collectArgs (advance toks)) as [args toks2]. cbn [snd] in Hl.
      destruct (t_type (current toks2)) eqn:E2; try discriminate H.
      * injection H as <- <-.
        assert (List.length (advance toks2) <= List.length toks2)
          by (destruct toks2; cbn; lia). lia.
      * destruct (parseChildren fuel (advance toks2)) as [[kids toks3]|e|] eqn:E;
          try discriminate H.
        apply IHc in E.
        destruct (t_type (current toks3)); try discriminate H. injection H as <- <-.
        assert (List.length (advance toks2) <= List.length toks2)
          by (destruct toks2; cbn; lia).
        assert (List.length (advance toks3) <= List.length toks3)
          by (destruct toks3; cbn; lia). lia.
    + injection H as Hn Ht. subst. now split.
    + injection H as Hn Ht. subst. now split.
  - intros toks kids toks' H. rewrite parseChildren_S in H.
    destruct (isEnd (t_type (current toks))); [injection H as <- <-; lia|].
    destruct (parseStatement fuel toks) as [[child toks1]|e|] eqn:E; try discriminate H.
    destruct (parseChildren fuel toks1) as [[kids1 toks2]|e|] eqn:E2; try discriminate H.
    injection H as <- <-. apply IHs in E. apply IHc in E2.
    destruct child; [lia|]. destruct E as [-> _]. exact E2.
Qed.

(** Fuel for twice the number of tokens is enough. *)
Lemma enough_fuel (n : nat) :
  (forall toks fuel, List.length toks <= n -> 2 * n + 1 <= fuel ->
     parseStatement fuel toks <> OutOfFuel)
  /\ (forall toks fuel, List.length toks <= n -> 2 * n + 2 <= fuel ->
        parseChildren fuel toks <> OutOfFuel).
Proof.
  induction n as [n IH] using lt_wf_ind.
  assert (Hs : forall toks fuel, List.length toks <= n -> 2 * n + 1 <= fuel ->
                 parseStatement fuel toks <> OutOfFuel).
  { intros toks fuel Hlen Hfuel. destruct fuel as [|fuel]; [lia|].
    rewrite parseStatement_S. cbv zeta.
    destruct (t_type (current toks)) eqn:Et; try discriminate.
    pose proof (collectArgs_length (advance toks)) as Hl.
    assert (Ha : List.length (advance toks) < List.length toks)
      by (apply current_length; congruence).
    destruct (collectArgs (advance toks)) as [args toks2]. cbn [snd] in Hl.
    destruct (t_type (current toks2)) eqn:E2; try discriminate.
    assert (Hlt : List.length (advance toks2) < List.length toks2)
      by (apply current_length; congruence).
    destruct (parseChildren fuel (advance toks2)) as [[kids toks3]|e|] eqn:E.
    - destruct (t_type (current toks3)); discriminate.
    - discriminate.
    - exfalso. revert E.
      apply (proj2 (IH (List.length (advance toks2)) ltac:(lia))); lia. }
  split; [exact Hs|].
  intros toks fuel Hlen Hfuel. destruct fuel as [|fuel]; [lia|].
  rewrite parseChildren_S. destruct (isEnd (t_type (current toks))) eqn:Ee; [discriminate|].
  destruct (parseStatement fuel toks) as [[child toks1]|e|] eqn:E.
  - pose proof (proj1 (statement_consumes fuel) _ _ _ E) as Hc.
    destruct child as [node|]; [|destruct Hc as [_ Hc]; congruence].
    destruct (parseChildren fuel toks1) as [[kids toks2]|e|] eqn:E2; try discriminate.
    exfalso. revert E2. apply (proj2 (IH (List.length toks1) ltac:(lia))); lia.
  - discriminate.
  - exfalso. revert E. apply Hs; lia.
Qed.

(** [parseStatement] terminates on every token list: from a bound of
    twice the number of tokens on, it gives one and the same result,
    which is a value or a thrown error. *)
Theorem parseStatement_terminates (toks : list Token) :
  exists result,
    result <> OutOfFuel
    /\ forall fuel, 2 * List.length toks + 1 <= fuel -> parseStatement fuel toks = result.
Proof.
  exists (parseStatement (2 * List.length toks + 1) toks).
  assert (H : parseStatement (2 * List.length toks + 1) toks <> OutOfFuel)
    by (apply (proj1 (enough_fuel (List.length toks))); lia).
  split; [exact H|]. intros fuel Hf. now apply parseStatement_fuel.
Qed.




Lemma stuck_here (toks : list Token) :
  t_type (current toks) = RBRACE -> forall fuel, parseRoot fuel toks = OutOfFuel.
Proof.
  intros Ht fuel. induction fuel as [fuel IH] using lt_wf_ind.
  destruct fuel as [|fuel]; [reflexivity|]. rewrite parseRoot_S, Ht.
  destruct fuel as [|fuel]; [reflexivity|]. rewrite parseStatement_S. cbv zeta.
  rewrite Ht. now rewrite (IH (S fuel)) by lia.
Qed.

(** When the top level of the token list has a closing brace, [parseRoot]
    does not return: the loop reads no statement at the brace and does
    not move past it. *)
Lemma parseRoot_stuck (toks : list Token) :
  strayBrace toks -> forall fuel, parseRoot fuel toks = OutOfFuel.
Proof.
  intros H. induction H as [toks Ht|fuel0 toks node toks' Hs Hstray IH]; intros fuel.
  - now apply stuck_here.
  - destruct fuel as [|fuel]; [reflexivity|]. rewrite parseRoot_S.
    assert (Hsame : parseStatement fuel toks = OutOfFuel
                    \/ parseStatement fuel toks = Done (Some node, toks')).
    { destruct (parseStatement fuel toks) as [r|e|] eqn:E; [| |now left]; right.
      - destruct (Nat.le_ge_cases fuel fuel0) as [Hle|Hge].
        + rewrite <- Hs, <- E. symmetry. apply parseStatement_fuel; [exact Hle|].
          rewrite E. discriminate.
        + rewrite <- E, <- Hs. apply parseStatement_fuel; [exact Hge|].
          rewrite Hs. discriminate.
      - destruct (Nat.le_ge_cases fuel fuel0) as [Hle|Hge].
        + rewrite <- Hs, <- E. symmetry. apply parseStatement_fuel; [exact Hle|].
          rewrite E. discriminate.
        + rewrite <- E, <- Hs. apply parseStatement_fuel; [exact Hge|].
          rewrite Hs. discriminate. }
    assert (Et : t_type (current toks) = WORD).
    { destruct fuel0 as [|fuel0]; [discriminate|].
      rewrite parseStatement_S in Hs. cbv zeta in Hs.
      destruct (t_type (current toks)); try discriminate Hs. reflexivity. }
    rewrite Et. destruct Hsame as [-> | ->]; [reflexivity|]. now rewrite IH.
Qed.



(** A text that starts with a closing brace: when the lexer accepts it,
    [parseRoot] does not return on its tokens.  At the brace
    [parseStatement] answers [null] without moving on, and the loop of
    [parseRoot] asks again. *)
Theorem stray_brace_text (rest : string) (toks : list Token) :
  tokenize (String "}" rest) = Return toks ->
  forall fuel, parseRoot fuel toks = OutOfFuel.
Proof.
  unfold tokenize. cbn [scan]. intros H.
  change (Ascii.eqb "}" " " || Ascii.eqb "}" TAB || Ascii.eqb "}" Js.CR) with false in H.
  cbv iota in H. change (Ascii.eqb "}" Js.LF) with false in H.
  change (Ascii.eqb "}" "#") with false in H. change (Ascii.eqb "}" ";") with false in H.
  change (Ascii.eqb "}" "{") with false in H. change (Ascii.eqb "}" "}") with true in H.
  cbv iota in H. destruct (scan Top 1 2 rest) as [l|e]; cbn [push] in H; [|discriminate].
  injection H as <-. apply parseRoot_stuck. now apply stray_here.
Qed.

Lemma stray_brace_text_witness :
  exists toks,
    tokenize (String "}" " gzip on;") = Return toks
    /\ forall fuel, parseRoot fuel toks = OutOfFuel.
Proof.
  eexists. split; [vm_compute; reflexivity|].
  apply (stray_brace_text " gzip on;"). vm_compute. reflexivity.
Defined.

End SyntaxFacts.

(* ================================================================== *)
(** * Properties of the argument parsers *)
(* ================================================================== *)

Module ArgumentsFacts.
Import Arguments.

Lemma modifierOf_text (m : Modifier) :
  m <> ModNone -> modifierOf (modifierText m) = Some m.
Proof. destruct m; intros H; try reflexivity. now contradiction H. Qed.

Lemma modifierOf_some (arg : string) (m : Modifier) :
  modifierOf arg = Some m -> arg <> EmptyString /\ m <> ModNone.
Proof.
  unfold modifierOf. intros H.
  destruct (String.eqb arg "=") eqn:E1;
    [apply String.eqb_eq in E1; subst; injection H as <-; split; discriminate|].
  destruct (String.eqb arg "~") eqn:E2;
    [apply String.eqb_eq in E2; subst; injection H as <-; split; discriminate|].
  destruct (String.eqb arg "~*") eqn:E3;
    [apply String.eqb_eq in E3; subst; injection H as <-; split; discriminate|].
  destruct (String.eqb arg "^~") eqn:E4;
    [apply String.eqb_eq in E4; subst; injection H as <-; split; discriminate|].
  discriminate.
Qed.

(** [parseLocationModifier] gives the empty path exactly when the first
    argument is the empty word; with a modifier in front the path is never
    empty.  It reads back a modifier and a path that is not empty, and a
    path alone when the path does not spell a modifier; further arguments
    are ignored. *)
Theorem parseLocationModifier_path (args : list string) :
  (snd (parseLocationModifier args) = EmptyString <-> exists rest, args = EmptyString :: rest)
  /\ (fst (parseLocationModifier args) <> ModNone ->
      snd (parseLocationModifier args) <> EmptyString)
  /\ (forall m p more, m <> ModNone -> p <> EmptyString ->
        parseLocationModifier (modifierText m :: p :: more) = (m, p))
  /\ (forall p more, modifierOf p = None -> parseLocationModifier (p :: more) = (ModNone, p)).
Proof.
  split; [|split; [|split]].
  - destruct args as [|first rest]; cbn [parseLocationModifier].
    + split; [discriminate|]. intros (r & H). discriminate.
    + destruct (modifierOf first) as [m|] eqn:E; cbn [snd].
      * destruct (modifierOf_some _ _ E) as [Hne _]. split.
        -- destruct rest as [|second rest']; [discriminate|].
           destruct second; cbn [Js.isEmpty]; discriminate.
        -- intros (r & H). injection H as H _. contradiction.
      * split; [intros ->; now exists rest|]. intros (r & H). now injection H as H _.
  - destruct args as [|first rest]; cbn [parseLocationModifier].
    + intros H. now contradiction H.
    + destruct (modifierOf first) as [m|]; cbn [fst snd]; [|intros H; now contradiction H].
      intros _. destruct rest as [|second rest']; [discriminate|].
      destruct second; cbn [Js.isEmpty]; discriminate.
  - intros m p more Hm Hp. cbn [parseLocationModifier]. rewrite (modifierOf_text m Hm).
    destruct p; [now contradiction Hp|reflexivity].
  - intros p more H. cbn [parseLocationModifier]. now rewrite H.
Qed.

Lemma split_no_colon (s : string) :
  forall cur, Js.includes s ":" = false -> Js.split_go ":" cur s = [(cur ++ s)%string].
Proof.
  induction s as [|c t IH]; intros cur H.
  - cbn [Js.split_go]. now rewrite ShapeFacts.app_nil_r_s.
  - unfold Js.includes in H; fold Js.includes in H. rewrite ParserFacts.prefix_colon in H.
    apply orb_false_elim in H as [Hc Ht]. cbn [Js.split_go]. rewrite Hc, (IH _ Ht).
    now rewrite ShapeFacts.app_assoc_s.
Qed.

Lemma orDefault_nonzero (n : Js.number) (d : Z) : d <> 0%Z -> orDefault n d <> 0%Z.
Proof.
  intros Hd. unfold orDefault. destruct n as [|z]; [exact Hd|].
  destruct (Z.eqb z 0) eqn:E; [exact Hd|]. now apply Z.eqb_neq in E.
Qed.

(** What the loop over the parameters keeps: numbers that are not zero,
    and the address and the port. *)
Lemma parameterStep_keeps (server : PartialUpstreamServer) (arg : string) :
  let next := parameterStep server arg in
  (pu_weight server <> 0%Z -> pu_weight next <> 0%Z)
  /\ (pu_maxFails server <> 0%Z -> pu_maxFails next <> 0%Z)
  /\ (pu_failTimeout server <> 0%Z -> pu_failTimeout next <> 0%Z)
  /\ pu_port next = pu_port server /\ pu_address next = pu_address server
  /\ pu_id next = pu_id server.
Proof.
  cbv zeta. unfold parameterStep.
  destruct (Js.startsWith arg "weight=");
    [cbn; repeat split; try tauto; intros _; now apply orDefault_nonzero|].
  destruct (Js.startsWith arg "max_fails=");
    [cbn; repeat split; try tauto; intros _; now apply orDefault_nonzero|].
  destruct (Js.startsWith arg "fail_timeout=");
    [cbn; repeat split; try tauto; intros _; now apply orDefault_nonzero|].
  destruct (String.eqb arg "backup"); [cbn; repeat split; tauto|].
  destruct (String.eqb arg "down"); [cbn; repeat split; tauto|].
  repeat split; tauto.
Qed.

Lemma parameters_keep (parameters : list string) :
  forall server,
    let final := fold_left parameterStep parameters server in
    (pu_weight server <> 0%Z -> pu_weight final <> 0%Z)
    /\ (pu_maxFails server <> 0%Z -> pu_maxFails final <> 0%Z)
    /\ (pu_failTimeout server <> 0%Z -> pu_failTimeout final <> 0%Z)
    /\ pu_port final = pu_port server /\ pu_address final = pu_address server
    /\ pu_id final = pu_id server.
Proof.
  induction parameters as [|arg rest IH]; intros server; cbn [fold_left].
  - repeat split; tauto.
  - cbv zeta in *.
    destruct (parameterStep_keeps server arg) as (H1 & H2 & H3 & H4 & H5 & H6).
    destruct (IH (parameterStep server arg)) as (K1 & K2 & K3 & K4 & K5 & K6).
    repeat split; try tauto; congruence.
Qed.

Section WithUuid.
Variable uuid : nat -> string.

(** [parseUpstreamServer] never yields a zero: a weight, a failure count,
    a timeout or a port that is 0 or not a number is replaced by the
    default (1, 3, 30 and 80).  The address and the port are set exactly
    when there is an argument, the address being the text in front of the
    first colon; one identifier is drawn. *)
Theorem parseUpstreamServer_defaults (args : list string) (n : nat) :
  let server := fst (parseUpstreamServer uuid args n) in
  pu_weight server <> 0%Z /\ pu_maxFails server <> 0%Z /\ pu_failTimeout server <> 0%Z
  /\ pu_port server <> Some 0%Z
  /\ (pu_port server = None <-> args = [])
  /\ pu_address server = match args with
                         | [] => None
                         | addrPort :: _ => Some (nth 0 (Js.split ":" addrPort) EmptyString)
                         end
  /\ pu_id server = uuid n /\ snd (parseUpstreamServer uuid args n) = S n.
Proof.
  cbv zeta. unfold parseUpstreamServer. destruct args as [|addrPort parameters].
  - cbn. repeat split; try discriminate; tauto.
  - cbn [fst snd].
    match goal with
    | |- context [fold_left parameterStep parameters ?s] =>
        destruct (parameters_keep parameters s) as (K1 & K2 & K3 & K4 & K5 & K6);
        set (located := s) in *
    end.
    cbv zeta in *. rewrite K4, K5, K6.
    assert (Hw : pu_weight located <> 0%Z) by (unfold located; destruct (Js.includes _ _); discriminate).
    assert (Hm : pu_maxFails located <> 0%Z) by (unfold located; destruct (Js.includes _ _); discriminate).
    assert (Ht : pu_failTimeout located <> 0%Z) by (unfold located; destruct (Js.includes _ _); discriminate).
    split; [tauto|]. split; [tauto|]. split; [tauto|].
    unfold located. destruct (Js.includes addrPort ":") eqn:Ei; cbn [pu_port pu_address pu_id].
    + split; [intros H; injection H as H; revert H; now apply orDefault_nonzero|].
      split; [split; discriminate|]. now repeat split.
    + split; [discriminate|]. split; [split; discriminate|]. split; [|now split].
      f_equal. unfold Js.split. now rewrite (split_no_colon addrPort EmptyString Ei).
Qed.
End WithUuid.
End ArgumentsFacts.

(* ================================================================== *)
(** * Properties of the server merge and of [preCleanConfig] *)
(* ================================================================== *)

Module MergeFacts.
Import Merge CleanerRules.

Lemma addToGroup_keyed (server : ServerConfig) (serverMap : list (string * list ServerConfig)) :
  keyed serverMap -> keyed (addToGroup (keyOf server) server serverMap).
Proof.
  unfold keyed. induction serverMap as [|[k group] rest IH]; intros H; cbn [addToGroup].
  - constructor; [|constructor]. cbn [fst snd]. split; [discriminate|].
    intros s [<-|[]]. reflexivity.
  - inversion H as [|? ? [Hne Hk] Hrest]; subst. cbn [fst snd] in *.
    destruct (String.eqb k (keyOf server)) eqn:E.
    + constructor; [|exact Hrest]. cbn [fst snd]. split.
      * destruct group; discriminate.
      * intros s Hs. apply in_app_or in Hs as [Hs|[<-|[]]]; [now apply Hk|].
        apply String.eqb_eq in E. now symmetry.
    + constructor; [now split|]. now apply IH.
Qed.

Lemma addToGroup_In (key : string) (server s : ServerConfig)
    (serverMap : list (string * list ServerConfig)) :
  In s (concat (map snd (addToGroup key server serverMap)))
  <-> s = server \/ In s (concat (map snd serverMap)).
Proof.
  induction serverMap as [|[k group] rest IH]; cbn [addToGroup].
  - cbn. intuition congruence.
  - destruct (String.eqb k key); cbn [map concat snd]; rewrite !in_app_iff.
    + cbn [In]. intuition congruence.
    + rewrite IH. tauto.
Qed.

Lemma groupServers_from (servers : list ServerConfig) :
  forall serverMap,
    keyed serverMap ->
    let final := fold_left (fun m server => addToGroup (keyOf server) server m)
                           servers serverMap in
    keyed final
    /\ forall s, In s (concat (map snd final))
                 <-> In s servers \/ In s (concat (map snd serverMap)).
Proof.
  induction servers as [|server rest IH]; intros serverMap Hk; cbn [fold_left].
  - split; [exact Hk|]. intros s. cbn [In]. tauto.
  - destruct (IH (addToGroup (keyOf server) server serverMap)
                 (addToGroup_keyed server serverMap Hk)) as [Hk' Hin].
    split; [exact Hk'|]. intros s. rewrite Hin, addToGroup_In. cbn [In].
    intuition congruence.
Qed.

Lemma groupServers_spec (servers : list ServerConfig) :
  keyed (groupServers servers)
  /\ forall s, In s (concat (map snd (groupServers servers))) <-> In s servers.
Proof.
  destruct (groupServers_from servers [] (Forall_nil _)) as [Hk Hin].
  split; [exact Hk|]. intros s. rewrite (Hin s). cbn. tauto.
Qed.

Lemma mergeGroup_servers (key : string) (group : list ServerConfig) :
  group <> [] ->
  mr_servers (mergeGroup key group) <> []
  /\ forall s, In s (mr_servers (mergeGroup key group)) -> In s group.
Proof.
  intros Hne. unfold mergeGroup.
  destruct group as [|a [|b rest]]; [now contradiction Hne| |].
  - cbn [mr_servers]. split; [discriminate|tauto].
  - set (group := a :: b :: rest) in *.
    destruct (find ConfigCleaner.isRedirectServer group) as [redirect|] eqn:Ef.
    + apply find_some in Ef as [Hin _].
      destruct (filter (fun s => negb (ConfigCleaner.isRedirectServer s)) group)
        as [|firstNormal normal] eqn:En; cbn [mr_servers].
      * split; [discriminate|]. intros s [<-|[]]. exact Hin.
      * split; [discriminate|]. intros s Hs. rewrite <- En in Hs.
        now apply filter_In in Hs as [Hs _].
    + cbn [mr_servers]. split; [discriminate|]. intros s [<-|[]]. now left.
Qed.

Lemma merge_fold (groups : list (string * list ServerConfig)) :
  forall acc,
    mr_servers
      (fold_left (fun acc entry =>
                    let r := mergeGroup (fst entry) (snd entry) in
                    {| mr_servers := mr_servers acc ++ mr_servers r;
                       merged := merged acc ++ merged r;
                       conflicts := conflicts acc ++ conflicts r |}) groups acc)
    = mr_servers acc
      ++ concat (map (fun entry => mr_servers (mergeGroup (fst entry) (snd entry))) groups).
Proof.
  induction groups as [|entry rest IH]; intros acc; cbn [fold_left map concat].
  - now rewrite app_nil_r.
  - rewrite IH. cbn [mr_servers]. now rewrite app_assoc.
Qed.

(** Every server of the result is a server of the list. *)
Lemma merge_invents_nothing (servers : list ServerConfig) (s : ServerConfig) :
  In s (mr_servers (mergeDuplicateServers servers)) -> In s servers.
Proof.
  unfold mergeDuplicateServers. rewrite merge_fold. cbn [mr_servers app].
  destruct (groupServers_spec servers) as [Hk Hin]. unfold keyed in Hk.
  rewrite Forall_forall in Hk.
  intros Hs. apply in_concat in Hs as (l & Hl & Hs).
  apply in_map_iff in Hl as ([k group] & <- & He). cbn [fst snd] in Hs.
  destruct (Hk _ He) as [Hne _]. cbn [snd] in Hne.
  apply (mergeGroup_servers k group Hne) in Hs.
  apply Hin. apply in_concat. exists group. split; [|exact Hs].
  apply in_map_iff. now exists (k, group).
Qed.

(** [mergeDuplicateServers] invents no server, and it keeps at least one
    server for every port and server name of the list. *)
Theorem mergeDuplicateServers_keeps_keys (servers : list ServerConfig) :
  let result := mr_servers (mergeDuplicateServers servers) in
  (forall s, In s result -> In s servers)
  /\ (forall s, In s servers -> exists s', In s' result /\ keyOf s' = keyOf s).
Proof.
  cbv zeta. split; [apply merge_invents_nothing|].
  unfold mergeDuplicateServers. rewrite merge_fold. cbn [mr_servers app].
  destruct (groupServers_spec servers) as [Hk Hin]. unfold keyed in Hk.
  rewrite Forall_forall in Hk.
  intros s Hs. apply Hin in Hs. apply in_concat in Hs as (group & Hg & Hs).
  apply in_map_iff in Hg as ([k g] & <- & He). cbn [snd] in Hs.
  destruct (Hk _ He) as [Hne Hkey]. cbn [fst snd] in Hne, Hkey.
  destruct (mergeGroup_servers k g Hne) as [Hsome Hsub].
  destruct (mr_servers (mergeGroup k g)) as [|s' rest] eqn:Er; [now contradiction Hsome|].
  exists s'. split.
  - apply in_concat. exists (s' :: rest). split; [|now left].
    apply in_map_iff. exists (k, g). now split.
  - rewrite (Hkey s Hs). apply Hkey. apply Hsub. now left.
Qed.


Lemma addToGroup_new (key : string) (server : ServerConfig)
    (serverMap : list (string * list ServerConfig)) :
  ~ In key (map fst serverMap) ->
  addToGroup key server serverMap = serverMap ++ [(key, [server])].
Proof.
  induction serverMap as [|[k group] rest IH]; intros H; cbn [addToGroup]; [reflexivity|].
  cbn [map fst In] in H. destruct (String.eqb k key) eqn:E.
  - apply String.eqb_eq in E. tauto.
  - cbn [app]. f_equal. apply IH. tauto.
Qed.

Lemma groupServers_distinct (servers : list ServerConfig) :
  forall seen,
    NoDup (map keyOf (seen ++ servers)) ->
    fold_left (fun m server => addToGroup (keyOf server) server m) servers
              (map (fun s => (keyOf s, [s])) seen)
    = map (fun s => (keyOf s, [s])) (seen ++ servers).
Proof.
  induction servers as [|server rest IH]; intros seen Hnd; cbn [fold_left].
  - now rewrite app_nil_r.
  - rewrite addToGroup_new.
    + change (map (fun s => (keyOf s, [s])) seen ++ [(keyOf server, [server])])
        with (map (fun s => (keyOf s, [s])) seen ++ map (fun s => (keyOf s, [s])) [server]).
      rewrite <- map_app.
      replace (seen ++ server :: rest) with ((seen ++ [server]) ++ rest)
        by (now rewrite <- app_assoc).
      apply IH. now rewrite <- app_assoc.
    + rewrite map_map. cbn [fst]. rewrite map_app in Hnd. cbn [map] in Hnd.
      apply NoDup_remove_2 in Hnd. intros Hin. apply Hnd. apply in_or_app. now left.
Qed.

Lemma merge_singletons (servers : list ServerConfig) :
  forall acc,
    fold_left (fun acc entry =>
                 let r := mergeGroup (fst entry) (snd entry) in
                 {| mr_servers := mr_servers acc ++ mr_servers r;
                    merged := merged acc ++ merged r;
                    conflicts := conflicts acc ++ conflicts r |})
              (map (fun s => (keyOf s, [s])) servers) acc
    = {| mr_servers := mr_servers acc ++ servers; merged := merged acc;
         conflicts := conflicts acc |}.
Proof.
  induction servers as [|s rest IH]; intros acc; cbn [map fold_left].
  - rewrite app_nil_r. now destruct acc.
  - rewrite IH. cbn [fst snd mergeGroup mr_servers merged conflicts].
    rewrite !app_nil_r. now rewrite <- app_assoc.
Qed.

(** A list in which no two servers share port and server name is
    returned as it is, with nothing reported. *)
Theorem mergeDuplicateServers_distinct (servers : list ServerConfig) :
  NoDup (map keyOf servers) ->
  mergeDuplicateServers servers
  = {| mr_servers := servers; merged := []; conflicts := [] |}.
Proof.
  intros H. unfold mergeDuplicateServers, groupServers.
  pose proof (groupServers_distinct servers [] H) as E. cbn [map app] in E.
  rewrite E. now rewrite merge_singletons.
Qed.

Lemma mergeDuplicateServers_distinct_witness :
  NoDup (map keyOf (servers Sample.hijackScenario))
  /\ mergeDuplicateServers (servers Sample.hijackScenario)
     = {| mr_servers := servers Sample.hijackScenario; merged := []; conflicts := [] |}.
Proof.
  assert (H : NoDup (map keyOf (servers Sample.hijackScenario))).
  { vm_compute. constructor; [intros [H|[]]; discriminate H|].
    constructor; [intros []|constructor]. }
  split; [exact H|].
  exact (mergeDuplicateServers_distinct (servers Sample.hijackScenario) H).
Defined.


Lemma addToGroup_keys (key : string) (server : ServerConfig)
    (serverMap : list (string * list ServerConfig)) :
  NoDup (map fst serverMap) -> NoDup (map fst (addToGroup key server serverMap)).
Proof.
  intros H. destruct (in_dec string_dec key (map fst serverMap)) as [Hin|Hout].
  - assert (E : map fst (addToGroup key server serverMap) = map fst serverMap).
    { clear H. induction serverMap as [|[k group] rest IH]; [contradiction|].
      cbn [addToGroup]. destruct (String.eqb k key) eqn:E; [reflexivity|].
      cbn [map fst]. f_equal. apply IH. destruct Hin as [Hk|Hin]; [|exact Hin].
      cbn [fst] in Hk. subst. now rewrite String.eqb_refl in E. }
    now rewrite E.
  - rewrite (addToGroup_new key server serverMap Hout), map_app. cbn [map fst].
    apply NoDup_app; [exact H|constructor; [intros []|constructor]|].
    intros a Ha [<-|[]]. contradiction.
Qed.

Lemma groupServers_keys (servers : list ServerConfig) :
  forall serverMap, NoDup (map fst serverMap) ->
    NoDup (map fst (fold_left (fun m server => addToGroup (keyOf server) server m)
                              servers serverMap)).
Proof.
  induction servers as [|server rest IH]; intros serverMap H; cbn [fold_left]; [exact H|].
  apply IH. now apply addToGroup_keys.
Qed.

Lemma mergeGroup_redirect (key : string) (group : list ServerConfig) (s : ServerConfig) :
  In s (mr_servers (mergeGroup key group)) ->
  ConfigCleaner.isRedirectServer s = true ->
  mr_servers (mergeGroup key group) = [s].
Proof.
  unfold mergeGroup. destruct group as [|a [|b rest]].
  - cbn. tauto.
  - cbn [mr_servers]. intros [<-|[]] _. reflexivity.
  - set (group := a :: b :: rest).
    destruct (find ConfigCleaner.isRedirectServer group) as [redirect|] eqn:Ef.
    + destruct (filter (fun s => negb (ConfigCleaner.isRedirectServer s)) group)
        as [|firstNormal normal] eqn:En; cbn [mr_servers].
      * intros [<-|[]] _. reflexivity.
      * intros Hs Hr. rewrite <- En in Hs. apply filter_In in Hs as [_ Hs].
        rewrite Hr in Hs. discriminate.
    + cbn [mr_servers firstn]. intros [<-|[]] _. reflexivity.
Qed.

Lemma filter_key (k : string) (groups : list (string * list ServerConfig))
    (R : string * list ServerConfig -> list ServerConfig) :
  NoDup (map fst groups) ->
  (forall entry x, In entry groups -> In x (R entry) -> keyOf x = fst entry) ->
  forall entry, In entry groups -> fst entry = k ->
    filter (fun x => String.eqb (keyOf x) k) (concat (map R groups)) = R entry.
Proof.
  induction groups as [|e rest IH]; intros Hnd Hkey entry Hin Hk; [contradiction|].
  subst k.
  cbn [map concat]. rewrite filter_app. cbn [map] in Hnd.
  inversion Hnd as [|? ? Hnot Hnd']; subst.
  assert (Hall : forall P (l : list ServerConfig),
            (forall x, In x l -> P x = true) -> filter P l = l).
  { intros P l. induction l as [|x l IHl]; intros H; [reflexivity|]. cbn [filter].
    rewrite (H x (or_introl eq_refl)). f_equal. apply IHl. intros y Hy. apply H. now right. }
  assert (Hnone : forall P (l : list ServerConfig),
            (forall x, In x l -> P x = false) -> filter P l = []).
  { intros P l. induction l as [|x l IHl]; intros H; [reflexivity|]. cbn [filter].
    rewrite (H x (or_introl eq_refl)). apply IHl. intros y Hy. apply H. now right. }
  destruct Hin as [->|Hin].
  - assert (H1 : filter (fun x => String.eqb (keyOf x) (fst entry)) (R entry) = R entry).
    { apply Hall. intros x Hx. rewrite (Hkey entry x (or_introl eq_refl) Hx).
      apply String.eqb_refl. }
    assert (H2 : filter (fun x => String.eqb (keyOf x) (fst entry)) (concat (map R rest)) = []).
    { apply Hnone. intros x Hx. apply in_concat in Hx as (l & Hl & Hx).
      apply in_map_iff in Hl as (e' & <- & He').
      rewrite (Hkey e' x (or_intror He') Hx). apply String.eqb_neq. intros E.
      apply Hnot. rewrite <- E. now apply in_map. }
    now rewrite H1, H2, app_nil_r.
  - assert (H1 : filter (fun x => String.eqb (keyOf x) (fst entry)) (R e) = []).
    { apply Hnone. intros x Hx. rewrite (Hkey e x (or_introl eq_refl) Hx).
      apply String.eqb_neq. intros E. apply Hnot. rewrite E. now apply in_map. }
    rewrite H1. cbn [app]. apply IH; try assumption; [|reflexivity].
    intros e' x He'. apply Hkey. now right.
Qed.

(** After the merge a redirect server is alone on its port and server
    name: no other server of the result has its key. *)
Theorem mergeDuplicateServers_redirect_alone (servers : list ServerConfig) (s : ServerConfig) :
  In s (mr_servers (mergeDuplicateServers servers)) ->
  ConfigCleaner.isRedirectServer s = true ->
  filter (fun x => String.eqb (keyOf x) (keyOf s)) (mr_servers (mergeDuplicateServers servers))
  = [s].
Proof.
  intros Hs Hr. unfold mergeDuplicateServers in *. rewrite merge_fold in *.
  cbn [mr_servers app] in *.
  destruct (groupServers_spec servers) as [Hk _]. unfold keyed in Hk.
  rewrite Forall_forall in Hk.
  assert (Hnd : NoDup (map fst (groupServers servers)))
    by (apply groupServers_keys; constructor).
  apply in_concat in Hs as (l & Hl & Hs).
  apply in_map_iff in Hl as ([k group] & <- & He). cbn [fst snd] in Hs.
  destruct (Hk _ He) as [Hne Hkey]. cbn [fst snd] in Hne, Hkey.
  destruct (mergeGroup_servers k group Hne) as [_ Hsub].
  assert (Eks : keyOf s = k) by (apply Hkey; now apply Hsub).
  rewrite (filter_key (keyOf s) (groupServers servers)
             (fun entry => mr_servers (mergeGroup (fst entry) (snd entry))) Hnd)
    with (entry := (k, group)).
  - cbn [fst snd]. now apply mergeGroup_redirect.
  - intros [k' g'] x He' Hx. cbn [fst snd] in *.
    destruct (Hk _ He') as [Hne' Hkey']. cbn [fst snd] in Hne', Hkey'.
    apply Hkey'. now apply (mergeGroup_servers k' g' Hne').
  - exact He.
  - cbn [fst]. now symmetry.
Qed.

Lemma mergeDuplicateServers_redirect_alone_witness :
  let redirect := set_s_custom (Sample.server "R" 80 false) AutoFixService.REDIRECT_DIRECTIVE in
  let list := [Sample.server "T" 8080 false; redirect; Sample.server "S" 443 true; redirect] in
  In redirect (mr_servers (mergeDuplicateServers list))
  /\ ConfigCleaner.isRedirectServer redirect = true
  /\ filter (fun x => String.eqb (keyOf x) (keyOf redirect))
        (mr_servers (mergeDuplicateServers list))
     = [redirect].
Proof.
  cbv zeta.
  set (redirect := set_s_custom (Sample.server "R" 80 false)
                     AutoFixService.REDIRECT_DIRECTIVE).
  set (list := [Sample.server "T" 8080 false; redirect; Sample.server "S" 443 true; redirect]).
  assert (H1 : In redirect (mr_servers (mergeDuplicateServers list)))
    by (vm_compute; auto).
  assert (H2 : ConfigCleaner.isRedirectServer redirect = true) by reflexivity.
  split; [exact H1|]. split; [exact H2|].
  exact (mergeDuplicateServers_redirect_alone list redirect H1 H2).
Defined.


Lemma cleanServer_spec (server : ServerConfig) :
  Re.test Re.fm (re_setting "autoindex" "on") (s_customDirectives (fst (cleanServer server)))
  = false
  /\ s_id (fst (cleanServer server)) = s_id server
  /\ keyOf (fst (cleanServer server)) = keyOf server.
Proof.
  unfold cleanServer.
  destruct (Re.test Re.fm (re_setting "autoindex" "on") (s_customDirectives server)) eqn:E;
    cbn [fst]; [|now repeat split].
  split; [|now split]. unfold set_s_custom. cbn [s_customDirectives].
  apply (CleanerMoreFacts.test_setting_directive Re.fm Re.gm "autoindex" "on" _ eq_refl
           (fun _ _ H => H)); [discriminate|reflexivity|].
  apply (AcceptFacts.noMatch_test _ _ _ None
           (CleanerMoreFacts.removeDirective_noMatch _ "autoindex" eq_refl eq_refl)).
Qed.

(** After [preCleanConfig] the global passthrough text has no [user root]
    line and no server has an [autoindex on] line; every server of the
    result comes from a server of the config, with its identifier, port and
    server name; the events and http blocks, the upstreams and the
    locations are as they were. *)
Theorem preCleanConfig_clean (config : NginxConfig) :
  let out := fst (preCleanConfig config) in
  Re.test Re.gm (re_setting "user" "root") (g_customDirectives (global out)) = false
  /\ (forall s, In s (servers out) ->
        Re.test Re.fm (re_setting "autoindex" "on") (s_customDirectives s) = false)
  /\ (forall s, In s (servers out) ->
        exists s0, In s0 (servers config) /\ s_id s = s_id s0 /\ keyOf s = keyOf s0)
  /\ events out = events config /\ http out = http config
  /\ upstreams out = upstreams config /\ locations out = locations config.
Proof.
  cbv zeta. unfold preCleanConfig.
  pose proof (CleanerMoreFacts.fixRootUser_no_root
                (g_customDirectives (global config))) as Hr1.
  set (rootFix := fixRootUser (g_customDirectives (global config))) in *.
  pose proof (merge_invents_nothing (servers config)) as Hsub.
  set (mergeResult := mergeDuplicateServers (servers config)) in *.
  assert (Hg : forall c1 w1,
            (c1, w1) = match warning rootFix with
                       | Some w =>
                           (set_global config
                              (set_g_custom (global config) (newDirectives rootFix)),
                            [FromCleaner w])
                       | None => (config, [])
                       end ->
            Re.test Re.gm (re_setting "user" "root") (g_customDirectives (global c1)) = false
            /\ servers c1 = servers config /\ events c1 = events config
            /\ http c1 = http config /\ upstreams c1 = upstreams config
            /\ locations c1 = locations config).
  { intros c1 w1 E. destruct (warning rootFix) as [w|] eqn:Ew; injection E as -> ->.
    - split; [exact Hr1|]. now repeat split.
    - split; [|now repeat split].
      destruct (Re.test Re.gm (re_setting "user" "root")
                  (g_customDirectives (global config))) eqn:Et; [|reflexivity].
      exfalso. unfold rootFix, fixRootUser in Ew. rewrite Et in Ew. discriminate. }
  destruct (match warning rootFix with
            | Some w => _
            | None => _
            end) as [c1 w1] eqn:E1.
  destruct (Hg c1 w1 eq_refl) as (G1 & G2 & G3 & G4 & G5 & G6).
  assert (Hs2 : forall c2 w2,
            (c2, w2) = (if (0 <? List.length (merged mergeResult))
                           || (0 <? List.length (conflicts mergeResult))
                        then (set_servers c1 (mr_servers mergeResult),
                              w1 ++ map (fun m => FromMerge (m_reason m)) (merged mergeResult)
                                 ++ map (fun c => FromMerge (c_reason c))
                                        (conflicts mergeResult))
                        else (c1, w1)) ->
            global c2 = global c1 /\ events c2 = events c1 /\ http c2 = http c1
            /\ upstreams c2 = upstreams c1 /\ locations c2 = locations c1
            /\ forall s, In s (servers c2) -> In s (servers config)).
  { intros c2 w2 E. destruct ((0 <? _) || (0 <? _)); injection E as -> ->.
    - cbn. repeat split; try reflexivity. exact Hsub.
    - repeat split; try reflexivity. now rewrite G2. }
  destruct (if (0 <? List.length (merged mergeResult))
               || (0 <? List.length (conflicts mergeResult))
            then _ else _) as [c2 w2] eqn:E2.
  destruct (Hs2 c2 w2 eq_refl) as (K1 & K2 & K3 & K4 & K5 & K6).
  cbn [fst global servers events http upstreams locations set_servers].
  split; [now rewrite K1|]. split; [|split].
  - intros s Hs. rewrite map_map in Hs. apply in_map_iff in Hs as (s0 & <- & _).
    apply cleanServer_spec.
  - intros s Hs. rewrite map_map in Hs. apply in_map_iff in Hs as (s0 & <- & Hs0).
    exists s0. split; [now apply K6|]. destruct (cleanServer_spec s0) as (_ & H1 & H2).
    now split.
  - repeat split; congruence.
Qed.

End MergeFacts.

(* ================================================================== *)
(** * The text that [cleanRegex] returns *)
(* ================================================================== *)

Module BlankRunFacts.
Import BlankRuns AutoFixService Shape ShapeFacts.

Lemma star_LF (s : string) :
  forall prev, Re.star (fun c => Ascii.eqb c Js.LF) (fun _ rest => Some rest) prev s
               = Some (dropLead s).
Proof.
  induction s as [|c t IH]; intros prev; cbn [Re.star dropLead]; [reflexivity|].
  destruct (Ascii.eqb c Js.LF); [|reflexivity]. now rewrite IH.
Qed.

(** The pattern of three or more line feeds matches the whole run at the
    head of the text, when that run has three line feeds or more. *)
Lemma exec_blankRun (prev : option ascii) (s : string) :
  Re.exec Re.plain re_blankRun prev s
  = if 3 <=? lead s then Some (dropLead s) else None.
Proof.
  unfold Re.exec, re_blankRun, Re.Plus. cbn [Re.m]. unfold Re.isLF.
  destruct s as [|a s]; [reflexivity|]. cbn [lead dropLead].
  destruct (Ascii.eqb a Js.LF); [|reflexivity].
  destruct s as [|b s]; [reflexivity|]. cbn [lead dropLead].
  destruct (Ascii.eqb b Js.LF); [|reflexivity].
  destruct s as [|c s]; [reflexivity|]. cbn [lead dropLead].
  destruct (Ascii.eqb c Js.LF) eqn:E; [|reflexivity].
  now rewrite star_LF.
Qed.

Lemma lead_split (s : string) :
  exists run, s = (run ++ dropLead s)%string /\ String.length run = lead s
              /\ lead (dropLead s) = 0.
Proof.
  induction s as [|c t (run & Hr & Hl & Hz)]; cbn [lead dropLead].
  - exists EmptyString. now repeat split.
  - destruct (Ascii.eqb c Js.LF) eqn:E.
    + exists (String c run). cbn [append String.length]. split; [now f_equal|]. now split; [f_equal|].
    + exists EmptyString. cbn [append String.length lead]. rewrite E. now repeat split.
Qed.

Lemma length_dropLead (s : string) :
  String.length s = lead s + String.length (dropLead s).
Proof.
  induction s as [|c t IH]; cbn [lead dropLead String.length]; [reflexivity|].
  destruct (Ascii.eqb c Js.LF); cbn [String.length]; lia.
Qed.

Lemma includes_cons (c : ascii) (t sub : string) :
  Js.includes (String c t) sub = String.prefix sub (String c t) || Js.includes t sub.
Proof. reflexivity. Qed.

Lemma prefix_triple (s : string) : String.prefix tripleLF s = (3 <=? lead s).
Proof.
  unfold tripleLF.
  destruct s as [|a s]; [reflexivity|]. cbn [String.prefix lead].
  destruct (ascii_dec Js.LF a) as [<-|Ha];
    [rewrite Ascii.eqb_refl|
     destruct (Ascii.eqb_spec a Js.LF) as [->|]; [now contradiction Ha|reflexivity]].
  destruct s as [|b s]; [reflexivity|]. cbn [String.prefix lead].
  destruct (ascii_dec Js.LF b) as [<-|Hb];
    [rewrite Ascii.eqb_refl|
     destruct (Ascii.eqb_spec b Js.LF) as [->|]; [now contradiction Hb|reflexivity]].
  destruct s as [|c s]; [reflexivity|]. cbn [String.prefix lead].
  destruct (ascii_dec Js.LF c) as [<-|Hc];
    [rewrite Ascii.eqb_refl|
     destruct (Ascii.eqb_spec c Js.LF) as [->|]; [now contradiction Hc|reflexivity]].
  now destruct s.
Qed.

(** Replacing every run of three or more line feeds by two leaves no run
    of three. *)
Lemma squeeze (n : nat) :
  forall s, String.length s <= n ->
  forall prev,
    let out := Re.replace_go Re.plain re_blankRun
                 (String Js.LF (String Js.LF EmptyString)) 0 prev s in
    Js.includes out tripleLF = false /\ lead out = Nat.min (lead s) 2.
Proof.
  induction n as [|n IH]; intros s Hlen prev; cbv zeta.
  - destruct s; [|cbn in Hlen; lia]. cbn [Re.replace_go]. rewrite exec_blankRun.
    cbn. now split.
  - destruct s as [|c t]; [apply (IH EmptyString (Nat.le_0_l _) prev)|].
    cbn [String.length] in Hlen. cbn [Re.replace_go]. rewrite exec_blankRun.
    destruct (3 <=? lead (String c t)) eqn:E3.
    + apply Nat.leb_le in E3.
      pose proof (length_dropLead (String c t)) as Hd.
      destruct (lead_split (String c t)) as (run & Hr & Hl & Hz).
      remember (dropLead (String c t)) as d eqn:Ed.
      remember (lead (String c t)) as l eqn:El.
      replace (String.length (String c t) - String.length d) with l by lia.
      destruct l as [|k]; [lia|].
      destruct run as [|r0 run]; [cbn in Hl; lia|]. cbn [append] in Hr.
      injection Hr as Hc Hr. cbn [String.length] in Hl, Hd.
      assert (Hk : String.length run = k) by lia.
      assert (Eg : Re.replace_go Re.plain re_blankRun
                     (String Js.LF (String Js.LF EmptyString)) k (Some c) t
                   = Re.replace_go Re.plain re_blankRun
                       (String Js.LF (String Js.LF EmptyString)) 0
                       (lastChar (Some c) run) d).
      { rewrite Hr at 1. rewrite <- Hk. apply (replace_skip Re.plain). }
      rewrite Eg.
      destruct (IH d ltac:(lia) (lastChar (Some c) run)) as [Hi Hm].
      rewrite Hz in Hm. cbn [Nat.min] in Hm.
      cbn [append]. split.
      * rewrite !includes_cons, !prefix_triple. cbn [lead]. rewrite !Ascii.eqb_refl, Hm, Hi.
        reflexivity.
      * cbn [lead]. rewrite !Ascii.eqb_refl, Hm. lia.
    + apply Nat.leb_gt in E3.
      destruct (IH t ltac:(lia) (Some c)) as [Hi Hm].
      split.
      * rewrite includes_cons, prefix_triple, Hi. rewrite orb_false_r.
        apply Nat.leb_gt. cbn [lead] in *. destruct (Ascii.eqb c Js.LF); lia.
      * cbn [lead] in *. destruct (Ascii.eqb c Js.LF); lia.
Qed.

Lemma includes_app_l (a b sub : string) :
  Js.includes b sub = true -> Js.includes (a ++ b) sub = true.
Proof.
  intros H. induction a as [|c a IH]; cbn [append]; [exact H|].
  rewrite includes_cons, IH. apply orb_true_r.
Qed.

Lemma prefix_app_r (sub a b : string) :
  String.prefix sub a = true -> String.prefix sub (a ++ b) = true.
Proof.
  revert a. induction sub as [|x sub IH]; intros a H; [now destruct (a ++ b)%string|].
  destruct a as [|y a]; [discriminate|]. cbn [append String.prefix] in *.
  destruct (ascii_dec x y); [now apply IH|discriminate].
Qed.

Lemma includes_app_r (a b sub : string) :
  sub <> EmptyString -> Js.includes a sub = true -> Js.includes (a ++ b) sub = true.
Proof.
  intros Hne. induction a as [|c a IH]; intros H.
  - cbn in H. rewrite orb_false_r in H. destruct sub; [now contradiction Hne|discriminate].
  - cbn [append]. rewrite includes_cons in *. apply orb_prop in H as [H|H].
    + change (String c (a ++ b)) with (String c a ++ b)%string.
      now rewrite (prefix_app_r _ _ _ H).
    + rewrite (IH H). apply orb_true_r.
Qed.

Lemma trim_keeps (s sub : string) :
  sub <> EmptyString -> Js.includes s sub = false -> Js.includes (Js.trim s) sub = false.
Proof.
  intros Hne H. unfold Js.trim.
  destruct (Js.includes (Js.trimEnd (Js.trimStart s)) sub) eqn:E; [|reflexivity].
  destruct (trimEnd_split (Js.trimStart s)) as (w & Hw & _).
  destruct (trimStart_split s) as (v & Hv & _).
  rewrite Hv, Hw in H. rewrite includes_app_l in H; [discriminate|].
  now apply includes_app_r.
Qed.

(** [cleanRegex] returns a trimmed text without a run of three line
    feeds, and the empty text for a text that is blank; the key is a name
    of letters, digits, [-] and [_], which stands for itself in the
    pattern that the source builds from it. *)
Theorem cleanRegex_shape (text key : string) :
  Notions.plainName key = true ->
  let r := cleanRegex text key in
  Js.trim r = r
  /\ Js.includes r tripleLF = false
  /\ (Js.isEmpty (Js.trim text) = true -> r = EmptyString).
Proof.
  intros _. cbv zeta. unfold cleanRegex.
  destruct (Js.isEmpty text || Js.isEmpty (Js.trim text)) eqn:E.
  - now repeat split.
  - split; [apply trim_idem|]. split.
    + apply trim_keeps; [discriminate|]. unfold Re.replace.
      apply (squeeze (String.length
                        (Re.replace_go Re.gm (re_clean key) EmptyString 0 None text))
                     _ (le_n _) None).
    + intros H. rewrite H, orb_true_r in E. discriminate.
Qed.

Lemma cleanRegex_shape_witness :
  let text := ("user root;" ++ Sample.nl ++ Sample.nl ++ Sample.nl ++ Sample.nl
                 ++ "worker_processes 4;" ++ Sample.nl)%string in
  Notions.plainName "user" = true
  /\ Js.trim (cleanRegex text "user") = cleanRegex text "user"
  /\ Js.includes (cleanRegex text "user") tripleLF = false
  /\ (Js.isEmpty (Js.trim text) = true -> cleanRegex text "user" = EmptyString).
Proof.
  cbv zeta. split; [reflexivity|].
  apply (cleanRegex_shape
           ("user root;" ++ Sample.nl ++ Sample.nl ++ Sample.nl ++ Sample.nl
              ++ "worker_processes 4;" ++ Sample.nl)%string "user").
  reflexivity.
Defined.

End BlankRunFacts.
